(** * metro-sci: the fast plotting kernels

    A shallow embedding of the Cython kernels of
    [metro/devices/display/_fast_plot_native.pyx] (the rasterization surface,
    [stack], [plot], [bars]) and of the two stand-alone kernels [separate]
    and [add_pixel], together with the properties of the written
    specification that can be stated over them.

    Conventions of the embedding.
    - A C [int] is a [Z] in the range of a signed 32-bit word; every
      arithmetic operation on it is followed by [CInt.wrap] (two's
      complement wrap-around, which is what the compiled code does).
    - A C [double] is an IEEE 754 binary64 number, [spec_float] with the
      operations of [SpecFloat] at precision 53 (round to nearest even).
    - All modules are compiled with [boundscheck=False]: an array access out
      of range is undefined behaviour.  The embedding makes every such
      access an explicit [Raise OutOfBounds] outcome.
    - The pixel buffer is reached through a raw pointer without a known
      extent; it is the finite map from offsets [k] to the byte stored at
      [ptr[k]]. *)

From Stdlib Require Import ZArith Lia List Bool String.
From Stdlib Require Import SpecFloat.
From stdpp Require Import base option list gmap.

Open Scope Z_scope.

(** ** C integers *)

Module CInt.

Definition int_min : Z := - 2 ^ 31.
Definition int_max : Z := 2 ^ 31 - 1.

(** The values of type [int]. *)
Definition is_int (z : Z) : Prop := int_min <= z <= int_max.

(** Reduction of a mathematical integer to a 32-bit two's complement one. *)
Definition wrap (z : Z) : Z := (z + 2 ^ 31) mod 2 ^ 32 - 2 ^ 31.

Definition add (a b : Z) : Z := wrap (a + b).
Definition sub (a b : Z) : Z := wrap (a - b).
Definition mul (a b : Z) : Z := wrap (a * b).
(** [a << 1] *)
Definition shl1 (a : Z) : Z := wrap (Z.shiftl a 1).
(** [a >> 1] on a signed int: arithmetic shift. *)
Definition shr1 (a : Z) : Z := Z.shiftr a 1.
(** [a // 2] under [cdivision=True]: the C quotient, truncated towards 0. *)
Definition half (a : Z) : Z := Z.quot a 2.
(** libc [abs]. *)
Definition abs (a : Z) : Z := wrap (Z.abs a).

(** Conversion of an [int] to [unsigned char]. *)
Definition to_uchar (c : Z) : Z := c mod 256.

Arguments wrap : simpl never.
Arguments add : simpl never.
Arguments sub : simpl never.
Arguments mul : simpl never.
Arguments shl1 : simpl never.
Arguments abs : simpl never.
Arguments to_uchar : simpl never.

End CInt.

(** ** C doubles *)

Module Double.

Definition prec : Z := 53.
Definition emax : Z := 1024.

Definition double : Type := spec_float.

Definition add : double -> double -> double := SFadd prec emax.
Definition sub : double -> double -> double := SFsub prec emax.
Definition mul : double -> double -> double := SFmul prec emax.
Definition div : double -> double -> double := SFdiv prec emax.

(** [<double>z] for an integer [z]. *)
Definition of_int (z : Z) : double := binary_normalize prec emax z 0 false.

(** The integer part of a finite double (truncation towards zero). *)
Definition trunc (d : double) : option Z :=
  match d with
  | S754_zero _ => Some 0
  | S754_finite s m e =>
      let t := Z.shiftl (Zpos m) e in Some (if s then - t else t)
  | S754_infinity _ | S754_nan => None
  end.

(** [<int>d].  C leaves the conversion undefined when the integer part does
    not fit; the embedding returns what the x86-64 conversion instruction
    [cvttsd2si] returns then, the integer indefinite value [int_min]. *)
Definition to_int (d : double) : Z :=
  match trunc d with
  | Some t =>
      if (CInt.int_min <=? t) && (t <=? CInt.int_max) then t
      else CInt.int_min
  | None => CInt.int_min
  end.

(** [<unsigned char>d]: converted as an [int], of which the low byte is
    kept. *)
Definition to_uchar (d : double) : Z := CInt.to_uchar (to_int d).

(** The literal [0.005]: the double nearest to 5/1000. *)
Definition lit_0_005 : double := S754_finite false 5764607523034235 (-60).

Arguments add : simpl never.
Arguments sub : simpl never.
Arguments mul : simpl never.
Arguments div : simpl never.
Arguments of_int : simpl never.
Arguments to_int : simpl never.

End Double.

Abbreviation double := Double.double.

(** ** Outcomes *)

Inductive exn : Type :=
| ValueError (msg : string)
| OverflowError
| OutOfBounds
| DivisionByZero.

Inductive res (A : Type) : Type :=
| Ok (a : A)
| Raise (e : exn).
Arguments Ok {A} a.
Arguments Raise {A} e.

#[global] Instance res_ret : MRet res := fun _ a => Ok a.
#[global] Instance res_bind : MBind res := fun _ _ f m =>
  match m with
  | Ok a => f a
  | Raise e => Raise e
  end.

(** An unchecked array read: the element, or undefined behaviour. *)
Definition checked {A} (o : option A) : res A :=
  match o with
  | Some a => Ok a
  | None => Raise OutOfBounds
  end.

(** Conversion of a Python integer to a C [int]. *)
Definition to_c_int (z : Z) : res Z :=
  if (CInt.int_min <=? z) && (z <=? CInt.int_max) then Ok z
  else Raise OverflowError.

(** [a // b] under [cdivision=True]: the C quotient, truncated towards
    zero, with no check of the divisor. *)
Definition c_div (a b : Z) : res Z :=
  if b =? 0 then Raise DivisionByZero else Ok (CInt.wrap (Z.quot a b)).

(** [for i in l: s = body i s], stopping at the first failure. *)
Fixpoint for_each {S : Type} (l : list Z) (body : Z -> S -> res S) (s : S)
  : res S :=
  match l with
  | [] => Ok s
  | i :: l' => s' ← body i s; for_each l' body s'
  end.

(** [for i in range(a, b)] *)
Definition for_range {S : Type} (a b : Z) (body : Z -> S -> res S) (s : S)
  : res S :=
  for_each (seqZ a (b - a)) body s.

(** ** Arrays *)

(** [a[i]] for a C index [i]. *)
Definition get1 {A} (a : list A) (i : Z) : res A :=
  checked (if 0 <=? i then a !! Z.to_nat i else None).

(** [a[i] = v] *)
Definition set1 {A} (a : list A) (i : Z) (v : A) : res (list A) :=
  if (0 <=? i) && (i <? Z.of_nat (length a)) then Ok (<[Z.to_nat i := v]> a)
  else Raise OutOfBounds.

(** A two-dimensional array in C order, as the list of its rows. *)
Definition array2 (A : Type) : Type := list (list A).

(** [a.shape[0]] and [a.shape[1]] *)
Definition shape0 {A} (a : array2 A) : Z := Z.of_nat (length a).
Definition shape1 {A} (a : array2 A) : Z :=
  match a with
  | [] => 0
  | row :: _ => Z.of_nat (length row)
  end.

(** All rows have the same length [w]. *)
Definition rectangular {A} (w : Z) (a : array2 A) : Prop :=
  Forall (fun row : list A => Z.of_nat (length row) = w) a.

(** [a[i, j]] *)
Definition get2 {A} (a : array2 A) (i j : Z) : res A :=
  row ← get1 a i; get1 row j.

(** [a[i, j] = v] *)
Definition set2 {A} (a : array2 A) (i j : Z) (v : A) : res (array2 A) :=
  row ← get1 a i; row' ← set1 row j v; set1 a i row'.

(** ** The fused element types

    [x_t] and [y_t] range over the C integer types and the two floating
    point types.  A specialization of a generic function sees its element
    type through the operations it uses: the zero, the addition and the
    conversion to [double]. *)

Record ctype : Type := {
  val :> Type;
  c_zero : val;
  c_add : val -> val -> val;
  c_to_double : val -> double
}.

(** Reduction to an integer type of [bits] bits. *)
Definition wrap_int (signed : bool) (bits : Z) (z : Z) : Z :=
  if signed then (z + 2 ^ (bits - 1)) mod 2 ^ bits - 2 ^ (bits - 1)
  else z mod 2 ^ bits.

Definition c_int_type (signed : bool) (bits : Z) : ctype := {|
  val := Z;
  c_zero := 0;
  c_add := fun a b => wrap_int signed bits (a + b);
  c_to_double := Double.of_int
|}.

Definition c_char : ctype := c_int_type true 8.
Definition c_uchar : ctype := c_int_type false 8.
Definition c_short : ctype := c_int_type true 16.
Definition c_ushort : ctype := c_int_type false 16.
Definition c_int : ctype := c_int_type true 32.
Definition c_uint : ctype := c_int_type false 32.
Definition c_long : ctype := c_int_type true 64.
Definition c_ulong : ctype := c_int_type false 64.
Definition c_longlong : ctype := c_int_type true 64.
Definition c_ulonglong : ctype := c_int_type false 64.

(** A C [float] is a binary32 number; its conversion to [double] is exact. *)
Definition c_float : ctype := {|
  val := spec_float;
  c_zero := S754_zero false;
  c_add := SFadd 24 128;
  c_to_double := fun f =>
    match f with
    | S754_finite s m e => binary_round Double.prec Double.emax s m e
    | _ => f
    end
|}.

Definition c_double : ctype := {|
  val := double;
  c_zero := S754_zero false;
  c_add := Double.add;
  c_to_double := fun d => d
|}.

(** ** [stack] *)

Section Stack.
Context (y_t : ctype).

(** The column read by the innermost loop: [<int>(j + k * stacking)]. *)
Definition stack_index (stacking : double) (j k : Z) : Z :=
  Double.to_int
    (Double.add (Double.of_int j) (Double.mul (Double.of_int k) stacking)).
Arguments stack_index : simpl never.

(** [datum = 0; for k in range(stack_height): datum += inp[i, ...]] *)
Definition stack_datum (inp : array2 y_t) (stacking : double)
    (stack_height i j : Z) : res y_t :=
  for_range 0 stack_height
    (fun k datum =>
       v ← get2 inp i (stack_index stacking j k);
       Ok (c_add y_t datum v))
    (c_zero y_t).

(** [outp_len = min(inp_len, <int>stacking)] *)
Definition stack_outp_len (inp_len : Z) (stacking : double) : Z :=
  Z.min inp_len (Double.to_int stacking).

(** [stack_height = <int>(inp_len / stacking)] *)
Definition stack_height (inp_len : Z) (stacking : double) : Z :=
  Double.to_int (Double.div (Double.of_int inp_len) stacking).

Definition stack (inp outp : array2 y_t) (stacking : double)
  : res (array2 y_t) :=
  let inp_len := CInt.wrap (shape1 inp) in
  let outp_len := stack_outp_len inp_len stacking in
  let stack_height := stack_height inp_len stacking in
  for_range 0 (shape0 inp)
    (fun i outp =>
       for_range 0 outp_len
         (fun j outp =>
            datum ← stack_datum inp stacking stack_height i j;
            set2 outp i j datum)
         outp)
    outp.

End Stack.

(** ** [separate] *)

(** A Python [slice] object, of which [start] and [stop] are read. *)
Record slice : Type := {
  slice_start : option Z;
  slice_stop : option Z
}.

(** The elements of [separate] are C floats, which are only copied. *)
Definition float : Type := spec_float.

(** The element read for column [j] of part [i]:
    [<int>(part_start + <double>j)] with [part_start = <double>i * distance]. *)
Definition separate_index (distance : double) (i j : Z) : Z :=
  let part_start := Double.mul (Double.of_int i) distance in
  Double.to_int (Double.add part_start (Double.of_int j)).
Arguments separate_index : simpl never.

Definition separate (inp : list float) (outp : array2 float)
    (distance : double) (binning : Z) (outp_slice : slice)
  : res (array2 float) :=
  let inp_len := CInt.wrap (Z.of_nat (length inp)) in
  let outp_len := Z.min inp_len (Double.to_int distance) in
  let n_parts := Double.to_int (Double.div (Double.of_int inp_len) distance) in
  outp_begin ←
    match slice_start outp_slice with
    | Some z => to_c_int z
    | None => Ok 0
    end;
  outp_end ←
    match slice_stop outp_slice with
    | Some z => to_c_int z
    | None => Ok outp_len
    end;
  for_range 0 n_parts
    (fun i outp =>
       for_range outp_begin outp_end
         (fun j outp =>
            v ← get1 inp (separate_index distance i j);
            col ← c_div (CInt.sub j outp_begin) binning;
            set2 outp i col v)
         outp)
    outp.

(** ** [add_pixel] *)

(** [<unsigned char>(255 - 255/(1 + 0.005 * m))] *)
Definition scaled (m : Z) : Z :=
  Double.to_uchar
    (Double.sub (Double.of_int 255)
       (Double.div (Double.of_int 255)
          (Double.add (Double.of_int 1)
             (Double.mul Double.lit_0_005 (Double.of_int m))))).
Arguments scaled : simpl never.

(** What [add_pixel] works on: the count matrix, the bytes behind
    [img_ptr] and the running maximum. *)
Record hits : Type := {
  mtx : array2 Z;
  img : gmap Z Z;
  max_value : Z
}.

Definition add_pixel (mtx0 : array2 Z) (pos : array2 Z) (size_x size_y : Z)
    (img0 : gmap Z Z) (prev_max_value : Z) : res hits :=
  let height_complement := CInt.sub size_y 1 in
  for_range 0 (shape0 pos)
    (fun i h =>
       x ← get2 pos i 0;
       y ← get2 pos i 1;
       m ← get2 (mtx h) y x;
       mtx' ← set2 (mtx h) y x (CInt.add m 1);
       m' ← get2 mtx' y x;
       let scaled_value := scaled m' in
       let max_value' := Z.max scaled_value (max_value h) in
       let k := CInt.add (CInt.mul (CInt.sub height_complement y) size_x) x in
       Ok {| mtx := mtx'; img := <[k := scaled_value]> (img h);
             max_value := max_value' |})
    {| mtx := mtx0; img := img0; max_value := prev_max_value |}.

(** ** The rasterization surface *)

Record surface : Type := {
  (* Image buffer properties *)
  ptr : gmap Z Z;
  line_length : Z;
  height_complement : Z;
  (* Position and size of the plot within the image *)
  offset_x : Z;
  offset_y : Z;
  plot_width : Z;
  plot_height : Z;
  (* Axis limits in image space *)
  min_x : Z;
  max_x : Z;
  min_y : Z;
  max_y : Z;
  (* Axis limits in data space *)
  start_x : double;
  end_x : double;
  start_y : double;
  end_y : double;
  (* Transformation factors between data and image space *)
  div_x : double;
  div_y : double
}.

(** The assignments to the fields of [*s]. *)
Definition set_ptr (v : gmap Z Z) (s : surface) : surface :=
  {| ptr := v; line_length := line_length s;
     height_complement := height_complement s;
     offset_x := offset_x s; offset_y := offset_y s;
     plot_width := plot_width s; plot_height := plot_height s;
     min_x := min_x s; max_x := max_x s; min_y := min_y s; max_y := max_y s;
     start_x := start_x s; end_x := end_x s;
     start_y := start_y s; end_y := end_y s;
     div_x := div_x s; div_y := div_y s |}.

Definition set_image (v : gmap Z Z) (ll hc : Z) (s : surface) : surface :=
  {| ptr := v; line_length := ll; height_complement := hc;
     offset_x := offset_x s; offset_y := offset_y s;
     plot_width := plot_width s; plot_height := plot_height s;
     min_x := min_x s; max_x := max_x s; min_y := min_y s; max_y := max_y s;
     start_x := start_x s; end_x := end_x s;
     start_y := start_y s; end_y := end_y s;
     div_x := div_x s; div_y := div_y s |}.

Definition set_offset_x (v : Z) (s : surface) : surface :=
  {| ptr := ptr s; line_length := line_length s;
     height_complement := height_complement s;
     offset_x := v; offset_y := offset_y s;
     plot_width := plot_width s; plot_height := plot_height s;
     min_x := min_x s; max_x := max_x s; min_y := min_y s; max_y := max_y s;
     start_x := start_x s; end_x := end_x s;
     start_y := start_y s; end_y := end_y s;
     div_x := div_x s; div_y := div_y s |}.

Definition set_offset_y (v : Z) (s : surface) : surface :=
  {| ptr := ptr s; line_length := line_length s;
     height_complement := height_complement s;
     offset_x := offset_x s; offset_y := v;
     plot_width := plot_width s; plot_height := plot_height s;
     min_x := min_x s; max_x := max_x s; min_y := min_y s; max_y := max_y s;
     start_x := start_x s; end_x := end_x s;
     start_y := start_y s; end_y := end_y s;
     div_x := div_x s; div_y := div_y s |}.

Definition set_plot_width (v : Z) (s : surface) : surface :=
  {| ptr := ptr s; line_length := line_length s;
     height_complement := height_complement s;
     offset_x := offset_x s; offset_y := offset_y s;
     plot_width := v; plot_height := plot_height s;
     min_x := min_x s; max_x := max_x s; min_y := min_y s; max_y := max_y s;
     start_x := start_x s; end_x := end_x s;
     start_y := start_y s; end_y := end_y s;
     div_x := div_x s; div_y := div_y s |}.

Definition set_plot_height (v : Z) (s : surface) : surface :=
  {| ptr := ptr s; line_length := line_length s;
     height_complement := height_complement s;
     offset_x := offset_x s; offset_y := offset_y s;
     plot_width := plot_width s; plot_height := v;
     min_x := min_x s; max_x := max_x s; min_y := min_y s; max_y := max_y s;
     start_x := start_x s; end_x := end_x s;
     start_y := start_y s; end_y := end_y s;
     div_x := div_x s; div_y := div_y s |}.

Definition set_limits (x0 x1 y0 y1 : Z) (s : surface) : surface :=
  {| ptr := ptr s; line_length := line_length s;
     height_complement := height_complement s;
     offset_x := offset_x s; offset_y := offset_y s;
     plot_width := plot_width s; plot_height := plot_height s;
     min_x := x0; max_x := x1; min_y := y0; max_y := y1;
     start_x := start_x s; end_x := end_x s;
     start_y := start_y s; end_y := end_y s;
     div_x := div_x s; div_y := div_y s |}.

Definition set_start_x (v : double) (s : surface) : surface :=
  {| ptr := ptr s; line_length := line_length s;
     height_complement := height_complement s;
     offset_x := offset_x s; offset_y := offset_y s;
     plot_width := plot_width s; plot_height := plot_height s;
     min_x := min_x s; max_x := max_x s; min_y := min_y s; max_y := max_y s;
     start_x := v; end_x := end_x s;
     start_y := start_y s; end_y := end_y s;
     div_x := div_x s; div_y := div_y s |}.

Definition set_end_x (v : double) (s : surface) : surface :=
  {| ptr := ptr s; line_length := line_length s;
     height_complement := height_complement s;
     offset_x := offset_x s; offset_y := offset_y s;
     plot_width := plot_width s; plot_height := plot_height s;
     min_x := min_x s; max_x := max_x s; min_y := min_y s; max_y := max_y s;
     start_x := start_x s; end_x := v;
     start_y := start_y s; end_y := end_y s;
     div_x := div_x s; div_y := div_y s |}.

Definition set_start_y (v : double) (s : surface) : surface :=
  {| ptr := ptr s; line_length := line_length s;
     height_complement := height_complement s;
     offset_x := offset_x s; offset_y := offset_y s;
     plot_width := plot_width s; plot_height := plot_height s;
     min_x := min_x s; max_x := max_x s; min_y := min_y s; max_y := max_y s;
     start_x := start_x s; end_x := end_x s;
     start_y := v; end_y := end_y s;
     div_x := div_x s; div_y := div_y s |}.

Definition set_end_y (v : double) (s : surface) : surface :=
  {| ptr := ptr s; line_length := line_length s;
     height_complement := height_complement s;
     offset_x := offset_x s; offset_y := offset_y s;
     plot_width := plot_width s; plot_height := plot_height s;
     min_x := min_x s; max_x := max_x s; min_y := min_y s; max_y := max_y s;
     start_x := start_x s; end_x := end_x s;
     start_y := start_y s; end_y := v;
     div_x := div_x s; div_y := div_y s |}.

Definition set_div_x (v : double) (s : surface) : surface :=
  {| ptr := ptr s; line_length := line_length s;
     height_complement := height_complement s;
     offset_x := offset_x s; offset_y := offset_y s;
     plot_width := plot_width s; plot_height := plot_height s;
     min_x := min_x s; max_x := max_x s; min_y := min_y s; max_y := max_y s;
     start_x := start_x s; end_x := end_x s;
     start_y := start_y s; end_y := end_y s;
     div_x := v; div_y := div_y s |}.

Definition set_div_y (v : double) (s : surface) : surface :=
  {| ptr := ptr s; line_length := line_length s;
     height_complement := height_complement s;
     offset_x := offset_x s; offset_y := offset_y s;
     plot_width := plot_width s; plot_height := plot_height s;
     min_x := min_x s; max_x := max_x s; min_y := min_y s; max_y := max_y s;
     start_x := start_x s; end_x := end_x s;
     start_y := start_y s; end_y := end_y s;
     div_x := div_x s; div_y := v |}.

(** *** Primitives *)

(** The clip test of [draw_pixel]. *)
Definition in_clip (s : surface) (x y : Z) : bool :=
  (min_x s <=? x) && (x <=? max_x s) && (min_y s <=? y) && (y <=? max_y s).

(** The offset [(s.height_complement - y) * s.line_length + x]. *)
Definition pixel_index (s : surface) (x y : Z) : Z :=
  CInt.add (CInt.mul (CInt.sub (height_complement s) y) (line_length s)) x.

Definition draw_pixel (s : surface) (x y c : Z) : surface :=
  if in_clip s x y
  then set_ptr (<[pixel_index s x y := CInt.to_uchar c]> (ptr s)) s
  else s.

(** [for v from lo <= v <= hi by 1: s = body v s].  (With [hi = int_max]
    the compiled loop would not leave; the embedding stops after [hi].) *)
Definition for_from {S : Type} (lo hi : Z) (body : Z -> S -> S) (s : S) : S :=
  fold_left (fun s v => body v s) (seqZ lo (hi - lo + 1)) s.

Definition draw_rect (s : surface) (x1 y1 w h c : Z) : surface :=
  let x2 := CInt.sub (CInt.add x1 w) 1 in
  let y2 := CInt.sub (CInt.add y1 h) 1 in
  let s :=
    for_from x1 x2
      (fun x s => draw_pixel (draw_pixel s x y1 c) x y2 c) s in
  (* for y from y1 < y < y2 *)
  for_from (CInt.add y1 1) (y2 - 1)
    (fun y s => draw_pixel (draw_pixel s x1 y c) x2 y c) s.

Definition fill_rect (s : surface) (x1 y1 w h c : Z) : surface :=
  let x2 := CInt.sub (CInt.add x1 w) 1 in
  let y2 := CInt.sub (CInt.add y1 h) 1 in
  for_from x1 x2
    (fun x s =>
       (* for y from y1 < y < y2 *)
       for_from (CInt.add y1 1) (y2 - 1)
         (fun y s => draw_pixel s x y c) s)
    s.

Definition draw_square (s : surface) (x y l c : Z) : surface :=
  draw_rect s
    (CInt.sub x (CInt.shr1 (CInt.sub l 1)))
    (CInt.sub y (CInt.shr1 (CInt.sub l 1))) l l c.

(** *** [draw_line] *)

(** One turn of the loop over the major axis; [a] is the coordinate on the
    major axis, [b] the one on the minor axis, [da] and [db] the doubled
    differences. *)
Definition line_step (ia ib da db : Z) (st : Z * Z * Z) : Z * Z * Z :=
  let '(a, b, error) := st in
  let '(b, error) :=
    if 0 <=? error then (CInt.add b ib, CInt.sub error da) else (b, error) in
  (CInt.add a ia, b, CInt.add error db).
Arguments line_step : simpl never.

(** [while x != x2: draw_pixel(s, x, y, c); ...] followed by the last
    [draw_pixel(s, x, y, c)]; [None] when [fuel] turns did not reach [x2]. *)
Fixpoint line_loop_x (fuel : nat) (x2 ix iy dx dy c : Z) (s : surface)
    (x y error : Z) : option surface :=
  if x =? x2 then Some (draw_pixel s x y c)
  else
    match fuel with
    | O => None
    | S fuel' =>
        let s := draw_pixel s x y c in
        let '(x, y, error) := line_step ix iy dx dy (x, y, error) in
        line_loop_x fuel' x2 ix iy dx dy c s x y error
    end.

(** The same loop over [y]. *)
Fixpoint line_loop_y (fuel : nat) (y2 ix iy dx dy c : Z) (s : surface)
    (x y error : Z) : option surface :=
  if y =? y2 then Some (draw_pixel s x y c)
  else
    match fuel with
    | O => None
    | S fuel' =>
        let s := draw_pixel s x y c in
        let '(y, x, error) := line_step iy ix dy dx (y, x, error) in
        line_loop_y fuel' y2 ix iy dx dy c s x y error
    end.

(** The number of turns after which a coordinate that starts at [a] and
    moves by [i] (in 32-bit arithmetic) is equal to [b]. *)
Definition line_turns (a b i : Z) : nat := Z.to_nat ((i * (b - a)) mod 2 ^ 32).

Definition draw_line (s : surface) (x1 y1 x2 y2 c : Z) : surface :=
  let '(dx, ix) :=
    if x1 <=? x2 then (CInt.sub x2 x1, 1) else (CInt.sub x1 x2, -1) in
  let '(dy, iy) :=
    if y1 <=? y2 then (CInt.sub y2 y1, 1) else (CInt.sub y1 y2, -1) in
  if dx =? 0 then
    let '(y1, y2) := if iy <? 0 then (y2, y1) else (y1, y2) in
    for_from y1 y2 (fun y s => draw_pixel s x1 y c) s
  else if dy =? 0 then
    let '(x1, x2) := if ix <? 0 then (x2, x1) else (x1, x2) in
    for_from x1 x2 (fun x s => draw_pixel s x y1 c) s
  else if dy <=? dx then
    let dy := CInt.shl1 dy in
    let error := CInt.sub dy dx in
    let dx := CInt.shl1 dx in
    default s
      (line_loop_x (line_turns x1 x2 ix) x2 ix iy dx dy c s x1 y1 error)
  else
    let dx := CInt.shl1 dx in
    let error := CInt.sub dx dy in
    let dy := CInt.shl1 dy in
    default s
      (line_loop_y (line_turns y1 y2 iy) y2 ix iy dx dy c s x1 y1 error).

(** ** Operations on a surface

    The operations that take the handle [s_bits] act on the surface behind
    it and may fail: a computation returns its outcome together with the
    surface as the call leaves it. *)

Definition Surf (A : Type) : Type := surface -> res A * surface.

#[global] Instance Surf_ret : MRet Surf := fun _ a s => (Ok a, s).
#[global] Instance Surf_bind : MBind Surf := fun _ _ f m s =>
  match m s with
  | (Ok a, s') => f a s'
  | (Raise e, s') => (Raise e, s')
  end.

Definition raise {A} (e : exn) : Surf A := fun s => (Raise e, s).
Definition lift {A} (r : res A) : Surf A := fun s => (r, s).
Definition update (f : surface -> surface) : Surf unit :=
  fun s => (Ok tt, f s).
Definition field {A} (f : surface -> A) : Surf A := fun s => (Ok (f s), s).
Definition skip : Surf unit := fun s => (Ok tt, s).
(** [if b: m] *)
Definition when (b : bool) (m : Surf unit) : Surf unit :=
  if b then m else skip.

(** [for i in l: a = body i a], on a surface. *)
Fixpoint for_each_surf {A : Type} (l : list Z) (body : Z -> A -> Surf A)
    (a : A) : Surf A :=
  match l with
  | [] => mret a
  | i :: l' => a' ← body i a; for_each_surf l' body a'
  end.

Definition for_range_surf {A : Type} (a b : Z) (body : Z -> A -> Surf A)
    (x : A) : Surf A :=
  for_each_surf (seqZ a (b - a)) body x.

(** [surface_set_geometry]; [image] is the memory behind [image_bits]. *)
Definition surface_set_geometry (image : gmap Z Z)
    (line_length image_height : Z) (geometry : list Z) : Surf unit :=
  update (set_image image line_length (CInt.sub image_height 1));;
  g0 ← lift (get1 geometry 0); update (set_offset_x g0);;
  g1 ← lift (get1 geometry 1); update (set_offset_y g1);;
  g2 ← lift (get1 geometry 2); update (set_plot_width g2);;
  g3 ← lift (get1 geometry 3); update (set_plot_height g3);;
  update (fun s =>
    set_limits (offset_x s) (CInt.add (offset_x s) (plot_width s))
               (offset_y s) (CInt.add (offset_y s) (plot_height s)) s).

Definition surface_set_view (axes transform : list double) : Surf unit :=
  a0 ← lift (get1 axes 0); update (set_start_x a0);;
  a1 ← lift (get1 axes 1); update (set_end_x a1);;
  a2 ← lift (get1 axes 2); update (set_start_y a2);;
  a3 ← lift (get1 axes 3); update (set_end_y a3);;
  t0 ← lift (get1 transform 0); update (set_div_x t0);;
  t1 ← lift (get1 transform 1); update (set_div_y t1).

(** [memset(p, v, n)]; the count is a [size_t]. *)
Definition memset (p : gmap Z Z) (v n : Z) : gmap Z Z :=
  fold_left (fun p k => <[k := v]> p) (seqZ 0 (n mod 2 ^ 64)) p.

Definition surface_clear : Surf unit :=
  update (fun s =>
    set_ptr
      (memset (ptr s) 0
         (CInt.mul (line_length s) (CInt.add (height_complement s) 1))) s).

(** *** [plot] and [bars] *)

(** [<int>((v - s.start_x) * s.div_x) + s.offset_x] *)
Definition pixel_x (s : surface) (v : double) : Z :=
  CInt.add (Double.to_int (Double.mul (Double.sub v (start_x s)) (div_x s)))
    (offset_x s).

(** [<int>((v - s.start_y) * s.div_y) + s.offset_y] *)
Definition pixel_y (s : surface) (v : double) : Z :=
  CInt.add (Double.to_int (Double.mul (Double.sub v (start_y s)) (div_y s)))
    (offset_y s).

(** The test that lets a segment be drawn: not both ends left of the plot
    and not both right of it. *)
Definition segment_visible (s : surface) (last_x cur_x : Z) : bool :=
  negb (((last_x <? offset_x s) && (cur_x <? offset_x s))
        || ((max_x s <? last_x) && (max_x s <? cur_x))).

Section Plot.
Context (x_t y_t : ctype).

(** The body of the two loops of [plot]; [marker] tells which one. *)
Definition plot_body (data_x : list x_t) (data_y : list y_t)
    (line_color symbol_color : Z) (marker : bool) (i : Z) (last : Z * Z)
  : Surf (Z * Z) :=
  let '(last_x, last_y) := last in
  x ← lift (get1 data_x i);
  cur_x ← field (fun s => pixel_x s (c_to_double x_t x));
  y ← lift (get1 data_y i);
  cur_y ← field (fun s => pixel_y s (c_to_double y_t y));
  visible ← field (fun s => segment_visible s last_x cur_x);
  when visible
    (update (fun s => draw_line s last_x last_y cur_x cur_y line_color);;
     when marker
       (update (fun s => draw_square s cur_x cur_y 5 symbol_color)));;
  mret (cur_x, cur_y).

Definition plot (data_x : list x_t) (data_y : list y_t) (color_idx : Z)
    (marker : bool) : Surf unit :=
  if negb (length data_x =? length data_y)%nat then
    raise (ValueError "len(x) != len(y)")
  else
    let N := CInt.wrap (Z.of_nat (length data_y)) in
    let line_color := CInt.add (CInt.mul (CInt.add color_idx 1) 10) 1 in
    let symbol_color := CInt.add line_color 1 in
    x ← lift (get1 data_x 0);
    last_x ← field (fun s => pixel_x s (c_to_double x_t x));
    y ← lift (get1 data_y 0);
    last_y ← field (fun s => pixel_y s (c_to_double y_t y));
    in_range ← field (fun s => (offset_x s <=? last_x) && (last_x <=? max_x s));
    when (marker && in_range)
      (update (fun s => draw_square s last_x last_y 5 symbol_color));;
    (if marker then
       for_range_surf 1 N
         (plot_body data_x data_y line_color symbol_color true)
         (last_x, last_y)
     else
       for_range_surf 1 N
         (plot_body data_x data_y line_color symbol_color false)
         (last_x, last_y) : Surf (Z * Z));;
    skip.

Definition bars_body (data_x : list x_t) (data_y : list y_t)
    (color width y0 : Z) (i : Z) (_ : unit) : Surf unit :=
  y ← lift (get1 data_y i);
  let datum := c_to_double y_t y in
  x ← lift (get1 data_x i);
  cur_x ← field (fun s => pixel_x s (c_to_double x_t x));
  cur_y ← field (fun s => pixel_y s datum);
  in_range ← field (fun s => (offset_x s <=? cur_x) && (cur_x <=? max_x s));
  when in_range
    (if cur_y =? y0 then
       update (fun s =>
         draw_line s (CInt.sub cur_x (CInt.half width)) y0
           (CInt.add cur_x (CInt.half width)) y0 color)
     else
       update (fun s =>
         fill_rect s (CInt.sub cur_x (CInt.half width)) (Z.min y0 cur_y)
           width (CInt.abs (CInt.sub cur_y y0)) color)).

Definition bars (data_x : list x_t) (data_y : list y_t) (color_idx : Z)
    (width : Z) : Surf unit :=
  if negb (length data_x =? length data_y)%nat then
    raise (ValueError "len(x) != len(y)")
  else
    let N := CInt.wrap (Z.of_nat (length data_y)) in
    let color := CInt.add (CInt.mul (CInt.add color_idx 1) 10) 1 in
    y0 ← field (fun s => pixel_y s (S754_zero false));
    for_range_surf 0 N (bars_body data_x data_y color width y0) tt.

End Plot.

(** * Vocabulary of the properties *)

(** ** Doubles as numbers *)

(** What a C [double] can hold: a finite double has a canonical mantissa
    and an exponent in range. *)
Definition is_double (d : double) : Prop :=
  valid_binary Double.prec Double.emax d = true.

(** The value of a positive finite double, in units of [2 ^ -400]. *)
Definition fp_unit : Z := 2 ^ 400.
Definition fp_val (m : positive) (e : Z) : Z := Zpos m * 2 ^ (e + 400).

(** ** The frame of a surface: everything but the pixels *)

Definition frame (s : surface) : surface := set_ptr ∅ s.

(** The eight fields that describe the geometry. *)
Definition geometry_fields (s : surface) : Z * Z * Z * Z * Z * Z * Z * Z :=
  (offset_x s, offset_y s, plot_width s, plot_height s,
   min_x s, max_x s, min_y s, max_y s).

(** The invariant between the clip rectangle and the geometry. *)
Definition geometry_inv (s : surface) : Prop :=
  min_x s = offset_x s /\
  max_x s = CInt.add (offset_x s) (plot_width s) /\
  min_y s = offset_y s /\
  max_y s = CInt.add (offset_y s) (plot_height s).

(** A computation on a surface leaves the observation [g] as it was,
    whatever its outcome. *)
Definition keeps {A X : Type} (g : surface -> X) (m : Surf A) : Prop :=
  forall s, g (m s).2 = g s.

(** A computation on a surface ends without an error. *)
Definition succeeds {A : Type} (m : Surf A) : Prop :=
  forall s, exists a, (m s).1 = Ok a.

(** The surface of the scenario of the specification: an 11 x 11 image of
    which the plot takes all, with the identity transform. *)
Definition scenario : surface := {|
  ptr := ∅; line_length := 11; height_complement := 10;
  offset_x := 0; offset_y := 0; plot_width := 10; plot_height := 10;
  min_x := 0; max_x := 10; min_y := 0; max_y := 10;
  start_x := S754_zero false; end_x := Double.of_int 10;
  start_y := S754_zero false; end_y := Double.of_int 10;
  div_x := Double.of_int 1; div_y := Double.of_int 1
|}.

(** Every position [pos[i]] has its two coordinates, and [(x, y)] is a cell
    of the count matrix. *)
Definition hits_in_range (mtx0 : array2 Z) (pos : array2 Z) : Prop :=
  forall i, 0 <= i < shape0 pos ->
    exists x y, get2 pos i 0 = Ok x /\ get2 pos i 1 = Ok y /\
      exists m, get2 mtx0 y x = Ok m.

(** The cells [(i, j)] with [0 <= i < rows] and [0 <= j < cols] exist. *)
Definition has_cells {A} (a : array2 A) (rows cols : Z) : Prop :=
  forall i j, 0 <= i < rows -> 0 <= j < cols -> exists v, get2 a i j = Ok v.

(** Every column that [stack] reads is a column of the input. *)
Definition stack_reads_in_range (inp_len : Z) (stacking : double) : Prop :=
  forall j k,
    0 <= j < stack_outp_len inp_len stacking ->
    0 <= k < stack_height inp_len stacking ->
    0 <= stack_index stacking j k < inp_len.

(** What a call of [stack] that has returned [outp'] has stored, if the
    columns it stores in are the first [width] ones: each of these cells of
    the rows of the input holds the datum computed for it, every other cell
    of [outp] is as before. *)
Definition stack_stores (y_t : ctype) (inp outp : array2 y_t)
    (stacking : double) (width : Z) (outp' : array2 y_t) : Prop :=
  forall i j,
    (0 <= i < shape0 inp /\ 0 <= j < width ->
       exists v, get2 outp' i j = Ok v /\
         stack_datum y_t inp stacking
           (stack_height (CInt.wrap (shape1 inp)) stacking) i j = Ok v) /\
    (~ (0 <= i < shape0 inp /\ 0 <= j < width) ->
       get2 outp' i j = get2 outp i j).

(** The mathematical sum of a list of integers. *)
Definition Zsum (l : list Z) : Z := fold_right Z.add 0 l.

(** What [stack] has stored when the outer loop reaches row [i] and the
    inner loop column [j]. *)
Definition stack_done (rows width i j : Z) (i' j' : Z) : Prop :=
  0 <= i' < rows /\ 0 <= j' < width /\ (i' < i \/ (i' = i /\ j' < j)).

Definition stack_inv (y_t : ctype) (inp outp : array2 y_t) (stacking : double)
    (h width i j : Z) (cur : array2 y_t) : Prop :=
  forall i' j',
    (stack_done (shape0 inp) width i j i' j' ->
       exists v, get2 cur i' j' = Ok v /\
         stack_datum y_t inp stacking h i' j' = Ok v) /\
    (~ stack_done (shape0 inp) width i j i' j' ->
       get2 cur i' j' = get2 outp i' j').

(** The first precondition, as a test that can be run. *)
Definition has_cells_check {A} (a : array2 A) (rows cols : Z) : bool :=
  forallb
    (fun i => forallb
       (fun j => match get2 a i j with Ok _ => true | Raise _ => false end)
       (seqZ 0 cols))
    (seqZ 0 rows).

(** ** Vocabulary for [separate] *)

(** The fully open slice [slice(None, None)]. *)
Definition open_slice : slice := {| slice_start := None; slice_stop := None |}.

(** [outp_len] and [n_parts] of [separate]. *)
Definition separate_outp_len (inp_len : Z) (distance : double) : Z :=
  Z.min inp_len (Double.to_int distance).
Definition separate_n_parts (inp_len : Z) (distance : double) : Z :=
  Double.to_int (Double.div (Double.of_int inp_len) distance).

(** Every element that [separate] reads through an open slice exists. *)
Definition separate_reads_in_range (inp_len : Z) (distance : double) : Prop :=
  forall i j,
    0 <= i < separate_n_parts inp_len distance ->
    0 <= j < separate_outp_len inp_len distance ->
    0 <= separate_index distance i j < inp_len.

(** The last [j] below [t] that is stored in column [c]. *)
Definition separate_last (binning t c : Z) : Z :=
  Z.min (c * binning + binning - 1) (t - 1).

(** What [separate] has stored when the outer loop is at part [i] and the
    inner loop at [j = t]: column [c] of a part holds the last sample that
    was binned into it. *)
Definition separate_inv (inp : list float) (outp : array2 float)
    (distance : double) (binning width i t : Z) (cur : array2 float) : Prop :=
  forall i' c,
    (0 <= i' < i -> 0 <= c -> c * binning < width ->
       exists v, get2 cur i' c = Ok v /\
         get1 inp (separate_index distance i' (separate_last binning width c))
         = Ok v) /\
    (i' = i -> 0 <= c -> c * binning < t ->
       exists v, get2 cur i' c = Ok v /\
         get1 inp (separate_index distance i' (separate_last binning t c))
         = Ok v) /\
    (~ (0 <= i' < i /\ 0 <= c /\ c * binning < width) ->
     ~ (i' = i /\ 0 <= c /\ c * binning < t) ->
       get2 cur i' c = get2 outp i' c).

(** C4 as the specification has it: in the result [outp'] of [separate]
    on an open slice, column 0 of every part [i] holds
    [inp[<int>(i * distance)]]. *)
Definition separate_first_sample (inp : list float) (distance : double)
    (outp' : array2 float) : Prop :=
  forall i,
    0 <= i < separate_n_parts (CInt.wrap (Z.of_nat (length inp))) distance ->
    exists v, get2 outp' i 0 = Ok v /\
      get1 inp (Double.to_int (Double.mul (Double.of_int i) distance)) = Ok v.

(** ** Vocabulary for [draw_line] *)

(** [draw_pixel] on each point of a list, in order. *)
Definition draw_points (c : Z) (l : list (Z * Z)) (s : surface) : surface :=
  fold_left (fun s p => draw_pixel s p.1 p.2 c) l s.

Definition transpose (p : Z * Z) : Z * Z := (p.2, p.1).

(** The points that a loop of [draw_line] passes in [n] turns, the one
    after the loop included, as (major, minor) coordinates. *)
Fixpoint line_points (n : nat) (ia ib da db : Z) (st : Z * Z * Z)
  : list (Z * Z) :=
  match n with
  | O => [st.1]
  | S n' => st.1 :: line_points n' ia ib da db (line_step ia ib da db st)
  end.

(** For a line of [n] steps on the major axis and [m] on the minor one:
    the number of minor steps taken before turn [k], which is [k * m / n]
    rounded to nearest with ties upwards, and the error term at turn [k]. *)
Definition line_minor (n m k : Z) : Z := (2 * k * m + n) / (2 * n).
Definition line_error (n m k : Z) : Z :=
  2 * m * (k + 1) - n - 2 * n * line_minor n m k.

(** No point of the ideal line lies halfway between two pixels. *)
Definition line_no_tie (n m : Z) : Prop :=
  forall k, 0 <= k <= n -> (2 * k * m + n) mod (2 * n) <> 0.

(** The points of the line from [(a1, b1)], in (major, minor) coordinates,
    in the order of the loop. *)
Definition line_path (ia ib a1 b1 n m : Z) : list (Z * Z) :=
  (fun k => (a1 + ia * k, b1 + ib * line_minor n m k)) <$> seqZ 0 (n + 1).

(** The pixels on which [fill_rect] calls [draw_pixel], in order. *)
Definition fill_rect_calls (x1 y1 w h : Z) : list (Z * Z) :=
  let x2 := CInt.sub (CInt.add x1 w) 1 in
  let y2 := CInt.sub (CInt.add y1 h) 1 in
  x ← seqZ x1 (x2 - x1 + 1);
  y ← seqZ (CInt.add y1 1) (y2 - 1 - CInt.add y1 1 + 1);
  [(x, y)].


(** * Vocabulary of the further properties *)

(** ** What a drawing operation does to the pixels *)

(** [s'] is [s] with the colour [c] stored at the pixels of [P] that lie
    inside the clip rectangle, and with nothing else changed. *)
Definition paints (s s' : surface) (c : Z) (P : Z -> Z -> Prop) : Prop :=
  frame s' = frame s /\
  (forall x y, P x y -> in_clip s x y = true ->
     ptr s' !! pixel_index s x y = Some (CInt.to_uchar c)) /\
  (forall k,
     (forall x y, P x y -> in_clip s x y = true -> pixel_index s x y <> k) ->
     ptr s' !! k = ptr s !! k).

(** The pixels on which [draw_rect] calls [draw_pixel], in order. *)
Definition draw_rect_calls (x1 y1 w h : Z) : list (Z * Z) :=
  let x2 := CInt.sub (CInt.add x1 w) 1 in
  let y2 := CInt.sub (CInt.add y1 h) 1 in
  (x ← seqZ x1 (x2 - x1 + 1); [(x, y1); (x, y2)])
  ++ (y ← seqZ (CInt.add y1 1) (y2 - 1 - CInt.add y1 1 + 1);
      [(x1, y); (x2, y)]).

(** The offset of the pixel [(x, y)] from the ideal line from [(x1, y1)] to
    [(x2, y2)]: the cross product of the two vectors from [(x1, y1)], with
    the sign of the slope.  Divided by the length of the line on its major
    axis, it is the distance of the pixel from the line along the minor
    axis. *)
Definition line_offset (x1 y1 x2 y2 x y : Z) : Z :=
  (if 0 <=? (x2 - x1) * (y2 - y1) then 1 else -1)
  * ((x - x1) * (y2 - y1) - (y - y1) * (x2 - x1)).

(** ** What a computation on a surface leaves in place *)

(** [R] relates the surface before a computation to the one after it,
    whatever the outcome. *)
Definition between {A : Type} (R : surface -> surface -> Prop) (m : Surf A)
  : Prop :=
  forall s, R s (m s).2.

(** Every byte of [s'] is the one of [s], or is the byte of a pixel inside
    the clip rectangle that holds one of the colours [C]; the frame is the
    same. *)
Definition drawn_with (C : Z -> Prop) (s s' : surface) : Prop :=
  frame s' = frame s /\
  forall k,
    ptr s' !! k = ptr s !! k \/
    exists x y c, C c /\ in_clip s x y = true /\ pixel_index s x y = k /\
                  ptr s' !! k = Some (CInt.to_uchar c).

(** The offsets of the image behind [s.ptr]. *)
Definition in_image (s : surface) (k : Z) : Prop :=
  0 <= k < line_length s * (height_complement s + 1).

(** The clip rectangle lies inside the image, of which the size is an
    [int]. *)
Definition clip_in_image (s : surface) : Prop :=
  0 <= min_x s /\ max_x s < line_length s /\
  0 <= min_y s /\ max_y s <= height_complement s /\
  line_length s * (height_complement s + 1) <= CInt.int_max.

(** The two colours of [plot]. *)
Definition line_color (color_idx : Z) : Z :=
  CInt.add (CInt.mul (CInt.add color_idx 1) 10) 1.
Definition symbol_color (color_idx : Z) : Z :=
  CInt.add (line_color color_idx) 1.

(** ** Vocabulary for the counts of [add_pixel] *)

(** The row [pos[i]] is a hit of the cell [(x, y)]. *)
Definition is_hit (x y : Z) (row : list Z) : bool :=
  match row with
  | x' :: y' :: _ => (x' =? x) && (y' =? y)
  | _ => false
  end.

(** The number of hits of the cell [(x, y)] among the positions. *)
Definition hit_count (pos : array2 Z) (x y : Z) : Z :=
  Z.of_nat (length (List.filter (is_hit x y) pos)).

(** The byte of the image that shows the cell [(x, y)]. *)
Definition image_index (size_x size_y x y : Z) : Z :=
  (size_y - 1 - y) * size_x + x.
(** * Properties *)

(** ** Arithmetic of C integers *)

Lemma wrap_is_int (z : Z) : CInt.is_int (CInt.wrap z).
Proof.
  unfold CInt.is_int, CInt.wrap, CInt.int_min, CInt.int_max.
  pose proof (Z.mod_pos_bound (z + 2 ^ 31) (2 ^ 32)). lia.
Qed.

Lemma wrap_id (z : Z) : CInt.is_int z -> CInt.wrap z = z.
Proof.
  unfold CInt.is_int, CInt.wrap, CInt.int_min, CInt.int_max. intros H.
  rewrite Z.mod_small; lia.
Qed.

Lemma wrap_congr (z : Z) : CInt.wrap z mod 2 ^ 32 = z mod 2 ^ 32.
Proof.
  unfold CInt.wrap.
  rewrite Zminus_mod_idemp_l.
  f_equal. lia.
Qed.

Lemma wrap_nonneg_le (z : Z) : 0 <= z -> CInt.wrap z <= z.
Proof.
  intros H. unfold CInt.wrap.
  pose proof (Z.mod_le (z + 2 ^ 31) (2 ^ 32)). lia.
Qed.

Lemma to_uchar_id (c : Z) : 0 <= c <= 255 -> CInt.to_uchar c = c.
Proof. intros H. unfold CInt.to_uchar. apply Z.mod_small. lia. Qed.

(** ** The frame of a surface *)

Lemma frame_set_ptr p s : frame (set_ptr p s) = frame s.
Proof. reflexivity. Qed.

Lemma frame_geometry s s' :
  frame s' = frame s -> geometry_fields s' = geometry_fields s.
Proof.
  intros H. destruct s, s'. unfold frame, set_ptr, geometry_fields in *.
  simpl in *. injection H as -> -> -> -> -> -> -> -> -> -> -> -> -> -> -> ->.
  reflexivity.
Qed.

Lemma frame_ptr_eq s s' : frame s' = frame s -> ptr s' = ptr s -> s' = s.
Proof.
  intros H Hp. destruct s, s'. unfold frame, set_ptr in *. simpl in *.
  subst. injection H as -> -> -> -> -> -> -> -> -> -> -> -> -> -> -> ->.
  reflexivity.
Qed.

Lemma frame_in_clip s s' x y :
  frame s' = frame s -> in_clip s' x y = in_clip s x y.
Proof.
  intros H. destruct s, s'. unfold frame, set_ptr, in_clip in *.
  simpl in *. injection H as -> -> -> -> -> -> -> -> -> -> -> -> -> -> -> ->.
  reflexivity.
Qed.

Lemma frame_pixel_index s s' x y :
  frame s' = frame s -> pixel_index s' x y = pixel_index s x y.
Proof.
  intros H. destruct s, s'. unfold frame, set_ptr, pixel_index in *.
  simpl in *. injection H as -> -> -> -> -> -> -> -> -> -> -> -> -> -> -> ->.
  reflexivity.
Qed.

Lemma in_clip_spec s x y :
  in_clip s x y = true <->
  (min_x s <= x <= max_x s /\ min_y s <= y <= max_y s).
Proof. unfold in_clip. rewrite !andb_true_iff, !Z.leb_le. lia. Qed.

Lemma draw_pixel_frame s x y c : frame (draw_pixel s x y c) = frame s.
Proof. unfold draw_pixel. destruct (in_clip s x y); reflexivity. Qed.

Lemma for_from_frame lo hi (body : Z -> surface -> surface) s :
  (forall v s, frame (body v s) = frame s) ->
  frame (for_from lo hi body s) = frame s.
Proof.
  intros Hb. unfold for_from.
  generalize (seqZ lo (hi - lo + 1)). intros l. revert s.
  induction l as [|v l IH]; intros s; simpl; [reflexivity|].
  rewrite IH. apply Hb.
Qed.

Lemma draw_rect_frame s x1 y1 w h c :
  frame (draw_rect s x1 y1 w h c) = frame s.
Proof.
  unfold draw_rect.
  rewrite for_from_frame.
  - apply for_from_frame. intros. now rewrite !draw_pixel_frame.
  - intros. now rewrite !draw_pixel_frame.
Qed.

Lemma fill_rect_frame s x1 y1 w h c :
  frame (fill_rect s x1 y1 w h c) = frame s.
Proof.
  unfold fill_rect. apply for_from_frame. intros.
  apply for_from_frame. intros. apply draw_pixel_frame.
Qed.

Lemma draw_square_frame s x y l c :
  frame (draw_square s x y l c) = frame s.
Proof. apply draw_rect_frame. Qed.

Lemma line_loop_x_frame fuel x2 ix iy dx dy c s x y e s' :
  line_loop_x fuel x2 ix iy dx dy c s x y e = Some s' -> frame s' = frame s.
Proof.
  revert s x y e. induction fuel as [|fuel IH]; intros s x y e; simpl.
  - destruct (x =? x2); [|discriminate].
    intros [= <-]. apply draw_pixel_frame.
  - destruct (x =? x2).
    + intros [= <-]. apply draw_pixel_frame.
    + destruct (line_step ix iy dx dy (x, y, e)) as [[x' y'] e'].
      intros H. apply IH in H. now rewrite H, draw_pixel_frame.
Qed.

Lemma line_loop_y_frame fuel y2 ix iy dx dy c s x y e s' :
  line_loop_y fuel y2 ix iy dx dy c s x y e = Some s' -> frame s' = frame s.
Proof.
  revert s x y e. induction fuel as [|fuel IH]; intros s x y e; simpl.
  - destruct (y =? y2); [|discriminate].
    intros [= <-]. apply draw_pixel_frame.
  - destruct (y =? y2).
    + intros [= <-]. apply draw_pixel_frame.
    + destruct (line_step iy ix dy dx (y, x, e)) as [[y' x'] e'].
      intros H. apply IH in H. now rewrite H, draw_pixel_frame.
Qed.

Lemma draw_line_frame s x1 y1 x2 y2 c :
  frame (draw_line s x1 y1 x2 y2 c) = frame s.
Proof.
  unfold draw_line.
  destruct (if x1 <=? x2 then _ else _) as [dx ix].
  destruct (if y1 <=? y2 then _ else _) as [dy iy].
  destruct (dx =? 0).
  { destruct (if iy <? 0 then _ else _) as [ya yb].
    apply for_from_frame. intros. apply draw_pixel_frame. }
  destruct (dy =? 0).
  { destruct (if ix <? 0 then _ else _) as [xa xb].
    apply for_from_frame. intros. apply draw_pixel_frame. }
  destruct (dy <=? dx).
  - destruct (line_loop_x _ _ _ _ _ _ _ _ _ _ _) as [s'|] eqn:E; simpl;
      [eapply line_loop_x_frame; eauto | reflexivity].
  - destruct (line_loop_y _ _ _ _ _ _ _ _ _ _ _) as [s'|] eqn:E; simpl;
      [eapply line_loop_y_frame; eauto | reflexivity].
Qed.

(** ** [draw_pixel] *)

(** C2.  [draw_pixel] stores the colour (as the byte it is converted to) at
    offset [(height_complement - y) * line_length + x] when [(x, y)] lies in
    the clip rectangle, and nothing else changes; outside the clip
    rectangle the surface is left as it is. *)
Theorem draw_pixel_clipped (s : surface) (x y c : Z) :
  (min_x s <= x <= max_x s /\ min_y s <= y <= max_y s ->
     ptr (draw_pixel s x y c) !! pixel_index s x y = Some (CInt.to_uchar c) /\
     (forall k, k <> pixel_index s x y ->
        ptr (draw_pixel s x y c) !! k = ptr s !! k) /\
     frame (draw_pixel s x y c) = frame s) /\
  (~ (min_x s <= x <= max_x s /\ min_y s <= y <= max_y s) ->
     draw_pixel s x y c = s) /\
  (CInt.is_int (height_complement s - y) ->
   CInt.is_int ((height_complement s - y) * line_length s) ->
   CInt.is_int ((height_complement s - y) * line_length s + x) ->
     pixel_index s x y = (height_complement s - y) * line_length s + x) /\
  (0 <= c <= 255 -> CInt.to_uchar c = c).
Proof.
  repeat split.
  - unfold draw_pixel. apply in_clip_spec in H. rewrite H. simpl.
    apply lookup_insert_eq.
  - intros k Hk. unfold draw_pixel. apply in_clip_spec in H. rewrite H.
    simpl. now apply lookup_insert_ne.
  - apply draw_pixel_frame.
  - intros H. unfold draw_pixel.
    destruct (in_clip s x y) eqn:E; [|reflexivity].
    apply in_clip_spec in E. contradiction.
  - intros H1 H2 H3. unfold pixel_index, CInt.add, CInt.mul, CInt.sub.
    now rewrite (wrap_id _ H1), (wrap_id _ H2), (wrap_id _ H3).
  - apply to_uchar_id.
Qed.

Lemma draw_pixel_clipped_witness :
  ptr (draw_pixel scenario 2 3 21) !! 79 = Some 21 /\
  draw_pixel scenario 11 3 21 = scenario.
Proof.
  destruct (draw_pixel_clipped scenario 2 3 21) as (Hin & _ & Hidx & Hc).
  destruct (draw_pixel_clipped scenario 11 3 21) as (_ & Hout & _).
  split.
  - destruct Hin as (Hw & _).
    + vm_compute. intuition discriminate.
    + rewrite Hidx in Hw by (vm_compute; intuition discriminate).
      rewrite Hc in Hw by lia. exact Hw.
  - apply Hout. vm_compute. intuition.
Defined.

(** ** Computations on a surface *)

Section SurfRules.
Context {X : Type} (g : surface -> X).

Lemma keeps_bind {A B} (m : Surf A) (f : A -> Surf B) :
  keeps g m -> (forall a, keeps g (f a)) -> keeps g (m ≫= f).
Proof.
  intros Hm Hf s. unfold mbind, Surf_bind.
  specialize (Hm s). destruct (m s) as [[a|e] s1]; simpl in *.
  - now rewrite Hf.
  - exact Hm.
Qed.

Lemma keeps_ret {A} (a : A) : keeps g (mret a : Surf A).
Proof. intros s. reflexivity. Qed.

Lemma keeps_lift {A} (r : res A) : keeps g (lift r).
Proof. intros s. reflexivity. Qed.

Lemma keeps_raise {A} (e : exn) : keeps g (raise e : Surf A).
Proof. intros s. reflexivity. Qed.

Lemma keeps_field {A} (f : surface -> A) : keeps g (field f).
Proof. intros s. reflexivity. Qed.

Lemma keeps_skip : keeps g skip.
Proof. intros s. reflexivity. Qed.

Lemma keeps_update (f : surface -> surface) :
  (forall s, g (f s) = g s) -> keeps g (update f).
Proof. intros H s. apply H. Qed.

Lemma keeps_when (b : bool) (m : Surf unit) : keeps g m -> keeps g (when b m).
Proof. intros H. destruct b; [exact H | apply keeps_skip]. Qed.

Lemma keeps_for_each {A} (l : list Z) (body : Z -> A -> Surf A) (a : A) :
  (forall i a, keeps g (body i a)) -> keeps g (for_each_surf l body a).
Proof.
  intros Hb. revert a. induction l as [|i l IH]; intros a; simpl.
  - apply keeps_ret.
  - apply keeps_bind; [apply Hb | apply IH].
Qed.

End SurfRules.

Lemma succeeds_bind {A B} (m : Surf A) (f : A -> Surf B) :
  succeeds m -> (forall a, succeeds (f a)) -> succeeds (m ≫= f).
Proof.
  intros Hm Hf s. unfold mbind, Surf_bind.
  destruct (Hm s) as [a Ha]. destruct (m s) as [r s1]. simpl in Ha.
  subst r. apply Hf.
Qed.

Lemma succeeds_ret {A} (a : A) : succeeds (mret a : Surf A).
Proof. intros s. now exists a. Qed.

Lemma succeeds_field {A} (f : surface -> A) : succeeds (field f).
Proof. intros s. now exists (f s). Qed.

Lemma succeeds_skip : succeeds skip.
Proof. intros s. now exists tt. Qed.

Lemma succeeds_update (f : surface -> surface) : succeeds (update f).
Proof. intros s. now exists tt. Qed.

Lemma succeeds_when (b : bool) (m : Surf unit) :
  succeeds m -> succeeds (when b m).
Proof. intros H. destruct b; [exact H | apply succeeds_skip]. Qed.

Lemma succeeds_lift {A} (r : res A) (a : A) : r = Ok a -> succeeds (lift r).
Proof. intros -> s. now exists a. Qed.

Lemma succeeds_for_each {A} (l : list Z) (body : Z -> A -> Surf A) (a : A) :
  (forall i a, i ∈ l -> succeeds (body i a)) ->
  succeeds (for_each_surf l body a).
Proof.
  revert a. induction l as [|i l IH]; intros a Hb; simpl.
  - apply succeeds_ret.
  - apply succeeds_bind.
    + apply Hb. left.
    + intros a'. apply IH. intros j b Hj. apply Hb. now right.
Qed.

Lemma get1_ok {A} (a : list A) (i : Z) :
  0 <= i < Z.of_nat (length a) -> exists v, get1 a i = Ok v.
Proof.
  intros H. unfold get1.
  destruct (0 <=? i) eqn:E; [|lia].
  destruct (lookup_lt_is_Some_2 a (Z.to_nat i)) as [v Hv]; [lia|].
  exists v. now rewrite Hv.
Qed.

(** ** [plot] and [bars] *)

Section PlotFacts.
Context (x_t y_t : ctype).

Lemma plot_body_keeps_frame (data_x : list x_t) (data_y : list y_t)
    lc sc marker i last :
  keeps frame (plot_body x_t y_t data_x data_y lc sc marker i last).
Proof.
  unfold plot_body. destruct last as [last_x last_y].
  repeat (first
     [ apply keeps_bind; [|intros ?]
     | apply keeps_lift | apply keeps_field | apply keeps_ret
     | apply keeps_when
     | apply keeps_update; intros ?;
         first [apply draw_line_frame | apply draw_square_frame] ]).
Qed.

Lemma plot_keeps_frame (data_x : list x_t) (data_y : list y_t) color_idx marker :
  keeps frame (plot x_t y_t data_x data_y color_idx marker).
Proof.
  unfold plot. destruct (negb _); [apply keeps_raise|].
  repeat (first
     [ apply keeps_bind; [|intros ?]
     | apply keeps_lift | apply keeps_field | apply keeps_skip
     | apply keeps_when
     | apply keeps_update; intros ?; apply draw_square_frame ]).
  destruct marker; apply keeps_for_each; intros; apply plot_body_keeps_frame.
Qed.

Lemma bars_keeps_frame (data_x : list x_t) (data_y : list y_t) color_idx width :
  keeps frame (bars x_t y_t data_x data_y color_idx width).
Proof.
  unfold bars. destruct (negb _); [apply keeps_raise|].
  apply keeps_bind; [apply keeps_field|]. intros y0.
  apply keeps_for_each. intros i []. unfold bars_body.
  repeat (first
     [ apply keeps_bind; [|intros ?]
     | apply keeps_lift | apply keeps_field | apply keeps_skip
     | apply keeps_when ]).
  destruct (_ =? _); apply keeps_update; intros ?;
    [apply draw_line_frame | apply fill_rect_frame].
Qed.

Lemma plot_body_succeeds (data_x : list x_t) (data_y : list y_t)
    lc sc marker i last :
  0 <= i < Z.of_nat (length data_x) ->
  0 <= i < Z.of_nat (length data_y) ->
  succeeds (plot_body x_t y_t data_x data_y lc sc marker i last).
Proof.
  intros Hx Hy. unfold plot_body. destruct last as [last_x last_y].
  destruct (get1_ok data_x i Hx) as [vx Ex].
  destruct (get1_ok data_y i Hy) as [vy Ey].
  repeat (first
     [ apply succeeds_bind; [|intros ?]
     | eapply succeeds_lift; eassumption
     | apply succeeds_field | apply succeeds_ret
     | apply succeeds_when | apply succeeds_update ]).
Qed.

End PlotFacts.

(** C3.  When the two arrays differ in length, [plot] and [bars] raise the
    [ValueError] and leave the surface, pixels and fields, as it was. *)
Theorem length_mismatch_raises (x_t y_t : ctype) (data_x : list x_t)
    (data_y : list y_t) (color_idx : Z) (marker : bool) (width : Z)
    (s : surface) :
  length data_x <> length data_y ->
  plot x_t y_t data_x data_y color_idx marker s
    = (Raise (ValueError "len(x) != len(y)"), s) /\
  bars x_t y_t data_x data_y color_idx width s
    = (Raise (ValueError "len(x) != len(y)"), s).
Proof.
  intros H. apply Nat.eqb_neq in H. unfold plot, bars. rewrite H.
  split; reflexivity.
Qed.

Lemma length_mismatch_raises_witness :
  plot c_int c_double [1; 2; 3] [Double.of_int 1] 0 true scenario
    = (Raise (ValueError "len(x) != len(y)"), scenario) /\
  bars c_int c_double [1; 2; 3] [Double.of_int 1] 0 3 scenario
    = (Raise (ValueError "len(x) != len(y)"), scenario).
Proof.
  apply (length_mismatch_raises c_int c_double [1; 2; 3] [Double.of_int 1]).
  simpl. lia.
Defined.

(** ** The geometry of a surface *)

Lemma set_geometry_result image ll ih (geometry : list Z) s s' :
  surface_set_geometry image ll ih geometry s = (Ok tt, s') ->
  exists g0 g1 g2 g3 rest,
    geometry = g0 :: g1 :: g2 :: g3 :: rest /\
    s' = set_limits g0 (CInt.add g0 g2) g1 (CInt.add g1 g3)
           (set_plot_height g3 (set_plot_width g2 (set_offset_y g1
             (set_offset_x g0 (set_image image ll (CInt.sub ih 1) s))))).
Proof.
  destruct geometry as [|g0 [|g1 [|g2 [|g3 rest]]]];
    cbv [surface_set_geometry mbind Surf_bind lift update get1 checked];
    simpl; try discriminate.
  intros [= <-]. now exists g0, g1, g2, g3, rest.
Qed.

(** C9.  A call of [surface_set_geometry] that ends leaves a surface whose
    clip rectangle is [offset_x, offset_x + plot_width] by
    [offset_y, offset_y + plot_height] (the sums are those of C [int]s, and
    the mathematical ones when these fit), and it ends on every geometry
    array of four elements; [surface_set_view], [surface_clear], [plot] and
    [bars] change none of the eight fields, so they keep the invariant. *)
Theorem geometry_invariant :
  (forall image ll ih (geometry : list Z) s s',
     surface_set_geometry image ll ih geometry s = (Ok tt, s') ->
     geometry_inv s' /\
     (CInt.is_int (offset_x s' + plot_width s') ->
        max_x s' = offset_x s' + plot_width s') /\
     (CInt.is_int (offset_y s' + plot_height s') ->
        max_y s' = offset_y s' + plot_height s')) /\
  (forall image ll ih (geometry : list Z) s,
     (4 <= length geometry)%nat ->
     (surface_set_geometry image ll ih geometry s).1 = Ok tt) /\
  (forall axes transform, keeps geometry_fields (surface_set_view axes transform)) /\
  keeps geometry_fields surface_clear /\
  (forall (x_t y_t : ctype) (data_x : list x_t) (data_y : list y_t) color_idx marker,
     keeps geometry_fields (plot x_t y_t data_x data_y color_idx marker)) /\
  (forall (x_t y_t : ctype) (data_x : list x_t) (data_y : list y_t) color_idx width,
     keeps geometry_fields (bars x_t y_t data_x data_y color_idx width)) /\
  (forall s s', geometry_fields s' = geometry_fields s ->
     geometry_inv s -> geometry_inv s').
Proof.
  repeat apply conj.
  - intros image ll ih geometry s s' H.
    apply set_geometry_result in H as (g0 & g1 & g2 & g3 & rest & _ & ->).
    simpl. unfold geometry_inv. simpl. repeat split.
    + intros H. unfold CInt.add. now rewrite wrap_id.
    + intros H. unfold CInt.add. now rewrite wrap_id.
  - intros image ll ih geometry s H.
    destruct geometry as [|g0 [|g1 [|g2 [|g3 rest]]]]; simpl in H; try lia.
    reflexivity.
  - intros axes transform. unfold surface_set_view.
    repeat (first
      [ apply keeps_bind; [|intros ?]
      | apply keeps_lift
      | apply keeps_update; intros ?; reflexivity ]).
  - apply keeps_update. intros s. reflexivity.
  - intros. intros s. apply frame_geometry. apply plot_keeps_frame.
  - intros. intros s. apply frame_geometry. apply bars_keeps_frame.
  - intros s s' H (H1 & H2 & H3 & H4). unfold geometry_fields in H.
    unfold geometry_inv. injection H as -> -> -> -> -> -> -> ->.
    auto.
Qed.

Lemma geometry_invariant_witness :
  geometry_inv
    (surface_set_geometry ∅ 11 11 [0; 0; 10; 10] scenario).2 /\
  max_x (surface_set_geometry ∅ 11 11 [0; 0; 10; 10] scenario).2 = 10 /\
  (surface_set_geometry ∅ 11 11 [0; 0; 10; 10] scenario).1 = Ok tt.
Proof.
  destruct geometry_invariant as (Hset & Hok & _).
  destruct (Hset ∅ 11 11 [0; 0; 10; 10] scenario
              (surface_set_geometry ∅ 11 11 [0; 0; 10; 10] scenario).2)
    as (Hinv & Hx & _).
  - reflexivity.
  - split; [exact Hinv|]. split.
    + rewrite Hx; [reflexivity|]. vm_compute. intuition discriminate.
    + apply Hok. simpl. lia.
Defined.

(** ** The unchecked first read of [plot] *)

(** C10.  [plot] reads element 0 of both arrays before its loop.  On two
    empty arrays that read is out of bounds; on two arrays of equal length
    with an element or more every read is in bounds and [plot] ends
    normally. *)
Theorem plot_reads_first_element :
  (forall (x_t : ctype), get1 (@nil x_t) 0 = Raise OutOfBounds) /\
  (forall (x_t y_t : ctype) color_idx marker s,
     plot x_t y_t [] [] color_idx marker s = (Raise OutOfBounds, s)) /\
  (forall (x_t y_t : ctype) (data_x : list x_t) (data_y : list y_t)
          color_idx marker s,
     length data_x = length data_y -> data_x <> [] ->
     (plot x_t y_t data_x data_y color_idx marker s).1 = Ok tt).
Proof.
  repeat apply conj.
  - reflexivity.
  - reflexivity.
  - intros x_t y_t data_x data_y color_idx marker s Hlen Hne.
    assert (Hs : succeeds (plot x_t y_t data_x data_y color_idx marker)).
    { unfold plot. rewrite (proj2 (Nat.eqb_eq _ _) Hlen). simpl.
      assert (Hpos : 0 < Z.of_nat (length data_x))
        by (destruct data_x; [congruence | simpl; lia]).
      destruct (get1_ok data_x 0) as [vx Ex]; [lia|].
      destruct (get1_ok data_y 0) as [vy Ey]; [lia|].
      assert (Hloop : forall m last_x last_y,
        succeeds (for_range_surf 1 (CInt.wrap (Z.of_nat (length data_y)))
          (plot_body x_t y_t data_x data_y
             (CInt.add (CInt.mul (CInt.add color_idx 1) 10) 1)
             (CInt.add (CInt.add (CInt.mul (CInt.add color_idx 1) 10) 1) 1) m)
          (last_x, last_y))).
      { intros m lx ly. apply succeeds_for_each. intros i a Hi.
        apply elem_of_seqZ in Hi.
        pose proof (wrap_nonneg_le (Z.of_nat (length data_y))).
        apply plot_body_succeeds; lia. }
      repeat (first
        [ apply succeeds_bind; [|intros ?]
        | eapply succeeds_lift; eassumption
        | apply succeeds_field | apply succeeds_skip
        | apply succeeds_when | apply succeeds_update ]).
      destruct marker; apply Hloop. }
    destruct (Hs s) as [[] H]. exact H.
Qed.

Lemma plot_reads_first_element_witness :
  (plot c_int c_int [0; 5] [0; 5] 0 false scenario).1 = Ok tt.
Proof.
  destruct plot_reads_first_element as (_ & _ & H).
  apply H; [reflexivity | discriminate].
Defined.

(** ** Loops and arrays *)

Lemma for_each_app {S} (l1 l2 : list Z) (body : Z -> S -> res S) (s : S) :
  for_each (l1 ++ l2) body s = s' ← for_each l1 body s; for_each l2 body s'.
Proof.
  revert s. induction l1 as [|i l1 IH]; intros s; simpl; [reflexivity|].
  destruct (body i s) as [s1|e]; simpl; [apply IH | reflexivity].
Qed.

(** Total correctness of a counted loop: an invariant that every turn
    re-establishes without failing holds at the end. *)
Lemma for_each_seqZ_inv {T} (I : Z -> T -> Prop) (n : nat) (a : Z)
    (body : Z -> T -> res T) (s : T) :
  I a s ->
  (forall i s, a <= i < a + Z.of_nat n -> I i s ->
     exists s', body i s = Ok s' /\ I (i + 1) s') ->
  exists s', for_each (seqZ a (Z.of_nat n)) body s = Ok s' /\
             I (a + Z.of_nat n) s'.
Proof.
  revert a s. induction n as [|n IH]; intros a s H0 Hstep.
  - exists s. simpl. split; [reflexivity|]. now rewrite Z.add_0_r.
  - rewrite seqZ_cons by lia. simpl.
    destruct (Hstep a s) as (s1 & E1 & H1); [lia | exact H0 |].
    rewrite E1. simpl.
    replace (Z.pred (Z.of_nat (S n))) with (Z.of_nat n) by lia.
    destruct (IH (Z.succ a) s1) as (s2 & E2 & H2).
    + now replace (Z.succ a) with (a + 1) by lia.
    + intros i s' Hi. apply Hstep. lia.
    + exists s2. split; [exact E2|].
      now replace (a + Z.of_nat (S n)) with (Z.succ a + Z.of_nat n) by lia.
Qed.

Lemma for_range_inv {S} (I : Z -> S -> Prop) (a b : Z)
    (body : Z -> S -> res S) (s : S) :
  a <= b -> I a s ->
  (forall i s, a <= i < b -> I i s -> exists s', body i s = Ok s' /\ I (i + 1) s') ->
  exists s', for_range a b body s = Ok s' /\ I b s'.
Proof.
  intros Hab H0 Hstep. unfold for_range.
  destruct (for_each_seqZ_inv I (Z.to_nat (b - a)) a body s H0)
    as (s' & E & H).
  - intros i t Hi. apply Hstep. lia.
  - exists s'. rewrite Z2Nat.id in E, H by lia.
    split; [exact E|]. now replace (a + (b - a)) with b in H by lia.
Qed.

(** Partial correctness: what every successful turn keeps holds of the
    result of a loop that ends. *)
Lemma for_each_post {S} (I : S -> Prop) (l : list Z)
    (body : Z -> S -> res S) (s s' : S) :
  I s ->
  (forall i s s', i ∈ l -> I s -> body i s = Ok s' -> I s') ->
  for_each l body s = Ok s' -> I s'.
Proof.
  revert s. induction l as [|i l IH]; intros s H0 Hstep; simpl.
  - now intros [= <-].
  - destruct (body i s) as [s1|e] eqn:E; simpl; [|discriminate].
    apply IH.
    + eapply Hstep; [left | exact H0 | exact E].
    + intros j t t' Hj. apply Hstep. now right.
Qed.

(** The same for a counted loop, with an invariant that follows the
    counter. *)
Lemma for_each_seqZ_post {T} (I : Z -> T -> Prop) (n : nat) (a : Z)
    (body : Z -> T -> res T) (s s' : T) :
  I a s ->
  (forall i t t', a <= i < a + Z.of_nat n -> I i t -> body i t = Ok t' ->
     I (i + 1) t') ->
  for_each (seqZ a (Z.of_nat n)) body s = Ok s' -> I (a + Z.of_nat n) s'.
Proof.
  revert a s. induction n as [|n IH]; intros a s H0 Hstep.
  - simpl. intros [= <-]. now rewrite Z.add_0_r.
  - rewrite seqZ_cons by lia. simpl.
    destruct (body a s) as [s1|e] eqn:E1; simpl; [|discriminate].
    replace (Z.pred (Z.of_nat (S n))) with (Z.of_nat n) by lia.
    intros E2.
    replace (a + Z.of_nat (S n)) with (Z.succ a + Z.of_nat n) by lia.
    apply (IH (Z.succ a) s1); [| |exact E2].
    + replace (Z.succ a) with (a + 1) by lia.
      apply (Hstep a s s1); [lia | exact H0 | exact E1].
    + intros i t t' Hi. apply Hstep. lia.
Qed.

Lemma for_range_post {T} (I : Z -> T -> Prop) (a b : Z)
    (body : Z -> T -> res T) (s s' : T) :
  a <= b -> I a s ->
  (forall i t t', a <= i < b -> I i t -> body i t = Ok t' -> I (i + 1) t') ->
  for_range a b body s = Ok s' -> I b s'.
Proof.
  intros Hab H0 Hstep E. unfold for_range in E.
  rewrite <- (Z2Nat.id (b - a)) in E by lia.
  apply (for_each_seqZ_post I _ a body s s' H0) in E.
  - rewrite Z2Nat.id in E by lia. now replace (a + (b - a)) with b in E by lia.
  - intros i t t' Hi. apply Hstep. lia.
Qed.

Lemma for_range_empty {S} (a b : Z) (body : Z -> S -> res S) (s : S) :
  b <= a -> for_range a b body s = Ok s.
Proof. intros H. unfold for_range. now rewrite seqZ_nil by lia. Qed.

Lemma get1_Ok {A} (a : list A) (i : Z) (v : A) :
  get1 a i = Ok v <-> 0 <= i /\ a !! Z.to_nat i = Some v.
Proof.
  unfold get1. destruct (0 <=? i) eqn:E.
  - apply Z.leb_le in E. destruct (a !! Z.to_nat i) as [w|]; simpl.
    + split; [intros [= ->]; auto | intros [_ [= ->]]; reflexivity].
    + split; [discriminate | intros [_ [=]]].
  - apply Z.leb_gt in E. simpl. split; [discriminate | lia].
Qed.

Lemma get1_bounds {A} (a : list A) (i : Z) (v : A) :
  get1 a i = Ok v -> 0 <= i < Z.of_nat (length a).
Proof.
  intros H. apply get1_Ok in H as [H0 H]. apply lookup_lt_Some in H. lia.
Qed.

Lemma get1_set1_eq {A} (a : list A) (i : Z) (v : A) :
  0 <= i < Z.of_nat (length a) ->
  get1 (<[Z.to_nat i := v]> a) i = Ok v.
Proof.
  intros H. apply get1_Ok. split; [lia|].
  apply list_lookup_insert_eq. lia.
Qed.

Lemma get1_set1_ne {A} (a : list A) (i j : Z) (v : A) :
  0 <= i -> i <> j ->
  get1 (<[Z.to_nat i := v]> a) j = get1 a j.
Proof.
  intros Hi Hne. unfold get1. destruct (0 <=? j) eqn:E; [|reflexivity].
  apply Z.leb_le in E. rewrite list_lookup_insert_ne by lia. reflexivity.
Qed.

(** A store in a cell that exists succeeds, sets that cell and no other. *)
Lemma set2_cell {A} (a : array2 A) (i j : Z) (v0 v : A) :
  get2 a i j = Ok v0 ->
  exists a', set2 a i j v = Ok a' /\
    get2 a' i j = Ok v /\
    (forall i' j', (i', j') <> (i, j) -> get2 a' i' j' = get2 a i' j').
Proof.
  unfold get2, set2. intros H.
  destruct (get1 a i) as [row|e] eqn:Er; simpl in *; [|discriminate].
  pose proof (get1_bounds _ _ _ Er) as Hi.
  pose proof (get1_bounds _ _ _ H) as Hj.
  unfold set1 at 2.
  destruct ((0 <=? j) && (j <? Z.of_nat (length row))) eqn:Ej; [|lia].
  simpl. unfold set1.
  destruct ((0 <=? i) && (i <? Z.of_nat (length a))) eqn:Ei; [|lia].
  eexists. split; [reflexivity|]. split.
  - rewrite get1_set1_eq by lia. simpl. apply get1_set1_eq. lia.
  - intros i' j' Hne. destruct (Z.eq_dec i' i) as [->|Hii].
    + rewrite get1_set1_eq by lia. rewrite Er. simpl.
      apply get1_set1_ne; [lia|]. congruence.
    + rewrite get1_set1_ne by lia. reflexivity.
Qed.

(** A store that has succeeded has set its cell and no other. *)
Lemma set2_Ok {A} (a a' : array2 A) (i j : Z) (v : A) :
  set2 a i j v = Ok a' ->
  get2 a' i j = Ok v /\
  (forall i' j', (i', j') <> (i, j) -> get2 a' i' j' = get2 a i' j').
Proof.
  intros E.
  assert (Hold : exists v0, get2 a i j = Ok v0).
  { unfold set2, get2 in *.
    destruct (get1 a i) as [row|e]; simpl in *; [|discriminate].
    unfold set1 at 2 in E.
    destruct ((0 <=? j) && (j <? Z.of_nat (length row))) eqn:Ej;
      [|discriminate].
    apply get1_ok. lia. }
  destruct Hold as [v0 Ev0].
  destruct (set2_cell a i j v0 v Ev0) as (a'' & E' & H1 & H2).
  rewrite E in E'. injection E' as <-. now split.
Qed.

(** ** [add_pixel] *)

(** C8.  The value that [add_pixel] returns is never below
    [prev_max_value], so the maxima of chained calls never decrease; with
    no position the call returns [prev_max_value] and the matrix and the
    image as they were; and the call ends whenever every position is a
    cell of the matrix. *)
Theorem add_pixel_max_monotone :
  (forall mtx0 pos size_x size_y img0 prev h,
     add_pixel mtx0 pos size_x size_y img0 prev = Ok h ->
     prev <= max_value h) /\
  (forall mtx0 pos1 pos2 size_x size_y img0 prev h1 h2,
     add_pixel mtx0 pos1 size_x size_y img0 prev = Ok h1 ->
     add_pixel (mtx h1) pos2 size_x size_y (img h1) (max_value h1) = Ok h2 ->
     prev <= max_value h1 <= max_value h2) /\
  (forall mtx0 size_x size_y img0 prev,
     add_pixel mtx0 [] size_x size_y img0 prev
     = Ok {| mtx := mtx0; img := img0; max_value := prev |}) /\
  (forall mtx0 pos size_x size_y img0 prev,
     hits_in_range mtx0 pos ->
     exists h, add_pixel mtx0 pos size_x size_y img0 prev = Ok h).
Proof.
  assert (Hmono : forall mtx0 pos size_x size_y img0 prev h,
     add_pixel mtx0 pos size_x size_y img0 prev = Ok h ->
     prev <= max_value h).
  { intros mtx0 pos size_x size_y img0 prev h H.
    unfold add_pixel, for_range in H.
    eapply (for_each_post (fun h => prev <= max_value h)) in H;
      [exact H | cbn [max_value]; lia |].
    intros i t t' _ Ht E.
    destruct (get2 pos i 0) as [x|]; cbn [mbind res_bind] in E; [|discriminate].
    destruct (get2 pos i 1) as [y|]; cbn [mbind res_bind] in E; [|discriminate].
    destruct (get2 (mtx t) y x) as [m|]; cbn [mbind res_bind] in E; [|discriminate].
    destruct (set2 (mtx t) y x (CInt.add m 1)) as [mtx'|]; cbn [mbind res_bind] in E;
      [|discriminate].
    destruct (get2 mtx' y x) as [m'|]; cbn [mbind res_bind] in E; [|discriminate].
    injection E as <-. cbn [max_value]. lia. }
  repeat apply conj.
  - exact Hmono.
  - intros mtx0 pos1 pos2 size_x size_y img0 prev h1 h2 H1 H2.
    split; eapply Hmono; eassumption.
  - reflexivity.
  - intros mtx0 pos size_x size_y img0 prev Hpos.
    unfold add_pixel.
    destruct (for_range_inv
      (fun (_ : Z) (h : hits) =>
         forall y x m, get2 mtx0 y x = Ok m -> exists m', get2 (mtx h) y x = Ok m')
      0 (shape0 pos)
      (fun i h =>
         x ← get2 pos i 0;
         y ← get2 pos i 1;
         m ← get2 (mtx h) y x;
         mtx' ← set2 (mtx h) y x (CInt.add m 1);
         m' ← get2 mtx' y x;
         Ok {| mtx := mtx';
               img := <[CInt.add (CInt.mul (CInt.sub (CInt.sub size_y 1) y) size_x) x
                        := scaled m']> (img h);
               max_value := Z.max (scaled m') (max_value h) |})
      {| mtx := mtx0; img := img0; max_value := prev |})
      as (h & Hh & _).
    + unfold shape0. lia.
    + cbn [mtx]. eauto.
    + intros i h Hi Hinv.
      destruct (Hpos i Hi) as (x & y & Ex & Ey & m0 & Em0).
      rewrite Ex, Ey. cbn [mbind res_bind].
      destruct (Hinv y x m0 Em0) as [m Em]. rewrite Em. cbn [mbind res_bind].
      destruct (set2_cell (mtx h) y x m (CInt.add m 1) Em)
        as (mtx' & Es & Eg & Hother).
      rewrite Es. cbn [mbind res_bind]. rewrite Eg. cbn [mbind res_bind].
      eexists. split; [reflexivity|]. cbn [mtx].
      intros y' x' m' Em'.
      destruct (decide ((y', x') = (y, x))) as [[= -> ->]|Hne].
      * eauto.
      * rewrite Hother by exact Hne. eapply Hinv; eauto.
    + exists h. exact Hh.
Qed.

Lemma add_pixel_max_monotone_witness :
  exists h, add_pixel [[0; 0]; [0; 0]] [[0; 1]; [0; 1]; [1; 1]] 2 2 ∅ 0 = Ok h
            /\ 0 <= max_value h.
Proof.
  destruct add_pixel_max_monotone as (Hmono & _ & _ & Hends).
  destruct (Hends [[0; 0]; [0; 0]] [[0; 1]; [0; 1]; [1; 1]] 2 2 ∅ 0)
    as [h Hh].
  - intros i Hi.
    assert (i = 0 \/ i = 1 \/ i = 2) as [->|[->| ->]]
      by (unfold shape0 in Hi; simpl in Hi; lia);
      vm_compute; eauto 10.
  - exists h. split; [exact Hh|]. eapply Hmono; exact Hh.
Defined.

(** * Rounding in binary64 *)

Lemma digits2_bounds (p : positive) :
  2 ^ (Zpos (digits2_pos p) - 1) <= Zpos p < 2 ^ Zpos (digits2_pos p).
Proof.
  induction p as [p IH|p IH|]; simpl digits2_pos.
  - rewrite Pos2Z.inj_succ. replace (Z.succ (Zpos (digits2_pos p)) - 1)
      with (Z.succ (Zpos (digits2_pos p) - 1)) by lia.
    rewrite !Z.pow_succ_r by lia. lia.
  - rewrite Pos2Z.inj_succ. replace (Z.succ (Zpos (digits2_pos p)) - 1)
      with (Z.succ (Zpos (digits2_pos p) - 1)) by lia.
    rewrite !Z.pow_succ_r by lia. lia.
  - simpl. lia.
Qed.

Lemma digits2_unique (p : positive) (d : Z) :
  2 ^ (d - 1) <= Zpos p < 2 ^ d -> Zpos (digits2_pos p) = d.
Proof.
  intros H. pose proof (digits2_bounds p) as Hp.
  assert (Hd : 0 < d).
  { destruct (Z_lt_le_dec 0 d) as [|Hle]; [assumption|].
    assert (2 ^ d <= 1).
    { destruct (Z.eq_dec d 0) as [->|]; [simpl; lia|].
      rewrite Z.pow_neg_r by lia. lia. }
    lia. }
  destruct (Z_lt_le_dec (Zpos (digits2_pos p)) d) as [Hlt|Hge].
  - assert (2 ^ Zpos (digits2_pos p) <= 2 ^ (d - 1))
      by (apply Z.pow_le_mono_r; lia). lia.
  - destruct (Z_lt_le_dec d (Zpos (digits2_pos p))) as [Hlt|Hle]; [|lia].
    assert (2 ^ d <= 2 ^ (Zpos (digits2_pos p) - 1))
      by (apply Z.pow_le_mono_r; lia). lia.
Qed.

Lemma shr_1_m (r : shr_record) :
  0 <= shr_m r -> shr_m (shr_1 r) = shr_m r / 2.
Proof.
  destruct r as [m rd st]. simpl. intros H.
  rewrite <- Z.div2_div.
  destruct m as [|[p|p|]|p]; try reflexivity; lia.
Qed.

Lemma shr_1_nonneg (r : shr_record) : 0 <= shr_m r -> 0 <= shr_m (shr_1 r).
Proof.
  intros H. rewrite shr_1_m by exact H. apply Z.div_pos; lia.
Qed.

Lemma pow2_xO (p : positive) : 2 ^ Zpos p~0 = 2 ^ Zpos p * 2 ^ Zpos p.
Proof. rewrite (Pos2Z.inj_xO p). apply Z.pow_twice_r. Qed.

Lemma pow2_xI (p : positive) : 2 ^ Zpos p~1 = 2 * (2 ^ Zpos p * 2 ^ Zpos p).
Proof.
  rewrite (Pos2Z.inj_xI p). change (2 * Zpos p + 1) with (Z.succ (2 * Zpos p)).
  rewrite Z.pow_succ_r by lia. now rewrite Z.pow_twice_r.
Qed.

Lemma iter_shr_1_m (p : positive) (r : shr_record) :
  0 <= shr_m r ->
  shr_m (SpecFloat.iter_pos shr_1 p r) = shr_m r / 2 ^ Zpos p.
Proof.
  revert r. induction p as [p IH|p IH|]; intros r H.
  - simpl SpecFloat.iter_pos.
    assert (Hp : 0 < 2 ^ Zpos p) by (apply Z.pow_pos_nonneg; lia).
    assert (H1 : 0 <= shr_m (shr_1 r)) by now apply shr_1_nonneg.
    assert (H2 : 0 <= shr_m (SpecFloat.iter_pos shr_1 p (shr_1 r))).
    { rewrite IH by exact H1. apply Z.div_pos; lia. }
    rewrite IH by exact H2. rewrite IH by exact H1. rewrite shr_1_m by exact H.
    rewrite pow2_xI. rewrite !Z.div_div by lia. reflexivity.
  - simpl SpecFloat.iter_pos.
    assert (Hp : 0 < 2 ^ Zpos p) by (apply Z.pow_pos_nonneg; lia).
    assert (H2 : 0 <= shr_m (SpecFloat.iter_pos shr_1 p r)).
    { rewrite IH by exact H. apply Z.div_pos; lia. }
    rewrite IH by exact H2. rewrite IH by exact H.
    rewrite pow2_xO. rewrite !Z.div_div by lia. reflexivity.
  - simpl SpecFloat.iter_pos. now rewrite shr_1_m.
Qed.

Lemma shr_record_of_loc_m m l : shr_m (shr_record_of_loc m l) = m.
Proof. destruct l as [|[| |]]; reflexivity. Qed.

Lemma loc_of_shr_record_of_loc m l :
  loc_of_shr_record (shr_record_of_loc m l) = l.
Proof. destruct l as [|[| |]]; reflexivity. Qed.

Lemma round_nearest_even_bounds m l :
  m <= round_nearest_even m l <= m + 1.
Proof.
  destruct l as [|[| |]]; simpl; try lia. destruct (Z.even m); lia.
Qed.

(** shifting by [shr]. *)
Lemma shr_spec (r : shr_record) (e n : Z) :
  0 <= shr_m r ->
  (n <= 0 -> shr r e n = (r, e)) /\
  (0 < n -> shr_m (fst (shr r e n)) = shr_m r / 2 ^ n /\
            snd (shr r e n) = e + n).
Proof.
  intros H. split; intros Hn.
  - destruct n; try reflexivity. lia.
  - destruct n as [|p|p]; try lia. simpl. split; [|reflexivity].
    now apply iter_shr_1_m.
Qed.

Lemma fexp_normal (E : Z) : -1021 <= E -> fexp 53 1024 E = E - 53.
Proof. intros H. unfold fexp, emin. lia. Qed.

Lemma Zdigits2_bounds (m : Z) :
  0 < m -> 0 < Zdigits2 m /\ 2 ^ (Zdigits2 m - 1) <= m < 2 ^ Zdigits2 m.
Proof.
  destruct m as [|p|p]; try lia. intros _. simpl Zdigits2.
  split; [lia | apply digits2_bounds].
Qed.

Lemma Zdigits2_unique (m d : Z) :
  0 < m -> 2 ^ (d - 1) <= m < 2 ^ d -> Zdigits2 m = d.
Proof.
  destruct m as [|p|p]; try lia. intros _. simpl Zdigits2.
  apply digits2_unique.
Qed.

Lemma pow2_pos (k : Z) : 0 <= k -> 0 < 2 ^ k.
Proof. intros H. apply Z.pow_pos_nonneg; lia. Qed.

(** The shift of [shr_fexp], in the range of the normal numbers. *)
Lemma shr_fexp_normal (m e : Z) (l : location) :
  0 < m -> -1021 <= Zdigits2 m + e ->
  exists r,
    shr_fexp 53 1024 m e l = (r, e + Z.max 0 (Zdigits2 m - 53)) /\
    shr_m r = m / 2 ^ Z.max 0 (Zdigits2 m - 53) /\
    (Zdigits2 m <= 53 -> r = shr_record_of_loc m l).
Proof.
  intros Hm Hn. unfold shr_fexp. rewrite fexp_normal by exact Hn.
  replace (Zdigits2 m + e - 53 - e) with (Zdigits2 m - 53) by lia.
  destruct (shr_spec (shr_record_of_loc m l) e (Zdigits2 m - 53))
    as [H0 H1]; [rewrite shr_record_of_loc_m; lia|].
  destruct (Z_le_gt_dec (Zdigits2 m - 53) 0) as [Hle|Hgt].
  - rewrite Z.max_l by lia. rewrite H0 by lia.
    exists (shr_record_of_loc m l). rewrite Z.add_0_r.
    split; [reflexivity|]. split; [|reflexivity].
    rewrite shr_record_of_loc_m. simpl. now rewrite Z.div_1_r.
  - rewrite Z.max_r by lia. destruct H1 as [H1 H2]; [lia|].
    destruct (shr (shr_record_of_loc m l) e (Zdigits2 m - 53)) as [r e'].
    simpl in *. subst e'. exists r. split; [reflexivity|].
    split; [|lia]. now rewrite H1, shr_record_of_loc_m.
Qed.

(** The result of rounding to nearest, when it is a normal number: it is
    at most the rounded value plus one part in [2 ^ 52]. *)
Lemma binary_round_aux_bound (mx ex : Z) (lx : location) :
  0 < mx ->
  -1021 <= Zdigits2 mx + ex -> Zdigits2 mx + ex <= 1000 -> ex <= 900 ->
  lx = loc_Exact \/ 2 ^ 52 <= mx ->
  exists m e,
    binary_round_aux 53 1024 false mx ex lx = S754_finite false m e /\
    ex <= e <= ex + Z.max 0 (Zdigits2 mx - 53) + 1 /\
    Zpos m * 2 ^ (e - ex) * 2 ^ 52 <= mx * (2 ^ 52 + 1) /\
    (53 <= Zdigits2 mx -> 2 ^ 52 <= Zpos m < 2 ^ 53) /\
    mx < (Zpos m + 1) * 2 ^ (e - ex).
Proof.
  intros Hmx Hn Ho Hex Hl.
  destruct (Zdigits2_bounds mx Hmx) as [Hd0 Hd].
  set (d := Zdigits2 mx) in *.
  set (k1 := Z.max 0 (d - 53)).
  destruct (shr_fexp_normal mx ex lx Hmx Hn) as (r1 & E1 & Hm1 & Hr1).
  fold d in E1, Hm1, Hr1. fold k1 in E1, Hm1.
  unfold binary_round_aux. rewrite E1.
  set (m1 := shr_m r1) in *.
  assert (HP1 : 0 < 2 ^ k1) by (apply pow2_pos; lia).
  assert (Hfl1 : m1 * 2 ^ k1 <= mx < m1 * 2 ^ k1 + 2 ^ k1).
  { rewrite Hm1.
    pose proof (Z.mul_div_le mx (2 ^ k1) HP1).
    pose proof (Z.mul_succ_div_gt mx (2 ^ k1) HP1). lia. }
  (* the size of m1 *)
  assert (Hm1b : 0 < m1 < 2 ^ 53 /\ (53 <= d -> 2 ^ 52 <= m1)).
  { destruct (Z_le_gt_dec d 53) as [Hle|Hgt].
    - assert (k1 = 0) by lia.
      assert (E : m1 = mx) by (rewrite Hm1; replace k1 with 0 by lia;
                               simpl; now rewrite Z.div_1_r).
      assert (2 ^ d <= 2 ^ 53) by (apply Z.pow_le_mono_r; lia).
      split; [lia|]. intros H53. assert (d = 53) by lia.
      replace d with 53 in Hd by lia. simpl in Hd. lia.
    - assert (Ek : k1 = d - 53) by lia.
      assert (E52 : 2 ^ (d - 1) = 2 ^ 52 * 2 ^ k1).
      { rewrite <- Z.pow_add_r by lia. f_equal. lia. }
      assert (E53 : 2 ^ d = 2 ^ 53 * 2 ^ k1).
      { rewrite <- Z.pow_add_r by lia. f_equal. lia. }
      assert (2 ^ 52 <= m1) by nia.
      assert (m1 < 2 ^ 53) by nia.
      lia. }
  set (m2 := round_nearest_even m1 (loc_of_shr_record r1)).
  pose proof (round_nearest_even_bounds m1 (loc_of_shr_record r1)) as Hm2.
  fold m2 in Hm2.
  assert (Hm2pos : 0 < m2) by lia.
  destruct (Zdigits2_bounds m2 Hm2pos) as [Hd20 Hd2].
  set (d2 := Zdigits2 m2) in *.
  assert (Hd2le : d2 <= 54).
  { destruct (Z_le_gt_dec d2 54) as [|Hgt]; [assumption|].
    assert (2 ^ 54 <= 2 ^ (d2 - 1)) by (apply Z.pow_le_mono_r; lia).
    change (2 ^ 54) with (2 * 2 ^ 53) in *. lia. }
  assert (Hd2ge : 53 <= d -> 53 <= d2).
  { intros H53. destruct (Z_le_gt_dec 53 d2) as [|Hlt]; [assumption|].
    assert (2 ^ d2 <= 2 ^ 52) by (apply Z.pow_le_mono_r; lia).
    destruct Hm1b as [_ Hge]. specialize (Hge H53). lia. }
  (* the second shift *)
  assert (Hn2 : -1021 <= d2 + (ex + k1)).
  { destruct (Z_le_gt_dec d 53) as [Hle|Hgt].
    - assert (k1 = 0) by lia.
      assert (d <= d2).
      { destruct (Z_le_gt_dec d d2) as [|Hlt]; [assumption|].
        assert (2 ^ d2 <= 2 ^ (d - 1)) by (apply Z.pow_le_mono_r; lia).
        assert (m1 = mx) by (rewrite Hm1; replace k1 with 0 by lia;
                             simpl; now rewrite Z.div_1_r).
        lia. }
      lia.
    - assert (53 <= d2) by (apply Hd2ge; lia). lia. }
  destruct (shr_fexp_normal m2 (ex + k1) loc_Exact Hm2pos Hn2)
    as (r2 & E2 & Hm3 & Hr2).
  fold d2 in E2, Hm3, Hr2.
  set (k2 := Z.max 0 (d2 - 53)) in *.
  rewrite E2.
  set (m3 := shr_m r2) in *.
  assert (HP2 : 0 < 2 ^ k2) by (apply pow2_pos; lia).
  assert (Hfl2 : m3 * 2 ^ k2 <= m2 < m3 * 2 ^ k2 + 2 ^ k2).
  { rewrite Hm3.
    pose proof (Z.mul_div_le m2 (2 ^ k2) HP2).
    pose proof (Z.mul_succ_div_gt m2 (2 ^ k2) HP2). lia. }
  assert (Hk2 : k2 = 0 \/ (k2 = 1 /\ d2 = 54)) by lia.
  assert (Hm3b : 0 < m3 /\ (53 <= d -> 2 ^ 52 <= m3 < 2 ^ 53)).
  { destruct Hk2 as [Hk|[Hk Hd54]].
    - rewrite Hk in Hfl2. simpl in Hfl2.
      split; [lia|]. intros H53. specialize (Hd2ge H53).
      assert (d2 = 53) by lia.
      replace d2 with 53 in Hd2 by lia. simpl in Hd2.
      change (2 ^ 53) with 9007199254740992 in *.
      change (2 ^ 52) with 4503599627370496. lia.
    - rewrite Hk in Hfl2. rewrite Hd54 in Hd2. simpl in Hd2.
      change (2 ^ 1) with 2 in Hfl2.
      change (2 ^ 53) with 9007199254740992 in *.
      change (2 ^ 52) with 4503599627370496. lia. }
  destruct Hm3b as [Hm3pos Hm3n].
  destruct m3 as [|p3|p3] eqn:Ep3; try lia.
  assert (Hexp : (ex + k1 + k2 <=? 1024 - 53) = true).
  { apply Z.leb_le. lia. }
  rewrite Hexp. exists p3, (ex + k1 + k2).
  split; [reflexivity|]. split; [lia|].
  replace (ex + k1 + k2 - ex) with (k1 + k2) by lia.
  rewrite Z.pow_add_r by lia.
  split; [|split; [exact Hm3n|]]; cycle 1.
  { (* from below: nothing but the bits shifted out is lost *)
    apply Z.lt_le_trans with ((m1 + 1) * 2 ^ k1); [lia|].
    rewrite (Z.mul_comm (2 ^ k1) (2 ^ k2)), Z.mul_assoc.
    apply Z.mul_le_mono_nonneg_r; lia. }
  (* from above *)
  assert (Hcase : (m2 = mx /\ k1 = 0) \/ 2 ^ 52 <= m1).
  { destruct (Z_le_gt_dec d 53) as [Hle|Hgt].
    - destruct Hl as [-> | Hge].
      + left. assert (k1 = 0) by lia. split; [|assumption].
        unfold m2. rewrite (Hr1 Hle). rewrite loc_of_shr_record_of_loc.
        simpl. unfold m1. rewrite (Hr1 Hle). apply shr_record_of_loc_m.
      + right. assert (m1 = mx) by (rewrite Hm1; replace k1 with 0 by lia;
                                    simpl; now rewrite Z.div_1_r).
        lia.
    - right. apply Hm1b. lia. }
  assert (A1 : Z.pos p3 * 2 ^ k2 * 2 ^ k1 <= m2 * 2 ^ k1)
    by (apply Z.mul_le_mono_nonneg_r; lia).
  change (2 ^ 52) with 4503599627370496 in *.
  destruct Hcase as [[Em2 Ek1]|Hge].
  - rewrite Ek1 in *. simpl (2 ^ 0) in *. lia.
  - assert (A2 : m2 * 2 ^ k1 <= (m1 + 1) * 2 ^ k1)
      by (apply Z.mul_le_mono_nonneg_r; lia).
    assert (A3 : 4503599627370496 * 2 ^ k1 <= m1 * 2 ^ k1)
      by (apply Z.mul_le_mono_nonneg_r; lia).
    lia.
Qed.

Lemma Zdigits2_le (m k : Z) : 0 < m -> m < 2 ^ k -> Zdigits2 m <= k.
Proof.
  intros Hm Hk. destruct (Zdigits2_bounds m Hm) as [Hd0 Hd].
  destruct (Z_le_gt_dec (Zdigits2 m) k) as [|Hgt]; [assumption|].
  assert (2 ^ k <= 2 ^ (Zdigits2 m - 1)) by (apply Z.pow_le_mono_r; lia).
  lia.
Qed.

Lemma Zdigits2_ge (m k : Z) : 0 < m -> 2 ^ (k - 1) <= m -> k <= Zdigits2 m.
Proof.
  intros Hm Hk. destruct (Zdigits2_bounds m Hm) as [Hd0 Hd].
  destruct (Z_le_gt_dec k (Zdigits2 m)) as [|Hgt]; [assumption|].
  assert (2 ^ Zdigits2 m <= 2 ^ (k - 1)) by (apply Z.pow_le_mono_r; lia).
  lia.
Qed.

(** Rounding a number that is representable gives that number. *)
Lemma binary_round_aux_exact (m : positive) (e : Z) :
  Zpos (digits2_pos m) = 53 -> -1074 <= e <= 971 ->
  binary_round_aux 53 1024 false (Zpos m) e loc_Exact = S754_finite false m e.
Proof.
  intros Hd He.
  assert (Hs : shr_fexp 53 1024 (Zpos m) e loc_Exact
               = (shr_record_of_loc (Zpos m) loc_Exact, e)).
  { destruct (shr_fexp_normal (Zpos m) e loc_Exact) as (r & E & _ & Hr);
      [lia | simpl Zdigits2; lia |].
    simpl Zdigits2 in *. rewrite Hd in *. simpl in E.
    rewrite Z.add_0_r in E. rewrite E. f_equal. apply Hr. lia. }
  unfold binary_round_aux. rewrite Hs. simpl shr_m. simpl loc_of_shr_record.
  simpl round_nearest_even. rewrite Hs. simpl shr_m.
  destruct (Z.leb_spec e (1024 - 53)); [reflexivity | lia].
Qed.

Lemma iter_xO (p k : positive) :
  Zpos (Pos.iter xO p k) = Zpos p * 2 ^ Zpos k.
Proof.
  induction k as [|k IH] using Pos.peano_ind.
  - simpl. lia.
  - rewrite Pos.iter_succ, Pos2Z.inj_xO, IH.
    rewrite (Pos2Z.inj_succ k), Z.pow_succ_r by lia. lia.
Qed.

Lemma shl_align_spec (mx : positive) (ex ex' : Z) :
  snd (shl_align mx ex ex') = Z.min ex ex' /\
  Zpos (fst (shl_align mx ex ex')) = Zpos mx * 2 ^ (ex - Z.min ex ex').
Proof.
  unfold shl_align. destruct (ex' - ex) as [|d|d] eqn:E; simpl.
  - rewrite Z.min_l by lia. rewrite Z.sub_diag. simpl. lia.
  - rewrite Z.min_l by lia. rewrite Z.sub_diag. simpl. lia.
  - rewrite Z.min_r by lia. split; [reflexivity|].
    rewrite iter_xO. replace (ex - ex') with (Zpos d) by lia. reflexivity.
Qed.

Lemma pow2_split (a b : Z) : 0 <= a -> 0 <= b -> 2 ^ (a + b) = 2 ^ a * 2 ^ b.
Proof. intros. now apply Z.pow_add_r. Qed.

Lemma fp_val_shift (m : positive) (e e0 : Z) :
  -400 <= e0 <= e -> fp_val m e = Zpos m * 2 ^ (e - e0) * 2 ^ (e0 + 400).
Proof.
  intros H. unfold fp_val. rewrite <- Z.mul_assoc. f_equal.
  rewrite <- pow2_split by lia. f_equal. lia.
Qed.

(** [<double>z] for a positive integer below [2 ^ 53] is exact. *)
Lemma of_int_normal (z : Z) :
  1 <= z < 2 ^ 53 ->
  exists m e, Double.of_int z = S754_finite false m e /\
    2 ^ 52 <= Zpos m < 2 ^ 53 /\ -52 <= e <= 0 /\
    fp_val m e = z * fp_unit.
Proof.
  intros Hz. destruct z as [|p|p]; try lia.
  pose proof (digits2_bounds p) as Hd.
  set (d := Zpos (digits2_pos p)) in *.
  assert (Hd53 : 1 <= d <= 53).
  { split; [unfold d; lia|].
    apply (Zdigits2_le (Zpos p) 53); lia. }
  unfold Double.of_int, binary_normalize, binary_round. fold d.
  rewrite Z.add_0_r. rewrite fexp_normal by lia.
  destruct (shl_align_spec p 0 (d - 53)) as [Hez Hmz].
  destruct (shl_align p 0 (d - 53)) as [mz ez]. cbn [fst snd] in Hez, Hmz.
  rewrite Z.min_r in Hez, Hmz by lia. subst ez.
  replace (0 - (d - 53)) with (53 - d) in Hmz by lia.
  assert (E52 : 2 ^ 52 = 2 ^ (d - 1) * 2 ^ (53 - d)).
  { rewrite <- pow2_split by lia. f_equal. lia. }
  assert (E53 : 2 ^ 53 = 2 ^ d * 2 ^ (53 - d)).
  { rewrite <- pow2_split by lia. f_equal. lia. }
  assert (HP : 0 < 2 ^ (53 - d)) by (apply pow2_pos; lia).
  assert (Hmzb : 2 ^ 52 <= Zpos mz < 2 ^ 53).
  { rewrite Hmz, E52, E53. split.
    - apply Z.mul_le_mono_nonneg_r; lia.
    - apply Z.mul_lt_mono_pos_r; lia. }
  rewrite binary_round_aux_exact.
  - exists mz, (d - 53). split; [reflexivity|]. split; [exact Hmzb|].
    split; [lia|]. unfold fp_val, fp_unit. rewrite Hmz.
    rewrite <- Z.mul_assoc. f_equal. rewrite <- pow2_split by lia.
    f_equal. lia.
  - apply digits2_unique. exact Hmzb.
  - lia.
Qed.

(** The product of two normal doubles of moderate size. *)
Lemma mul_bound (m1 m2 : positive) (e1 e2 : Z) :
  2 ^ 52 <= Zpos m1 < 2 ^ 53 -> 2 ^ 52 <= Zpos m2 < 2 ^ 53 ->
  -100 <= e1 <= 100 -> -100 <= e2 <= 100 ->
  exists m e,
    Double.mul (S754_finite false m1 e1) (S754_finite false m2 e2)
    = S754_finite false m e /\
    2 ^ 52 <= Zpos m < 2 ^ 53 /\ e1 + e2 <= e <= e1 + e2 + 54 /\
    fp_val m e * 2 ^ 52 * fp_unit
    <= fp_val m1 e1 * fp_val m2 e2 * (2 ^ 52 + 1).
Proof.
  intros H1 H2 He1 He2.
  unfold Double.mul, SFmul. simpl xorb.
  change (2 ^ 53) with (2 * 2 ^ 52) in *.
  assert (Hlo : 2 ^ 104 <= Zpos (m1 * m2)).
  { rewrite Pos2Z.inj_mul. change (2 ^ 104) with (2 ^ 52 * 2 ^ 52).
    apply Z.mul_le_mono_nonneg; lia. }
  assert (Hhi : Zpos (m1 * m2) < 2 ^ 106).
  { rewrite Pos2Z.inj_mul. change (2 ^ 106) with ((2 * 2 ^ 52) * (2 * 2 ^ 52)).
    apply Z.mul_lt_mono_nonneg; lia. }
  assert (Hd : 105 <= Zdigits2 (Zpos (m1 * m2)) <= 106).
  { split; [apply Zdigits2_ge | apply Zdigits2_le]; try lia. }
  destruct (binary_round_aux_bound (Zpos (m1 * m2)) (e1 + e2) loc_Exact)
    as (m & e & E & He & Hb & Hn & _); try lia; try (now left).
  exists m, e. split; [exact E|].
  split; [change (2 ^ 53) with (2 * 2 ^ 52) in Hn; apply Hn; lia|].
  split; [lia|].
  rewrite (fp_val_shift m e (e1 + e2)) by lia.
  unfold fp_val, fp_unit.
  assert (Ep : 2 ^ (e1 + 400) * 2 ^ (e2 + 400) = 2 ^ (e1 + e2 + 400) * 2 ^ 400).
  { rewrite <- !pow2_split by lia. f_equal. lia. }
  rewrite Pos2Z.inj_mul in Hb.
  assert (HP : 0 <= 2 ^ (e1 + e2 + 400) * 2 ^ 400).
  { apply Z.mul_nonneg_nonneg; apply Z.pow_nonneg; lia. }
  replace (Zpos m * 2 ^ (e - (e1 + e2)) * 2 ^ (e1 + e2 + 400) * 2 ^ 52 * 2 ^ 400)
    with (Zpos m * 2 ^ (e - (e1 + e2)) * 2 ^ 52
          * (2 ^ (e1 + e2 + 400) * 2 ^ 400)) by ring.
  replace (Zpos m1 * 2 ^ (e1 + 400) * (Zpos m2 * 2 ^ (e2 + 400)) * (2 ^ 52 + 1))
    with (Zpos m1 * Zpos m2 * (2 ^ 52 + 1)
          * (2 ^ (e1 + 400) * 2 ^ (e2 + 400))) by ring.
  rewrite Ep. apply Z.mul_le_mono_nonneg_r; [exact HP | exact Hb].
Qed.

(** Rounding a positive integer mantissa of moderate size. *)
Lemma binary_round_bound (p : positive) (e : Z) :
  Zpos p < 2 ^ 230 -> -150 <= e <= 150 ->
  exists m e',
    binary_round 53 1024 false p e = S754_finite false m e' /\
    e - 53 <= e' <= e + 240 /\
    fp_val m e' * 2 ^ 52 <= fp_val p e * (2 ^ 52 + 1).
Proof.
  intros Hp He. unfold binary_round.
  pose proof (digits2_bounds p) as Hd.
  set (d := Zpos (digits2_pos p)) in *.
  assert (Hd230 : 1 <= d <= 230).
  { split; [unfold d; lia|]. apply (Zdigits2_le (Zpos p) 230); lia. }
  rewrite fexp_normal by lia.
  destruct (shl_align_spec p e (d + e - 53)) as [Hez Hmz].
  destruct (shl_align p e (d + e - 53)) as [mz ez]. cbn [fst snd] in Hez, Hmz.
  assert (Hsh : 0 <= e - ez <= 52) by lia.
  rewrite <- Hez in Hmz.
  assert (Hmzlt : Zpos mz < 2 ^ 282).
  { rewrite Hmz. change (2 ^ 282) with (2 ^ 230 * 2 ^ 52).
    assert (2 ^ (e - ez) <= 2 ^ 52) by (apply Z.pow_le_mono_r; lia).
    assert (0 < 2 ^ (e - ez)) by (apply pow2_pos; lia).
    apply Z.le_lt_trans with (Zpos p * 2 ^ 52).
    - apply Z.mul_le_mono_nonneg_l; lia.
    - apply Z.mul_lt_mono_pos_r; lia. }
  assert (Hdz : 1 <= Zdigits2 (Zpos mz) <= 282).
  { split; [simpl; lia|]. apply Zdigits2_le; lia. }
  destruct (binary_round_aux_bound (Zpos mz) ez loc_Exact)
    as (m & e' & E & He' & Hb & _); try lia; try (now left).
  exists m, e'. split; [exact E|]. split; [lia|].
  rewrite (fp_val_shift m e' ez) by lia.
  rewrite (fp_val_shift p e ez) by lia. rewrite <- Hmz.
  assert (HP : 0 <= 2 ^ (ez + 400)) by (apply Z.pow_nonneg; lia).
  replace (Zpos m * 2 ^ (e' - ez) * 2 ^ (ez + 400) * 2 ^ 52)
    with (Zpos m * 2 ^ (e' - ez) * 2 ^ 52 * 2 ^ (ez + 400)) by ring.
  replace (Zpos mz * 2 ^ (ez + 400) * (2 ^ 52 + 1))
    with (Zpos mz * (2 ^ 52 + 1) * 2 ^ (ez + 400)) by ring.
  apply Z.mul_le_mono_nonneg_r; [exact HP | exact Hb].
Qed.

(** The sum of two positive doubles of moderate size. *)
Lemma add_bound (m1 m2 : positive) (e1 e2 : Z) :
  Zpos m1 < 2 ^ 53 -> Zpos m2 < 2 ^ 53 ->
  -110 <= e1 <= 60 -> -110 <= e2 <= 60 ->
  exists m e,
    Double.add (S754_finite false m1 e1) (S754_finite false m2 e2)
    = S754_finite false m e /\
    -400 <= e /\
    fp_val m e * 2 ^ 52 <= (fp_val m1 e1 + fp_val m2 e2) * (2 ^ 52 + 1).
Proof.
  intros H1 H2 He1 He2. unfold Double.add, SFadd.
  set (ez := Z.min e1 e2).
  destruct (shl_align_spec m1 e1 ez) as [_ Ha].
  destruct (shl_align_spec m2 e2 ez) as [_ Hb].
  rewrite Z.min_r in Ha, Hb by (unfold ez; lia).
  set (a := fst (shl_align m1 e1 ez)) in *.
  set (b := fst (shl_align m2 e2 ez)) in *.
  cbn [cond_Zopp Z.add binary_normalize].
  assert (Hab : Zpos (a + b) < 2 ^ 230).
  { rewrite Pos2Z.inj_add, Ha, Hb.
    assert (0 <= e1 - ez <= 170) by (unfold ez; lia).
    assert (0 <= e2 - ez <= 170) by (unfold ez; lia).
    assert (2 ^ (e1 - ez) <= 2 ^ 170) by (apply Z.pow_le_mono_r; lia).
    assert (2 ^ (e2 - ez) <= 2 ^ 170) by (apply Z.pow_le_mono_r; lia).
    assert (0 < 2 ^ (e1 - ez)) by (apply pow2_pos; lia).
    assert (0 < 2 ^ (e2 - ez)) by (apply pow2_pos; lia).
    assert (Zpos m1 * 2 ^ (e1 - ez) < 2 ^ 53 * 2 ^ 170).
    { apply Z.le_lt_trans with (Zpos m1 * 2 ^ 170).
      - apply Z.mul_le_mono_nonneg_l; lia.
      - apply Z.mul_lt_mono_pos_r; lia. }
    assert (Zpos m2 * 2 ^ (e2 - ez) < 2 ^ 53 * 2 ^ 170).
    { apply Z.le_lt_trans with (Zpos m2 * 2 ^ 170).
      - apply Z.mul_le_mono_nonneg_l; lia.
      - apply Z.mul_lt_mono_pos_r; lia. }
    change (2 ^ 53 * 2 ^ 170) with (2 ^ 223) in *.
    change (2 ^ 230) with (2 ^ 223 * 128). lia. }
  destruct (binary_round_bound (a + b) ez Hab) as (m & e & E & He & Hv);
    [unfold ez; lia|].
  exists m, e. split; [exact E|]. split; [unfold ez in *; lia|].
  assert (Es : fp_val (a + b) ez = fp_val m1 e1 + fp_val m2 e2).
  { rewrite (fp_val_shift m1 e1 ez), (fp_val_shift m2 e2 ez)
      by (unfold ez; lia).
    unfold fp_val. rewrite Pos2Z.inj_add, Ha, Hb. ring. }
  rewrite <- Es. exact Hv.
Qed.

(** The quotient of two normal doubles of moderate size. *)
Lemma div_bound (m1 m2 : positive) (e1 e2 : Z) :
  2 ^ 52 <= Zpos m1 < 2 ^ 53 -> 2 ^ 52 <= Zpos m2 < 2 ^ 53 ->
  -100 <= e1 <= 100 -> -100 <= e2 <= 100 ->
  exists m e,
    Double.div (S754_finite false m1 e1) (S754_finite false m2 e2)
    = S754_finite false m e /\
    -400 <= e /\
    fp_val m e * fp_val m2 e2 * 2 ^ 52
    <= fp_val m1 e1 * fp_unit * (2 ^ 52 + 1) /\
    fp_val m1 e1 * fp_unit * 2 ^ 52
    < fp_val m e * fp_val m2 e2 * (2 ^ 52 + 1).
Proof.
  intros H1 H2 He1 He2.
  unfold Double.div, SFdiv, SFdiv_core_binary. cbn [xorb Zdigits2].
  rewrite (digits2_unique m1 53), (digits2_unique m2 53) by assumption.
  replace (53 + e1 - (53 + e2)) with (e1 - e2) by lia.
  rewrite fexp_normal by lia.
  rewrite Z.min_l by lia.
  replace (e1 - e2 - (e1 - e2 - 53)) with 53 by lia.
  cbv iota. rewrite Z.shiftl_mul_pow2 by lia.
  pose proof (Z_div_mod (Zpos m1 * 2 ^ 53) (Zpos m2) ltac:(lia)) as Hdiv.
  destruct (Z.div_eucl (Zpos m1 * 2 ^ 53) (Zpos m2)) as [q r].
  destruct Hdiv as [Hq Hr].
  assert (Hqlo : Zpos m1 <= q).
  { destruct (Z_le_gt_dec (Zpos m1) q) as [|Hgt]; [assumption|].
    assert (Zpos m2 * (q + 1) <= Zpos m2 * Zpos m1)
      by (apply Z.mul_le_mono_nonneg_l; lia).
    assert (Zpos m2 * Zpos m1 < 2 ^ 53 * Zpos m1)
      by (apply Z.mul_lt_mono_pos_r; lia).
    lia. }
  assert (Hqhi : q < 2 ^ 54).
  { destruct (Z_lt_le_dec q (2 ^ 54)) as [|Hge]; [assumption|].
    assert (2 ^ 52 * 2 ^ 54 <= Zpos m2 * q)
      by (apply Z.mul_le_mono_nonneg; lia).
    assert (Zpos m1 * 2 ^ 53 < 2 ^ 53 * 2 ^ 53)
      by (apply Z.mul_lt_mono_pos_r; lia).
    change (2 ^ 52 * 2 ^ 54) with (2 ^ 53 * 2 ^ 53) in *. lia. }
  assert (Hdq : 1 <= Zdigits2 q <= 54).
  { split; [apply Zdigits2_ge | apply Zdigits2_le]; simpl; lia. }
  destruct (binary_round_aux_bound q (e1 - e2 - 53) (new_location (Zpos m2) r))
    as (m & e & E & He & Hb & Hn & Hlow); try lia.
  exists m, e. split; [exact E|]. split; [lia|].
  rewrite (fp_val_shift m e (e1 - e2 - 53)) by lia.
  unfold fp_val, fp_unit.
  set (t := Zpos m * 2 ^ (e - (e1 - e2 - 53))) in *.
  assert (Ep : 2 ^ 53 * (2 ^ (e1 - e2 - 53 + 400) * 2 ^ (e2 + 400))
               = 2 ^ (e1 + 400) * 2 ^ 400).
  { rewrite <- !pow2_split by lia. f_equal. lia. }
  set (w := 2 ^ (e1 - e2 - 53 + 400) * 2 ^ (e2 + 400)) in *.
  assert (Hw : 0 < w).
  { apply Z.mul_pos_pos; apply pow2_pos; lia. }
  replace (t * 2 ^ (e1 - e2 - 53 + 400) * (Zpos m2 * 2 ^ (e2 + 400)) * 2 ^ 52)
    with (t * 2 ^ 52 * Zpos m2 * w) by (unfold w; ring).
  replace (Zpos m1 * 2 ^ (e1 + 400) * 2 ^ 400 * (2 ^ 52 + 1))
    with (Zpos m1 * 2 ^ 53 * (2 ^ 52 + 1) * w)
    by (transitivity (Zpos m1 * (2 ^ 52 + 1) * (2 ^ 53 * w));
        [ring | rewrite Ep; ring]).
  replace (Zpos m1 * 2 ^ (e1 + 400) * 2 ^ 400 * 2 ^ 52)
    with (Zpos m1 * 2 ^ 53 * 2 ^ 52 * w)
    by (transitivity (Zpos m1 * 2 ^ 52 * (2 ^ 53 * w));
        [ring | rewrite Ep; ring]).
  replace (t * 2 ^ (e1 - e2 - 53 + 400) * (Zpos m2 * 2 ^ (e2 + 400))
           * (2 ^ 52 + 1))
    with (t * (2 ^ 52 + 1) * Zpos m2 * w) by (unfold w; ring).
  split.
  - apply Z.mul_le_mono_nonneg_r; [lia|].
    apply Z.le_trans with (q * (2 ^ 52 + 1) * Zpos m2).
    + apply Z.mul_le_mono_nonneg_r; [lia | exact Hb].
    + rewrite Hq.
      replace (q * (2 ^ 52 + 1) * Zpos m2) with (Zpos m2 * q * (2 ^ 52 + 1))
        by ring.
      apply Z.mul_le_mono_nonneg_r; lia.
  - apply Z.mul_lt_mono_pos_r; [exact Hw|].
    (* q + 1 <= t + 2 ^ (e - e'), and 2 ^ (e - e') <= t / 2 ^ 52 *)
    specialize (Hn ltac:(apply Zdigits2_ge; simpl; lia)).
    set (u := 2 ^ (e - (e1 - e2 - 53))) in *.
    assert (Hu : 0 < u) by (apply pow2_pos; lia).
    assert (Htu : 2 ^ 52 * u <= t)
      by (unfold t; apply Z.mul_le_mono_nonneg_r; lia).
    assert (Hq1 : q + 1 <= t + u) by (unfold t in *; lia).
    assert (Hm2q : Zpos m1 * 2 ^ 53 < Zpos m2 * (q + 1)) by lia.
    assert (Zpos m2 * (q + 1) <= Zpos m2 * (t + u))
      by (apply Z.mul_le_mono_nonneg_l; lia).
    assert (Zpos m2 * (t + u) * 2 ^ 52 <= Zpos m2 * (t * (2 ^ 52 + 1))).
    { rewrite <- Z.mul_assoc. apply Z.mul_le_mono_nonneg_l; lia. }
    assert (Zpos m1 * 2 ^ 53 * 2 ^ 52 < Zpos m2 * (t + u) * 2 ^ 52)
      by (apply Z.mul_lt_mono_pos_r; lia).
    replace (t * (2 ^ 52 + 1) * Zpos m2) with (Zpos m2 * (t * (2 ^ 52 + 1)))
      by ring.
    lia.
Qed.

(** ** [<int>] of a positive double *)

Lemma shiftl_fp_val (m : positive) (e : Z) :
  -400 <= e -> Z.shiftl (Zpos m) e = fp_val m e / fp_unit.
Proof.
  intros He. unfold fp_val, fp_unit.
  destruct (Z_le_gt_dec 0 e) as [H|H].
  - rewrite Z.shiftl_mul_pow2 by lia. rewrite pow2_split by lia.
    rewrite Z.mul_assoc. symmetry. apply Z.div_mul.
    apply Z.pow_nonzero; lia.
  - rewrite Z.shiftl_div_pow2 by lia.
    replace (2 ^ 400) with (2 ^ (- e) * 2 ^ (e + 400)).
    + symmetry. apply Z.div_mul_cancel_r; apply Z.pow_nonzero; lia.
    + rewrite <- pow2_split by lia. f_equal. lia.
Qed.

Lemma to_int_lt (m : positive) (e L : Z) :
  -400 <= e -> fp_val m e < L * fp_unit -> L <= 2 ^ 31 ->
  0 <= Double.to_int (S754_finite false m e) < L.
Proof.
  intros He Hv HL. unfold Double.to_int, Double.trunc.
  rewrite shiftl_fp_val by exact He.
  assert (HU : 0 < fp_unit) by (apply pow2_pos; lia).
  assert (H0 : 0 <= fp_val m e).
  { unfold fp_val. apply Z.mul_nonneg_nonneg; [lia|].
    apply Z.pow_nonneg; lia. }
  assert (Hq0 : 0 <= fp_val m e / fp_unit) by (apply Z.div_pos; lia).
  assert (Hq1 : fp_val m e / fp_unit < L).
  { apply Z.div_lt_upper_bound; [exact HU|]. lia. }
  unfold CInt.int_min, CInt.int_max.
  destruct (- 2 ^ 31 <=? fp_val m e / fp_unit) eqn:E1;
    destruct (fp_val m e / fp_unit <=? 2 ^ 31 - 1) eqn:E2; simpl; lia.
Qed.

Lemma to_int_le (m : positive) (e : Z) :
  -400 <= e -> 1 <= Double.to_int (S754_finite false m e) ->
  Double.to_int (S754_finite false m e) * fp_unit <= fp_val m e.
Proof.
  intros He. unfold Double.to_int, Double.trunc.
  rewrite shiftl_fp_val by exact He.
  assert (HU : 0 < fp_unit) by (apply pow2_pos; lia).
  pose proof (Z.mul_div_le (fp_val m e) fp_unit HU) as Hle.
  unfold CInt.int_min, CInt.int_max.
  destruct (- 2 ^ 31 <=? fp_val m e / fp_unit) eqn:E1;
    destruct (fp_val m e / fp_unit <=? 2 ^ 31 - 1) eqn:E2; simpl; lia.
Qed.

(** A double whose integer part is a positive [int] is a normal number
    between [1] and [2 ^ 31]. *)
Lemma to_int_positive (d : double) :
  is_double d -> 1 <= Double.to_int d ->
  exists m e, d = S754_finite false m e /\
    2 ^ 52 <= Zpos m < 2 ^ 53 /\ -52 <= e <= -1.
Proof.
  intros Hv Hi. destruct d as [s|s| |s m e].
  - change (Double.to_int (S754_zero s)) with 0 in Hi. lia.
  - change (Double.to_int (S754_infinity s)) with (- 2 ^ 31) in Hi. lia.
  - change (Double.to_int S754_nan) with (- 2 ^ 31) in Hi. lia.
  - assert (Hsh : 0 <= Z.shiftl (Zpos m) e).
    { apply Z.shiftl_nonneg. lia. }
    unfold Double.to_int, Double.trunc, CInt.int_min, CInt.int_max in Hi.
    destruct s.
    { destruct (- 2 ^ 31 <=? - Z.shiftl (Zpos m) e);
        destruct (- Z.shiftl (Zpos m) e <=? 2 ^ 31 - 1); simpl in Hi; lia. }
    assert (Ht : 1 <= Z.shiftl (Zpos m) e <= 2 ^ 31 - 1).
    { destruct (- 2 ^ 31 <=? Z.shiftl (Zpos m) e) eqn:E1;
        destruct (Z.shiftl (Zpos m) e <=? 2 ^ 31 - 1) eqn:E2; simpl in Hi; lia. }
    clear Hi Hsh.
    unfold is_double, valid_binary, bounded, canonical_mantissa,
      Double.prec, Double.emax in Hv.
    apply andb_true_iff in Hv as [Hc _]. apply Z.eqb_eq in Hc.
    unfold fexp, emin in Hc.
    pose proof (digits2_bounds m) as Hd.
    set (d := Zpos (digits2_pos m)) in *.
    assert (Hd0 : 1 <= d) by (unfold d; lia).
    destruct (Z_le_gt_dec 0 e) as [He|He].
    + (* a nonnegative exponent: the mantissa itself is below [2 ^ 31] *)
      rewrite Z.shiftl_mul_pow2 in Ht by lia.
      assert (0 < 2 ^ e) by (apply pow2_pos; lia).
      assert (Zpos m <= Zpos m * 2 ^ e) by nia.
      assert (d <= 31).
      { apply (Zdigits2_le (Zpos m) 31); lia. }
      lia.
    + rewrite Z.shiftl_div_pow2 in Ht by lia.
      assert (HP : 0 < 2 ^ (- e)) by (apply pow2_pos; lia).
      assert (Hlo : 2 ^ (- e) <= Zpos m).
      { destruct (Z_le_gt_dec (2 ^ (- e)) (Zpos m)) as [|Hgt]; [assumption|].
        rewrite Z.div_small in Ht by lia. lia. }
      assert (Hde : - e < d).
      { apply (Z.pow_lt_mono_r_iff 2); lia. }
      assert (Hd53 : d = 53) by lia.
      rewrite Hd53 in Hd.
      exists m, e. split; [reflexivity|]. split; [exact Hd|]. lia.
Qed.

(** The arithmetic behind the bound on the indices read: with a relative
    rounding error of at most [1 / E] in each of the three operations, an
    index computed from [i < L / d] and [j < d] stays below [L]. *)
Lemma reads_chain (U d q p r i j L E : Z) :
  0 < U -> 0 < E -> 0 < d -> 0 <= i -> 0 <= j -> 1 <= L ->
  L * (3 * E * E + 3 * E + 1) < E * E * E + E * E ->
  q * d * E <= L * U * U * (E + 1) ->
  (i + 1) * U <= q ->
  p * E * U <= i * U * d * (E + 1) ->
  (j + 1) * U <= d ->
  r * E <= (p + j * U) * (E + 1) ->
  r < L * U.
Proof.
  intros HU HE Hd Hi Hj HL Hsmall Hq Hiq Hp Hjd Hr.
  assert (A : (i + 1) * d * E <= L * U * (E + 1)).
  { apply (Z.mul_le_mono_pos_l _ _ U HU).
    apply Z.le_trans with (q * d * E); [|lia].
    replace (U * ((i + 1) * d * E)) with ((i + 1) * U * (d * E)) by ring.
    replace (q * d * E) with (q * (d * E)) by ring.
    apply Z.mul_le_mono_nonneg_r; [|exact Hiq].
    apply Z.mul_nonneg_nonneg; lia. }
  assert (B : p * E <= i * d * (E + 1)).
  { apply (Z.mul_le_mono_pos_l _ _ U HU). lia. }
  assert (C0 : (j + 1) * U * E <= d * E)
    by (apply Z.mul_le_mono_nonneg_r; lia).
  assert (C1 : p * E + j * U * E <= (i + 1) * d * (E + 1) - U * E) by lia.
  assert (C2 : (p * E + j * U * E) * E
               <= L * U * (E + 1) * (E + 1) - U * E * E).
  { apply Z.le_trans with (((i + 1) * d * (E + 1) - U * E) * E).
    - apply Z.mul_le_mono_nonneg_r; lia.
    - assert ((i + 1) * d * E * (E + 1) <= L * U * (E + 1) * (E + 1))
        by (apply Z.mul_le_mono_nonneg_r; lia).
      lia. }
  assert (C3 : r * E * (E * E)
               <= (L * U * (E + 1) * (E + 1) - U * E * E) * (E + 1)).
  { apply Z.le_trans with ((p + j * U) * (E + 1) * (E * E)).
    - apply Z.mul_le_mono_nonneg_r; [|exact Hr].
      apply Z.mul_nonneg_nonneg; lia.
    - replace ((p + j * U) * (E + 1) * (E * E))
        with ((p * E + j * U * E) * E * (E + 1)) by ring.
      apply Z.mul_le_mono_nonneg_r; lia. }
  assert (C4 : U * (L * (E + 1) * (E + 1) * (E + 1) - E * E * (E + 1))
               < U * (L * (E * E * E))).
  { apply Z.mul_lt_mono_pos_l; [exact HU|]. lia. }
  assert (HE3 : 0 < E * (E * E)).
  { apply Z.mul_pos_pos; [|apply Z.mul_pos_pos]; lia. }
  apply (Z.mul_lt_mono_pos_r (E * (E * E))); [exact HE3|].
  apply Z.le_lt_trans
    with ((L * U * (E + 1) * (E + 1) - U * E * E) * (E + 1)); [lia|].
  replace ((L * U * (E + 1) * (E + 1) - U * E * E) * (E + 1))
    with (U * (L * (E + 1) * (E + 1) * (E + 1) - E * E * (E + 1))) by ring.
  replace (L * U * (E * (E * E))) with (U * (L * (E * E * E))) by ring.
  exact C4.
Qed.

(** ** The indices read by [stack] and [separate] *)

Lemma fp_val_nonneg (m : positive) (e : Z) : 0 <= fp_val m e.
Proof.
  unfold fp_val. apply Z.mul_nonneg_nonneg; [lia|]. apply Z.pow_nonneg; lia.
Qed.

(** The sum of a product [p] and a column number [j], in either order. *)
Lemma add_of_int (mp : positive) (ep j : Z) :
  Zpos mp < 2 ^ 53 -> -110 <= ep <= 60 -> 0 <= j < 2 ^ 31 ->
  exists m e,
    Double.add (S754_finite false mp ep) (Double.of_int j)
    = S754_finite false m e /\
    Double.add (Double.of_int j) (S754_finite false mp ep)
    = S754_finite false m e /\
    -400 <= e /\
    fp_val m e * 2 ^ 52 <= (fp_val mp ep + j * fp_unit) * (2 ^ 52 + 1).
Proof.
  intros Hp He Hj. destruct (Z.eq_dec j 0) as [->|Hne].
  - exists mp, ep. split; [reflexivity|]. split; [reflexivity|].
    split; [lia|]. pose proof (fp_val_nonneg mp ep). lia.
  - destruct (of_int_normal j) as (mj & ej & Ej & Hmj & Hej & Hvj).
    { change (2 ^ 53) with (2 ^ 31 * 4194304). lia. }
    rewrite Ej.
    destruct (add_bound mp mj ep ej) as (m & e & E & Hee & Hb); try lia.
    exists m, e. split; [exact E|]. split.
    + rewrite <- E. unfold Double.add, SFadd.
      rewrite (Z.min_comm ej ep), Z.add_comm. reflexivity.
    + split; [exact Hee|]. rewrite <- Hvj. exact Hb.
Qed.

Lemma index_in_range (L i j : Z) (D : double) :
  is_double D ->
  1 <= L <= CInt.int_max ->
  0 <= i < Double.to_int (Double.div (Double.of_int L) D) ->
  0 <= j < Z.min L (Double.to_int D) ->
  0 <= Double.to_int (Double.add (Double.mul (Double.of_int i) D)
                                 (Double.of_int j)) < L /\
  0 <= Double.to_int (Double.add (Double.of_int j)
                                 (Double.mul (Double.of_int i) D)) < L.
Proof.
  intros Hv HL Hi Hj. unfold CInt.int_max in HL.
  destruct (to_int_positive D Hv ltac:(lia)) as (mD & eD & -> & HmD & HeD).
  assert (HU : 0 < fp_unit) by (apply pow2_pos; lia).
  assert (H31 : 2 ^ 31 * 4194304 = 2 ^ 53) by reflexivity.
  (* the column number is below the integer part of [D] *)
  assert (Hjd : (j + 1) * fp_unit <= fp_val mD eD).
  { pose proof (to_int_le mD eD ltac:(lia) ltac:(lia)) as Hle.
    apply Z.le_trans with (Double.to_int (S754_finite false mD eD) * fp_unit);
      [|exact Hle].
    apply Z.mul_le_mono_nonneg_r; lia. }
  destruct (Z.eq_dec i 0) as [->|Hi0].
  - (* the first part starts at [0.0] *)
    change (Double.mul (Double.of_int 0) (S754_finite false mD eD))
      with (S754_zero false).
    destruct (Z.eq_dec j 0) as [->|Hj0].
    + change (Double.to_int (Double.add (S754_zero false) (Double.of_int 0)))
        with 0.
      change (Double.to_int (Double.add (Double.of_int 0) (S754_zero false)))
        with 0.
      lia.
    + destruct (of_int_normal j) as (mj & ej & Ej & Hmj & Hej & Hvj); [lia|].
      rewrite Ej.
      change (Double.add (S754_zero false) (S754_finite false mj ej))
        with (S754_finite false mj ej).
      change (Double.add (S754_finite false mj ej) (S754_zero false))
        with (S754_finite false mj ej).
      assert (Hlt : fp_val mj ej < L * fp_unit).
      { rewrite Hvj. apply Z.mul_lt_mono_pos_r; lia. }
      pose proof (to_int_lt mj ej L ltac:(lia) Hlt ltac:(lia)). lia.
  - (* the number of parts and the product *)
    destruct (of_int_normal L) as (mL & eL & EL & HmL & HeL & HvL); [lia|].
    rewrite EL in Hi.
    destruct (div_bound mL mD eL eD) as (mq & eq & Eq & Heq & Hq & _);
      try lia.
    rewrite Eq in Hi. rewrite HvL in Hq.
    pose proof (to_int_le mq eq Heq ltac:(lia)) as Hqi.
    assert (Hiq : (i + 1) * fp_unit <= fp_val mq eq).
    { apply Z.le_trans with (Double.to_int (S754_finite false mq eq) * fp_unit);
        [|exact Hqi].
      apply Z.mul_le_mono_nonneg_r; lia. }
    assert (Hqint : Double.to_int (S754_finite false mq eq) < 2 ^ 31).
    { unfold Double.to_int, Double.trunc, CInt.int_min, CInt.int_max.
      destruct ((- 2 ^ 31 <=? Z.shiftl (Zpos mq) eq)
                && (Z.shiftl (Zpos mq) eq <=? 2 ^ 31 - 1)) eqn:E; [|lia].
      apply andb_true_iff in E as [_ E]. lia. }
    destruct (of_int_normal i) as (mi & ei & Ei & Hmi & Hei & Hvi); [lia|].
    rewrite Ei.
    destruct (mul_bound mi mD ei eD) as (mp & ep & Ep & Hmp & Hep & Hp);
      try lia.
    rewrite Ep. rewrite Hvi in Hp.
    destruct (add_of_int mp ep j) as (mr & er & E1 & E2 & Her & Hr);
      try lia.
    rewrite E1, E2.
    assert (Hlt : fp_val mr er < L * fp_unit).
    { apply (reads_chain fp_unit (fp_val mD eD) (fp_val mq eq) (fp_val mp ep)
               (fp_val mr er) i j L (2 ^ 52)); lia. }
    pose proof (to_int_lt mr er L Her Hlt ltac:(lia)). lia.
Qed.

(** For every actual double [D] and every length, the elements that
    [separate] reads through an open slice exist. *)
Lemma separate_reads (inp_len : Z) (distance : double) :
  is_double distance ->
  inp_len <= CInt.int_max ->
  separate_reads_in_range inp_len distance.
Proof.
  intros Hv HL i j Hi Hj.
  unfold separate_n_parts in Hi. unfold separate_outp_len in Hj.
  unfold separate_index.
  apply (index_in_range inp_len i j distance Hv); [lia | exact Hi | exact Hj].
Qed.

(** For every actual double [S] and every width, the columns that [stack]
    reads are columns of the input. *)
Lemma stack_reads (inp_len : Z) (stacking : double) :
  is_double stacking ->
  inp_len <= CInt.int_max ->
  stack_reads_in_range inp_len stacking.
Proof.
  intros Hv HL j k Hj Hk.
  unfold stack_height in Hk. unfold stack_outp_len in Hj.
  unfold stack_index.
  apply (index_in_range inp_len k j stacking Hv); [lia | exact Hk | exact Hj].
Qed.

(** ** [stack] *)

Lemma get2_rectangular {A} (a : array2 A) (w i j : Z) :
  rectangular w a -> 0 <= i < shape0 a -> 0 <= j < w ->
  exists v, get2 a i j = Ok v.
Proof.
  intros Hr Hi Hj. unfold get2.
  destruct (get1_ok a i Hi) as [row Er]. rewrite Er. simpl.
  apply get1_ok. apply get1_Ok in Er as [_ Er].
  unfold rectangular in Hr. rewrite Forall_lookup in Hr.
  specialize (Hr _ _ Er). simpl in Hr. lia.
Qed.

(** A loop that adds up reads ends when each read is defined; when it
    ends, its result is the sum, in the element type, of the values read. *)
Lemma sum_loop_ends {A} (add : A -> A -> A) (read : Z -> res A) (l : list Z)
    (d : A) :
  (forall k, k ∈ l -> exists v, read k = Ok v) ->
  exists d', for_each l (fun k datum => v ← read k; Ok (add datum v)) d = Ok d'.
Proof.
  revert d. induction l as [|k l IH]; intros d Hr.
  - now exists d.
  - destruct (Hr k) as [v Ev]; [left|].
    simpl. rewrite Ev. simpl. apply IH. intros k' Hk'. apply Hr. now right.
Qed.

Lemma sum_loop_post {A} (add : A -> A -> A) (read : Z -> res A) (l : list Z)
    (d d' : A) :
  for_each l (fun k datum => v ← read k; Ok (add datum v)) d = Ok d' ->
  exists vs, Forall2 (fun k v => read k = Ok v) l vs /\
             d' = fold_left add vs d.
Proof.
  revert d. induction l as [|k l IH]; intros d; simpl.
  - intros [= <-]. exists []. split; [constructor | reflexivity].
  - destruct (read k) as [v|e] eqn:Ev; simpl; [|discriminate].
    intros E. destruct (IH _ E) as (vs & Hvs & ->).
    exists (v :: vs). split; [now constructor | reflexivity].
Qed.

Section StackFacts.
Context (y_t : ctype).

Lemma stack_datum_post (inp : array2 y_t) (stacking : double) (h i j : Z)
    (d : y_t) :
  stack_datum y_t inp stacking h i j = Ok d ->
  exists vs,
    Forall2 (fun k v => get2 inp i (stack_index stacking j k) = Ok v)
      (seqZ 0 h) vs /\
    d = fold_left (c_add y_t) vs (c_zero y_t).
Proof.
  unfold stack_datum, for_range. rewrite Z.sub_0_r.
  apply (sum_loop_post (c_add y_t)
           (fun k => get2 inp i (stack_index stacking j k))).
Qed.

Lemma stack_datum_ends (inp : array2 y_t) (stacking : double) (h i j : Z) :
  (forall k, 0 <= k < h ->
     exists v, get2 inp i (stack_index stacking j k) = Ok v) ->
  exists d, stack_datum y_t inp stacking h i j = Ok d.
Proof.
  intros Hr. unfold stack_datum, for_range. rewrite Z.sub_0_r.
  apply (sum_loop_ends (c_add y_t)
           (fun k => get2 inp i (stack_index stacking j k))).
  intros k Hk. apply elem_of_seqZ in Hk. apply Hr. lia.
Qed.

(** The two loops of [stack], when they end. *)
Lemma stack_loops_post (inp outp outp' : array2 y_t) (stacking : double)
    (h width : Z) :
  for_range 0 (shape0 inp)
    (fun i cur =>
       for_range 0 width
         (fun j cur =>
            datum ← stack_datum y_t inp stacking h i j;
            set2 cur i j datum)
         cur)
    outp = Ok outp' ->
  stack_inv y_t inp outp stacking h width (shape0 inp) 0 outp'.
Proof.
  apply (for_range_post
           (fun i cur => stack_inv y_t inp outp stacking h width i 0 cur)).
  - unfold shape0. lia.
  - intros i' j'. unfold stack_done. split; [lia | reflexivity].
  - intros i cur cur' Hi Hinv E.
    destruct (Z_le_gt_dec width 0) as [Hw|Hw].
    { rewrite for_range_empty in E by lia. injection E as <-.
      intros i' j'. destruct (Hinv i' j') as [H1 H2].
      unfold stack_done in *. split; intros H; [lia | apply H2; lia]. }
    apply (for_range_post
             (fun j cur => stack_inv y_t inp outp stacking h width i j cur))
      in E; [| lia | exact Hinv |].
    + intros i' j'. destruct (E i' j') as [H1 H2].
      unfold stack_done in *. split; intros H; [apply H1 | apply H2]; lia.
    + intros j c c' Hj Hc Es.
      destruct (stack_datum y_t inp stacking h i j) as [d|e] eqn:Ed;
        simpl in Es; [|discriminate].
      apply set2_Ok in Es as [Eg Hother].
      intros i' j'. destruct (decide ((i', j') = (i, j))) as [[= -> ->]|Hne].
      * split; intros H; [eauto|].
        exfalso. apply H. unfold stack_done. lia.
      * rewrite Hother by exact Hne. destruct (Hc i' j') as [H1 H2].
        assert (Hij : ~ (i' = i /\ j' = j))
          by (intros [-> ->]; now apply Hne).
        unfold stack_done in *. split; intros H; [apply H1 | apply H2]; lia.
Qed.

(** The two loops of [stack] end when every datum is defined and every
    cell to store in exists. *)
Lemma stack_loops_end (inp outp : array2 y_t) (stacking : double) (h width : Z) :
  has_cells outp (shape0 inp) width ->
  (forall i j, 0 <= i < shape0 inp -> 0 <= j < width ->
     exists v, stack_datum y_t inp stacking h i j = Ok v) ->
  exists outp',
    for_range 0 (shape0 inp)
      (fun i cur =>
         for_range 0 width
           (fun j cur =>
              datum ← stack_datum y_t inp stacking h i j;
              set2 cur i j datum)
           cur)
      outp = Ok outp'.
Proof.
  intros Hcells Hdatum.
  destruct (for_range_inv
    (fun (_ : Z) (cur : array2 y_t) => has_cells cur (shape0 inp) width)
    0 (shape0 inp)
    (fun i cur =>
       for_range 0 width
         (fun j cur =>
            datum ← stack_datum y_t inp stacking h i j;
            set2 cur i j datum)
         cur)
    outp) as (outp' & E & _); [unfold shape0; lia | exact Hcells | | eauto].
  intros i cur Hi Hcur.
  destruct (Z_le_gt_dec width 0) as [Hw|Hw].
  { rewrite for_range_empty by lia. eauto. }
  apply (for_range_inv
    (fun (_ : Z) (cur : array2 y_t) => has_cells cur (shape0 inp) width));
    [lia | exact Hcur |].
  intros j c Hj Hc.
  destruct (Hdatum i j Hi Hj) as [d Ed]. rewrite Ed. simpl.
  destruct (Hc i j Hi Hj) as [v0 Ev0].
  destruct (set2_cell c i j v0 d Ev0) as (c' & Es & Eg & Hother).
  exists c'. split; [exact Es|].
  intros i' j' Hi' Hj'.
  destruct (decide ((i', j') = (i, j))) as [[= -> ->]|Hne]; [eauto|].
  rewrite Hother by exact Hne. now apply Hc.
Qed.

Lemma stack_post (inp outp outp' : array2 y_t) (stacking : double) :
  stack y_t inp outp stacking = Ok outp' ->
  stack_stores y_t inp outp stacking
    (stack_outp_len (CInt.wrap (shape1 inp)) stacking) outp'.
Proof.
  unfold stack. intros E. apply stack_loops_post in E.
  intros i j. destruct (E i j) as [H1 H2]. unfold stack_done in *.
  split; intros H; [apply H1 | apply H2]; lia.
Qed.

Lemma stack_ends (inp outp : array2 y_t) (stacking : double) :
  shape1 inp <= CInt.int_max ->
  rectangular (shape1 inp) inp ->
  has_cells outp (shape0 inp) (stack_outp_len (shape1 inp) stacking) ->
  is_double stacking ->
  exists outp', stack y_t inp outp stacking = Ok outp'.
Proof.
  intros Hint Hrect Hcells Hdouble.
  pose proof (stack_reads (shape1 inp) stacking Hdouble Hint) as Hreads.
  assert (Hw : CInt.wrap (shape1 inp) = shape1 inp).
  { apply wrap_id. unfold CInt.is_int, CInt.int_min.
    assert (0 <= shape1 inp) by (unfold shape1; destruct inp; lia).
    lia. }
  unfold stack. rewrite Hw.
  apply stack_loops_end; [exact Hcells|].
  intros i j Hi Hj. apply stack_datum_ends. intros k Hk.
  apply (get2_rectangular inp (shape1 inp)); [exact Hrect | exact Hi |].
  now apply Hreads.
Qed.

End StackFacts.

(** C1, as the code has it.  [stack] stores [min(L, <int>S)] columns in each
    row, not [floor(L/S)]: the latter is the number of samples added up in
    each column.  A call that ends has filled exactly these columns of the
    rows of the input and no other cell; and the call ends under the
    unchecked preconditions (a rectangular input of [L] columns, an output
    with a cell for every store), whatever double [S] is: every column it
    reads is then a column of the input. *)
Theorem stack_output_width (y_t : ctype) (inp outp : array2 y_t)
    (stacking : double) :
  (forall outp',
     stack y_t inp outp stacking = Ok outp' ->
     stack_stores y_t inp outp stacking
       (Z.min (CInt.wrap (shape1 inp)) (Double.to_int stacking)) outp') /\
  (shape1 inp <= CInt.int_max ->
   rectangular (shape1 inp) inp ->
   has_cells outp (shape0 inp) (Z.min (shape1 inp) (Double.to_int stacking)) ->
   is_double stacking ->
   exists outp', stack y_t inp outp stacking = Ok outp').
Proof.
  split.
  - intros outp'. apply stack_post.
  - apply stack_ends.
Qed.

Lemma forallb_seqZ (p : Z -> bool) (n i : Z) :
  forallb p (seqZ 0 n) = true -> 0 <= i < n -> p i = true.
Proof.
  intros H Hi. rewrite forallb_forall in H. apply H.
  apply list_elem_of_In. apply elem_of_seqZ. lia.
Qed.

Lemma has_cells_check_ok {A} (a : array2 A) (rows cols : Z) :
  has_cells_check a rows cols = true -> has_cells a rows cols.
Proof.
  intros H i j Hi Hj. unfold has_cells_check in H.
  apply (forallb_seqZ _ _ i) in H; [|exact Hi]. cbv beta in H.
  apply (forallb_seqZ _ _ j) in H; [|exact Hj].
  cbv beta in H.
  destruct (get2 a i j) as [v|]; [eauto | discriminate].
Qed.

Lemma stack_output_width_witness :
  exists outp',
    stack c_int [[1; 2; 3; 4; 5; 6; 7; 8; 9; 10; 11]] [[7; 7; 7; 7; 7]]
      (Double.of_int 2) = Ok outp' /\
    stack_stores c_int [[1; 2; 3; 4; 5; 6; 7; 8; 9; 10; 11]] [[7; 7; 7; 7; 7]]
      (Double.of_int 2) 2 outp'.
Proof.
  destruct (stack_output_width c_int [[1; 2; 3; 4; 5; 6; 7; 8; 9; 10; 11]]
              [[7; 7; 7; 7; 7]] (Double.of_int 2)) as [Hpost Hends].
  destruct Hends as [outp' E].
  - vm_compute. discriminate.
  - repeat constructor.
  - apply has_cells_check_ok. vm_compute. reflexivity.
  - reflexivity.
  - exists outp'. split; [exact E|]. apply Hpost. exact E.
Defined.

(** C1, as the specification has it, fails.  With eleven samples in a row
    and a stacking factor of 2, [floor(L/S)] is 5, but [stack] stores two
    columns: column 2 of the output keeps the 7 it held, where the sum of
    its five samples would be 35.  (And an output of the width the
    specification gives, [floor(10/5) = 2] columns for ten samples and a
    factor of 5, is too narrow for the five columns stored.) *)
Lemma stack_output_width_counterexample :
  stack_height 11 (Double.of_int 2) = 5 /\
  stack c_int [[1; 2; 3; 4; 5; 6; 7; 8; 9; 10; 11]] [[7; 7; 7; 7; 7]]
    (Double.of_int 2) = Ok [[25; 30; 7; 7; 7]] /\
  stack_datum c_int [[1; 2; 3; 4; 5; 6; 7; 8; 9; 10; 11]] (Double.of_int 2)
    5 0 2 = Ok 35 /\
  ~ stack_stores c_int [[1; 2; 3; 4; 5; 6; 7; 8; 9; 10; 11]] [[7; 7; 7; 7; 7]]
      (Double.of_int 2) (stack_height 11 (Double.of_int 2))
      [[25; 30; 7; 7; 7]] /\
  stack c_int [[1; 2; 3; 4; 5; 6; 7; 8; 9; 10]] [[7; 7]] (Double.of_int 5)
    = Raise OutOfBounds.
Proof.
  split; [vm_compute; reflexivity|].
  split; [vm_compute; reflexivity|].
  split; [vm_compute; reflexivity|].
  split; [|vm_compute; reflexivity].
  intros H. destruct (H 0 2) as [H1 _].
  destruct H1 as (v & Ev & Ed); [vm_compute; intuition discriminate|].
  vm_compute in Ev. vm_compute in Ed. congruence.
Qed.

(** Additions wrap: adding up in a [bits]-bit integer type gives the
    mathematical sum reduced to that type. *)
Lemma wrap_int_add_l (signed : bool) (bits a b : Z) :
  wrap_int signed bits (wrap_int signed bits a + b) = wrap_int signed bits (a + b).
Proof.
  unfold wrap_int. destruct signed.
  - f_equal.
    replace ((a + 2 ^ (bits - 1)) mod 2 ^ bits - 2 ^ (bits - 1) + b
             + 2 ^ (bits - 1))
      with ((a + 2 ^ (bits - 1)) mod 2 ^ bits + b) by lia.
    rewrite Zplus_mod_idemp_l. f_equal. lia.
  - apply Zplus_mod_idemp_l.
Qed.

Lemma wrap_int_0 (signed : bool) (bits : Z) :
  0 < bits -> wrap_int signed bits 0 = 0.
Proof.
  intros H. unfold wrap_int. destruct signed.
  - rewrite Z.add_0_l. rewrite Z.mod_small; [lia|].
    split; [apply Z.pow_nonneg; lia|].
    apply Z.pow_lt_mono_r; lia.
  - apply Z.mod_0_l. apply Z.pow_nonzero; lia.
Qed.

Lemma fold_wrap_int (signed : bool) (bits : Z) (vs : list Z) (a : Z) :
  fold_left (c_add (c_int_type signed bits)) vs (wrap_int signed bits a)
  = wrap_int signed bits (a + Zsum vs).
Proof.
  revert a. induction vs as [|v vs IH]; intros a; simpl.
  - now rewrite Z.add_0_r.
  - rewrite wrap_int_add_l. rewrite IH. f_equal. lia.
Qed.

(** C7.  When [stack] ends, the value it has stored in column [j] of row
    [i], for every column [j] it stores, is the sum, over
    [k = 0 .. <int>(L/S) - 1] and in the element type, of the samples
    [inp[i, <int>(j + k * S)]]; for an integer type of [bits] bits that sum
    is the mathematical one reduced modulo [2 ^ bits]; and [stack] ends
    under its unchecked preconditions, whatever double [S] is. *)
Theorem stack_column_sum :
  (forall (y_t : ctype) (inp outp outp' : array2 y_t) (stacking : double)
          (i j : Z),
     stack y_t inp outp stacking = Ok outp' ->
     0 <= i < shape0 inp ->
     0 <= j < Z.min (CInt.wrap (shape1 inp)) (Double.to_int stacking) ->
     exists vs,
       Forall2 (fun k v => get2 inp i (stack_index stacking j k) = Ok v)
         (seqZ 0 (stack_height (CInt.wrap (shape1 inp)) stacking)) vs /\
       get2 outp' i j = Ok (fold_left (c_add y_t) vs (c_zero y_t))) /\
  (forall (signed : bool) (bits : Z) (vs : list Z),
     0 < bits ->
     fold_left (c_add (c_int_type signed bits)) vs
       (c_zero (c_int_type signed bits))
     = wrap_int signed bits (Zsum vs)) /\
  (forall (y_t : ctype) (inp outp : array2 y_t) (stacking : double),
     shape1 inp <= CInt.int_max ->
     rectangular (shape1 inp) inp ->
     has_cells outp (shape0 inp)
       (Z.min (shape1 inp) (Double.to_int stacking)) ->
     is_double stacking ->
     exists outp', stack y_t inp outp stacking = Ok outp').
Proof.
  split; [|split].
  - intros y_t inp outp outp' stacking i j E Hi Hj.
    apply stack_post in E. destruct (E i j) as [H1 _].
    destruct H1 as (v & Ev & Ed); [split; assumption|].
    apply stack_datum_post in Ed as (vs & Hvs & ->).
    exists vs. split; assumption.
  - intros signed bits vs Hbits.
    change (c_zero (c_int_type signed bits)) with 0.
    rewrite <- (wrap_int_0 signed bits Hbits) at 1.
    now rewrite fold_wrap_int.
  - intros y_t. apply stack_ends.
Qed.

Lemma stack_column_sum_witness :
  exists outp',
    stack c_uchar [[200; 100; 100; 100]] [[7; 7]] (Double.of_int 2)
      = Ok outp' /\
    get2 outp' 0 0 = Ok 44.
Proof.
  destruct stack_column_sum as (Hsum & Hwrap & Hends).
  destruct (Hends c_uchar [[200; 100; 100; 100]] [[7; 7]] (Double.of_int 2))
    as (outp' & E).
  - vm_compute. discriminate.
  - repeat constructor.
  - apply has_cells_check_ok. vm_compute. reflexivity.
  - reflexivity.
  - exists outp'. split; [exact E|].
    destruct (Hsum c_uchar _ _ _ _ 0 0 E) as (vs & Hvs & Eg);
      [vm_compute; intuition discriminate ..|].
    rewrite Eg. f_equal.
    change (seqZ 0 (stack_height (CInt.wrap (shape1 [[200; 100; 100; 100]]))
                      (Double.of_int 2))) with [0; 1] in Hvs.
    inversion Hvs as [|k0 v0 ks0 vs0 E0 Hvs0]; subst.
    inversion Hvs0 as [|k1 v1 ks1 vs1 E1 Hvs1]; subst.
    inversion Hvs1; subst.
    vm_compute in E0. vm_compute in E1.
    injection E0 as <-. injection E1 as <-.
    unfold c_uchar. rewrite (Hwrap false 8) by lia. reflexivity.
Defined.

(** ** [separate] *)

(** Adding [<double>0] does not change the integer part. *)
Lemma to_int_add_zero (d : double) :
  Double.to_int (Double.add d (Double.of_int 0)) = Double.to_int d.
Proof. destruct d as [[|]|[|]| |s m e]; reflexivity. Qed.

Lemma separate_index_0 (distance : double) (i : Z) :
  separate_index distance i 0
  = Double.to_int (Double.mul (Double.of_int i) distance).
Proof. unfold separate_index. apply to_int_add_zero. Qed.

(** The column of sample [j]: [(j - 0) // binning]. *)
Lemma separate_column (j binning : Z) :
  0 <= j <= CInt.int_max -> 1 <= binning ->
  c_div (CInt.sub j 0) binning = Ok (j / binning) /\
  0 <= j / binning <= j /\
  (j / binning) * binning <= j < (j / binning) * binning + binning.
Proof.
  intros Hj Hb.
  assert (H0 : 0 <= j / binning) by (apply Z.div_pos; lia).
  assert (H1 : j / binning <= j) by (apply Z.div_le_upper_bound; nia).
  pose proof (Z.mul_div_le j binning ltac:(lia)) as H2.
  pose proof (Z.mul_succ_div_gt j binning ltac:(lia)) as H3.
  split; [|split; [lia | nia]].
  unfold c_div, CInt.sub. rewrite Z.sub_0_r.
  rewrite (wrap_id j) by (unfold CInt.is_int, CInt.int_min, CInt.int_max in *; lia).
  destruct (binning =? 0) eqn:E; [lia|].
  rewrite Z.quot_div_nonneg by lia.
  rewrite wrap_id; [reflexivity|].
  unfold CInt.is_int, CInt.int_min, CInt.int_max in *. lia.
Qed.

(** The two loops of [separate] on an open slice, when they end. *)
Lemma separate_loops_post (inp : list float) (outp outp' : array2 float)
    (distance : double) (binning n width : Z) :
  1 <= binning -> width <= CInt.int_max -> 0 <= n ->
  for_range 0 n
    (fun i cur =>
       for_range 0 width
         (fun j cur =>
            v ← get1 inp (separate_index distance i j);
            col ← c_div (CInt.sub j 0) binning;
            set2 cur i col v)
         cur)
    outp = Ok outp' ->
  separate_inv inp outp distance binning width n 0 outp'.
Proof.
  intros Hb Hwidth Hn.
  apply (for_range_post
           (fun i cur => separate_inv inp outp distance binning width i 0 cur));
    [exact Hn | |].
  - intros i' c. repeat split; intros; lia.
  - intros i cur cur' Hi Hinv E.
    destruct (Z_le_gt_dec width 0) as [Hw|Hw].
    { rewrite for_range_empty in E by lia. injection E as <-.
      intros i' c. destruct (Hinv i' c) as (H1 & H2 & H3).
      repeat split; intros; try nia. apply H3; nia. }
    apply (for_range_post
             (fun t cur => separate_inv inp outp distance binning width i t cur))
      in E; [| lia | exact Hinv |].
    + intros i' c. destruct (E i' c) as (H1 & H2 & H3).
      repeat split; intros; try lia.
      * destruct (Z.eq_dec i' i) as [->|Hne]; [apply H2 | apply H1]; lia.
      * apply H3; lia.
    + intros t c c' Ht Hc Es.
      destruct (get1 inp (separate_index distance i t)) as [v|e] eqn:Ev;
        simpl in Es; [|discriminate].
      destruct (separate_column t binning) as (Ec & Hc0 & Hc1); [lia | lia |].
      rewrite Ec in Es. simpl in Es.
      set (c0 := t / binning) in *.
      apply set2_Ok in Es as [Eg Hother].
      intros i' k. destruct (decide ((i', k) = (i, c0))) as [[= -> ->]|Hne].
      * repeat split; intros; try lia.
        exists v. split; [exact Eg|]. rewrite <- Ev. do 2 f_equal.
        unfold separate_last. lia.
      * rewrite Hother by exact Hne. destruct (Hc i' k) as (H1 & H2 & H3).
        repeat split.
        -- exact H1.
        -- intros -> Hk0 Hk1.
           assert (Hk : k <> c0) by (intros ->; now apply Hne).
           assert (Hlt : k < c0) by nia.
           assert (Hkb : k * binning + binning <= t) by nia.
           destruct H2 as (w & Ew & Er); [reflexivity | lia | lia |].
           exists w. split; [exact Ew|]. rewrite <- Er. do 2 f_equal.
           unfold separate_last. lia.
        -- intros Hn1 Hn2. apply H3; [exact Hn1|].
           intros (-> & Hk0 & Hk1). apply Hn2. lia.
Qed.

(** They end when every read is defined and every cell to store in
    exists. *)
Lemma separate_loops_end (inp : list float) (outp : array2 float)
    (distance : double) (binning n width : Z) :
  1 <= binning -> width <= CInt.int_max ->
  has_cells outp n width ->
  (forall i j, 0 <= i < n -> 0 <= j < width ->
     exists v, get1 inp (separate_index distance i j) = Ok v) ->
  exists outp',
    for_range 0 n
      (fun i cur =>
         for_range 0 width
           (fun j cur =>
              v ← get1 inp (separate_index distance i j);
              col ← c_div (CInt.sub j 0) binning;
              set2 cur i col v)
           cur)
      outp = Ok outp'.
Proof.
  intros Hb Hwidth Hcells Hreads.
  destruct (Z_le_gt_dec n 0) as [Hn|Hn].
  { rewrite for_range_empty by lia. eauto. }
  destruct (for_range_inv
    (fun (_ : Z) (cur : array2 float) => has_cells cur n width)
    0 n
    (fun i cur =>
       for_range 0 width
         (fun j cur =>
            v ← get1 inp (separate_index distance i j);
            col ← c_div (CInt.sub j 0) binning;
            set2 cur i col v)
         cur)
    outp) as (outp' & E & _); [lia | exact Hcells | | eauto].
  intros i cur Hi Hcur.
  destruct (Z_le_gt_dec width 0) as [Hw|Hw].
  { rewrite for_range_empty by lia. eauto. }
  apply (for_range_inv
    (fun (_ : Z) (cur : array2 float) => has_cells cur n width));
    [lia | exact Hcur |].
  intros j c Hj Hc.
  destruct (Hreads i j Hi Hj) as [v Ev]. rewrite Ev. simpl.
  destruct (separate_column j binning) as (Ec & Hc0 & Hc1); [lia | lia |].
  rewrite Ec. simpl.
  destruct (Hc i (j / binning)) as [v0 Ev0]; [lia | lia |].
  destruct (set2_cell c i (j / binning) v0 v Ev0) as (c' & Es & Eg & Hother).
  exists c'. split; [exact Es|].
  intros i' j' Hi' Hj'.
  destruct (decide ((i', j') = (i, j / binning))) as [[= -> ->]|Hne];
    [eauto|].
  rewrite Hother by exact Hne. now apply Hc.
Qed.

(** C4, as the code has it.  On an open slice, a call of [separate] that
    ends has filled the [<int>(L / D)] first rows of the output and left
    the others as they were; but column 0 of row [i] holds the last of the
    samples binned into it,
    [inp[<int>(i * D + (min(binning, outp_len) - 1))]], which is
    [inp[<int>(i * D)]] when [binning] is 1.  The call ends when the
    output has a cell for every store, whatever double [D] is: every
    element it reads is then an element of the input. *)
Theorem separate_rows (inp : list float) (outp : array2 float)
    (distance : double) (binning : Z) :
  let inp_len := Z.of_nat (length inp) in
  let width := separate_outp_len inp_len distance in
  let n := separate_n_parts inp_len distance in
  1 <= inp_len <= CInt.int_max ->
  1 <= Double.to_int distance ->
  1 <= binning ->
  (forall outp',
     separate inp outp distance binning open_slice = Ok outp' ->
     (forall i, 0 <= i < n ->
        exists v, get2 outp' i 0 = Ok v /\
          get1 inp (separate_index distance i (Z.min binning width - 1))
          = Ok v) /\
     (binning = 1 -> separate_first_sample inp distance outp') /\
     (forall i c, ~ (0 <= i < n /\ 0 <= c /\ c * binning < width) ->
        get2 outp' i c = get2 outp i c)) /\
  (has_cells outp n width ->
   is_double distance ->
   exists outp', separate inp outp distance binning open_slice = Ok outp').
Proof.
  intros inp_len width n HL HD Hb.
  assert (Hw : 1 <= width <= CInt.int_max)
    by (unfold width, separate_outp_len; lia).
  assert (Hwrap : CInt.wrap inp_len = inp_len)
    by (apply wrap_id;
        unfold CInt.is_int, CInt.int_min, CInt.int_max in *; lia).
  split.
  - intros outp' E. unfold separate in E. fold inp_len in E.
    rewrite Hwrap in E. simpl in E.
    assert (Hcol0 : forall i, 0 <= i < n ->
      separate_inv inp outp distance binning width n 0 outp' ->
      exists v, get2 outp' i 0 = Ok v /\
        get1 inp (separate_index distance i (Z.min binning width - 1)) = Ok v).
    { intros i Hi Hinv. destruct (Hinv i 0) as (H1 & _).
      destruct H1 as (v & Ev & Er); [lia | lia | lia |].
      exists v. split; [exact Ev|]. rewrite <- Er. do 2 f_equal.
      unfold separate_last. lia. }
    destruct (Z_le_gt_dec 0 n) as [Hn|Hn].
    + apply (separate_loops_post inp outp outp' distance binning n width)
        in E; [|lia ..].
      split; [intros i Hi; now apply Hcol0|]. split.
      * intros -> i Hi. fold inp_len in Hi. rewrite Hwrap in Hi.
        rewrite <- separate_index_0.
        destruct (Hcol0 i Hi E) as (v & Ev & Er).
        exists v. split; [exact Ev|].
        now replace (Z.min 1 width - 1) with 0 in Er by lia.
      * intros i c Hne. destruct (E i c) as (_ & _ & H3).
        apply H3; [exact Hne | lia].
    + rewrite for_range_empty in E by (change (n <= 0); lia).
      injection E as <-.
      split; [intros; lia|]. split; [|reflexivity].
      intros _ i Hi. fold inp_len in Hi. rewrite Hwrap in Hi.
      change (0 <= i < n) in Hi. lia.
  - intros Hcells Hdouble.
    pose proof (separate_reads inp_len distance Hdouble ltac:(lia)) as Hreads.
    unfold separate. fold inp_len.
    rewrite Hwrap. simpl.
    apply separate_loops_end; [lia | lia | exact Hcells |].
    intros i j Hi Hj. apply get1_ok. now apply Hreads.
Qed.

Lemma separate_rows_witness :
  exists outp',
    separate
      [Double.of_int 10; Double.of_int 20; Double.of_int 30; Double.of_int 40]
      [[S754_zero false; S754_zero false]; [S754_zero false; S754_zero false]]
      (Double.of_int 2) 1 open_slice = Ok outp' /\
    get2 outp' 1 0 = Ok (Double.of_int 30).
Proof.
  destruct (separate_rows
    [Double.of_int 10; Double.of_int 20; Double.of_int 30; Double.of_int 40]
    [[S754_zero false; S754_zero false]; [S754_zero false; S754_zero false]]
    (Double.of_int 2) 1) as (Hpost & Hends).
  - vm_compute. intuition discriminate.
  - vm_compute. discriminate.
  - lia.
  - destruct Hends as (outp' & E).
    + apply has_cells_check_ok. vm_compute. reflexivity.
    + reflexivity.
    + exists outp'. split; [exact E|].
      destruct (Hpost outp' E) as (_ & H1 & _).
      destruct (H1 eq_refl 1) as (v & Ev & Er);
        [vm_compute; intuition discriminate|].
      rewrite Ev. rewrite <- Er. vm_compute. reflexivity.
Defined.

(** C4, as the specification has it, fails when [binning] is not 1: of
    four samples at distance 2 and binning 2, both samples of a part go to
    column 0, and the second one stays. *)
Lemma separate_first_sample_counterexample :
  separate
    [Double.of_int 10; Double.of_int 20; Double.of_int 30; Double.of_int 40]
    [[S754_zero false; S754_zero false]; [S754_zero false; S754_zero false]]
    (Double.of_int 2) 2 open_slice
  = Ok [[Double.of_int 20; S754_zero false];
        [Double.of_int 40; S754_zero false]] /\
  get1 [Double.of_int 10; Double.of_int 20; Double.of_int 30; Double.of_int 40]
    (Double.to_int (Double.mul (Double.of_int 0) (Double.of_int 2)))
  = Ok (Double.of_int 10) /\
  ~ separate_first_sample
      [Double.of_int 10; Double.of_int 20; Double.of_int 30; Double.of_int 40]
      (Double.of_int 2)
      [[Double.of_int 20; S754_zero false];
       [Double.of_int 40; S754_zero false]].
Proof.
  split; [vm_compute; reflexivity|].
  split; [vm_compute; reflexivity|].
  intros H. destruct (H 0) as (v & Ev & Er).
  - vm_compute. intuition discriminate.
  - vm_compute in Ev. vm_compute in Er. congruence.
Qed.

(** ** [draw_line] *)

Lemma wrap_shift (z : Z) : exists t, CInt.wrap z = z + 2 ^ 32 * t.
Proof.
  exists (- ((z + 2 ^ 31) / 2 ^ 32)). unfold CInt.wrap.
  pose proof (Z.div_mod (z + 2 ^ 31) (2 ^ 32) ltac:(lia)). lia.
Qed.

Lemma wrap_0_inv (d : Z) : - 2 ^ 32 < d < 2 ^ 32 -> CInt.wrap d = 0 -> d = 0.
Proof.
  intros Hd H. destruct (wrap_shift d) as [t Ht]. rewrite H in Ht. lia.
Qed.

(** The loops of [draw_line] end: a coordinate that moves by one towards or
    away from its target, in 32-bit arithmetic, meets it after
    [line_turns] turns. *)
Lemma line_turns_step (a b i : Z) :
  CInt.is_int a -> CInt.is_int b -> i = 1 \/ i = -1 -> a <> b ->
  line_turns a b i = S (line_turns (CInt.add a i) b i).
Proof.
  intros Ha Hb Hi Hne. unfold line_turns, CInt.add.
  destruct (wrap_shift (a + i)) as [t Ht]. rewrite Ht.
  replace (i * (b - (a + i + 2 ^ 32 * t)))
    with (i * (b - a) - 1 + (- i * t) * 2 ^ 32) by nia.
  rewrite Z_mod_plus_full.
  pose proof (Z.mod_pos_bound (i * (b - a)) (2 ^ 32) ltac:(lia)) as Hm.
  pose proof (Z.div_mod (i * (b - a)) (2 ^ 32) ltac:(lia)) as Hdm.
  assert (Hnz : (i * (b - a)) mod 2 ^ 32 <> 0).
  { intros H0. rewrite H0 in Hdm.
    unfold CInt.is_int, CInt.int_min, CInt.int_max in *. nia. }
  assert (E : (i * (b - a) - 1) mod 2 ^ 32 = (i * (b - a)) mod 2 ^ 32 - 1).
  { symmetry. apply (Z.mod_unique _ _ ((i * (b - a)) / 2 ^ 32)); lia. }
  rewrite E. lia.
Qed.

Lemma line_loop_x_ends (x2 ix iy dx dy c : Z) :
  CInt.is_int x2 -> ix = 1 \/ ix = -1 ->
  forall fuel s x y e,
    CInt.is_int x -> (line_turns x x2 ix <= fuel)%nat ->
    exists s', line_loop_x fuel x2 ix iy dx dy c s x y e = Some s'.
Proof.
  intros H2 Hi fuel. induction fuel as [|fuel IH]; intros s x y e Hx Hf.
  - simpl. destruct (Z.eqb_spec x x2) as [->|Hne]; [eauto|].
    rewrite (line_turns_step x x2 ix) in Hf by assumption. lia.
  - simpl. destruct (Z.eqb_spec x x2) as [->|Hne]; [eauto|].
    rewrite (line_turns_step x x2 ix) in Hf by assumption.
    unfold line_step.
    destruct (if 0 <=? e then _ else _) as [y' e'].
    apply IH; [apply wrap_is_int | lia].
Qed.

Lemma line_loop_y_ends (y2 ix iy dx dy c : Z) :
  CInt.is_int y2 -> iy = 1 \/ iy = -1 ->
  forall fuel s x y e,
    CInt.is_int y -> (line_turns y y2 iy <= fuel)%nat ->
    exists s', line_loop_y fuel y2 ix iy dx dy c s x y e = Some s'.
Proof.
  intros H2 Hi fuel. induction fuel as [|fuel IH]; intros s x y e Hy Hf.
  - simpl. destruct (Z.eqb_spec y y2) as [->|Hne]; [eauto|].
    rewrite (line_turns_step y y2 iy) in Hf by assumption. lia.
  - simpl. destruct (Z.eqb_spec y y2) as [->|Hne]; [eauto|].
    rewrite (line_turns_step y y2 iy) in Hf by assumption.
    unfold line_step.
    destruct (if 0 <=? e then _ else _) as [x' e'].
    apply IH; [apply wrap_is_int | lia].
Qed.

(** The fuel that [draw_line] gives to its loops is enough. *)
Lemma draw_line_ends (s : surface) (x1 y1 x2 y2 dx dy e c : Z) :
  CInt.is_int x1 -> CInt.is_int y1 -> CInt.is_int x2 -> CInt.is_int y2 ->
  (exists s',
     line_loop_x (line_turns x1 x2 (if x1 <=? x2 then 1 else -1)) x2
       (if x1 <=? x2 then 1 else -1) (if y1 <=? y2 then 1 else -1)
       dx dy c s x1 y1 e = Some s') /\
  (exists s',
     line_loop_y (line_turns y1 y2 (if y1 <=? y2 then 1 else -1)) y2
       (if x1 <=? x2 then 1 else -1) (if y1 <=? y2 then 1 else -1)
       dx dy c s x1 y1 e = Some s').
Proof.
  intros Hx1 Hy1 Hx2 Hy2. split.
  - apply line_loop_x_ends; [assumption | | assumption | lia].
    destruct (x1 <=? x2); auto.
  - apply line_loop_y_ends; [assumption | | assumption | lia].
    destruct (y1 <=? y2); auto.
Qed.

(** C6, as the specification has it, fails: from (0, 0) to (2, 1) the
    error term is zero at the first step, and each direction resolves the
    tie away from its own start, so pixel (1, 1) is lit in one direction
    and pixel (1, 0) in the other. *)
Lemma draw_line_symmetric_counterexample :
  ptr (draw_line scenario 0 0 2 1 5) !! pixel_index scenario 1 1 = Some 5 /\
  ptr (draw_line scenario 2 1 0 0 5) !! pixel_index scenario 1 1 = None /\
  draw_line scenario 0 0 2 1 5 <> draw_line scenario 2 1 0 0 5.
Proof.
  assert (H1 : ptr (draw_line scenario 0 0 2 1 5) !! pixel_index scenario 1 1
               = Some 5) by (vm_compute; reflexivity).
  assert (H2 : ptr (draw_line scenario 2 1 0 0 5) !! pixel_index scenario 1 1
               = None) by (vm_compute; reflexivity).
  split; [exact H1|]. split; [exact H2|].
  intros E. rewrite E in H1. rewrite H1 in H2. discriminate.
Qed.

(** *** Straight lines *)

Lemma sub_diag_wrap (a : Z) : CInt.sub a a = 0.
Proof. unfold CInt.sub. now rewrite Z.sub_diag. Qed.

Lemma sub_wrap_nonzero (a b : Z) :
  CInt.is_int a -> CInt.is_int b -> a <> b -> CInt.sub a b <> 0.
Proof.
  intros Ha Hb Hne H. unfold CInt.sub in H. apply wrap_0_inv in H; [lia|].
  unfold CInt.is_int, CInt.int_min, CInt.int_max in *. lia.
Qed.

(** A vertical line is the column between the two ends, both included. *)
Lemma draw_line_vertical (s : surface) (x y1 y2 c : Z) :
  draw_line s x y1 x y2 c
  = for_from (Z.min y1 y2) (Z.max y1 y2) (fun y s => draw_pixel s x y c) s.
Proof.
  unfold draw_line. rewrite Z.leb_refl, sub_diag_wrap.
  destruct (Z.leb_spec y1 y2) as [H|H]; simpl.
  - now rewrite Z.min_l, Z.max_r by lia.
  - now rewrite Z.min_r, Z.max_l by lia.
Qed.

(** A horizontal line is the row between the two ends, both included. *)
Lemma draw_line_horizontal (s : surface) (x1 x2 y c : Z) :
  CInt.is_int x1 -> CInt.is_int x2 -> x1 <> x2 ->
  draw_line s x1 y x2 y c
  = for_from (Z.min x1 x2) (Z.max x1 x2) (fun x s => draw_pixel s x y c) s.
Proof.
  intros H1 H2 Hne. unfold draw_line. rewrite Z.leb_refl, sub_diag_wrap.
  destruct (Z.leb_spec x1 x2) as [H|H].
  - destruct (Z.eqb_spec (CInt.sub x2 x1) 0) as [E|_].
    { exfalso. revert E. apply sub_wrap_nonzero; auto. }
    simpl. now rewrite Z.min_l, Z.max_r by lia.
  - destruct (Z.eqb_spec (CInt.sub x1 x2) 0) as [E|_].
    { exfalso. revert E. apply sub_wrap_nonzero; auto. }
    simpl. now rewrite Z.min_r, Z.max_l by lia.
Qed.

Lemma draw_line_axis_symmetric (s : surface) (x1 y1 x2 y2 c : Z) :
  CInt.is_int x1 -> CInt.is_int x2 ->
  x1 = x2 \/ y1 = y2 ->
  draw_line s x1 y1 x2 y2 c = draw_line s x2 y2 x1 y1 c.
Proof.
  intros H1 H2 [->| ->].
  - rewrite !draw_line_vertical. now rewrite Z.min_comm, Z.max_comm.
  - destruct (Z.eq_dec x1 x2) as [->|Hne].
    + rewrite !draw_line_vertical. reflexivity.
    + rewrite !draw_line_horizontal by auto.
      now rewrite Z.min_comm, Z.max_comm.
Qed.

(** *** The order of the pixels does not matter *)

Lemma draw_pixel_comm (s : surface) (x y x' y' c : Z) :
  draw_pixel (draw_pixel s x y c) x' y' c
  = draw_pixel (draw_pixel s x' y' c) x y c.
Proof.
  unfold draw_pixel.
  destruct (in_clip s x y) eqn:E1; destruct (in_clip s x' y') eqn:E2;
    change (in_clip (set_ptr ?p s) ?a ?b) with (in_clip s a b);
    rewrite ?E1, ?E2; try reflexivity.
  change (pixel_index (set_ptr ?p s) ?a ?b) with (pixel_index s a b).
  change (ptr (set_ptr ?p s)) with p.
  change (set_ptr ?q (set_ptr ?p s)) with (set_ptr q s).
  f_equal.
  destruct (decide (pixel_index s x y = pixel_index s x' y')) as [->|Hne];
    [reflexivity|].
  apply insert_insert_ne. congruence.
Qed.

Lemma draw_points_cons c p l s :
  draw_points c (p :: l) s = draw_points c l (draw_pixel s p.1 p.2 c).
Proof. reflexivity. Qed.

Lemma draw_points_app c l1 l2 s :
  draw_points c (l1 ++ l2) s = draw_points c l2 (draw_points c l1 s).
Proof. apply fold_left_app. Qed.

Lemma draw_points_pixel_comm c l s x y :
  draw_points c l (draw_pixel s x y c) = draw_pixel (draw_points c l s) x y c.
Proof.
  revert s. induction l as [|p l IH]; intros s; [reflexivity|].
  rewrite !draw_points_cons. rewrite draw_pixel_comm. apply IH.
Qed.

Lemma draw_points_reverse c l s :
  draw_points c (reverse l) s = draw_points c l s.
Proof.
  revert s. induction l as [|p l IH]; intros s; [reflexivity|].
  rewrite reverse_cons, draw_points_app, IH, draw_points_cons.
  unfold draw_points at 1. simpl. symmetry. apply draw_points_pixel_comm.
Qed.

(** *** The loops as lists of points *)

Lemma line_turns_refl (a i : Z) : line_turns a a i = 0%nat.
Proof. unfold line_turns. now rewrite Z.sub_diag, Z.mul_0_r. Qed.

Lemma line_step_major (ia ib da db a b e : Z) :
  (line_step ia ib da db (a, b, e)).1.1 = CInt.add a ia.
Proof. unfold line_step. now destruct (0 <=? e). Qed.

Lemma line_loop_x_points (x2 ix iy dx dy c : Z) :
  CInt.is_int x2 -> ix = 1 \/ ix = -1 ->
  forall fuel s x y e,
    CInt.is_int x -> (line_turns x x2 ix <= fuel)%nat ->
    line_loop_x fuel x2 ix iy dx dy c s x y e
    = Some (draw_points c
              (line_points (line_turns x x2 ix) ix iy dx dy (x, y, e)) s).
Proof.
  intros H2 Hi fuel. induction fuel as [|fuel IH]; intros s x y e Hx Hf.
  - simpl. destruct (Z.eqb_spec x x2) as [->|Hne].
    + now rewrite line_turns_refl.
    + rewrite (line_turns_step x x2 ix) in Hf by assumption. lia.
  - simpl. destruct (Z.eqb_spec x x2) as [->|Hne].
    + now rewrite line_turns_refl.
    + rewrite (line_turns_step x x2 ix) in * by assumption.
      pose proof (line_step_major ix iy dx dy x y e) as Hs.
      simpl line_points. rewrite draw_points_cons.
      destruct (line_step ix iy dx dy (x, y, e)) as [[x' y'] e'].
      simpl in Hs. subst x'. simpl.
      apply IH; [apply wrap_is_int | lia].
Qed.

Lemma line_loop_y_points (y2 ix iy dx dy c : Z) :
  CInt.is_int y2 -> iy = 1 \/ iy = -1 ->
  forall fuel s x y e,
    CInt.is_int y -> (line_turns y y2 iy <= fuel)%nat ->
    line_loop_y fuel y2 ix iy dx dy c s x y e
    = Some (draw_points c
              (transpose <$>
                 line_points (line_turns y y2 iy) iy ix dy dx (y, x, e)) s).
Proof.
  intros H2 Hi fuel. induction fuel as [|fuel IH]; intros s x y e Hy Hf.
  - simpl. destruct (Z.eqb_spec y y2) as [->|Hne].
    + now rewrite line_turns_refl.
    + rewrite (line_turns_step y y2 iy) in Hf by assumption. lia.
  - simpl. destruct (Z.eqb_spec y y2) as [->|Hne].
    + now rewrite line_turns_refl.
    + rewrite (line_turns_step y y2 iy) in * by assumption.
      pose proof (line_step_major iy ix dy dx y x e) as Hs.
      simpl line_points. rewrite fmap_cons, draw_points_cons.
      destruct (line_step iy ix dy dx (y, x, e)) as [[y' x'] e'].
      simpl in Hs. subst y'. simpl.
      apply IH; [apply wrap_is_int | lia].
Qed.

(** *** The closed form of the points *)

Section Bresenham.
Context (n m ia ib a1 b1 : Z).
Hypothesis (Hn : 0 < n) (Hm : 0 <= m <= n) (Hfit : 2 * n <= CInt.int_max).
Hypothesis (Hia : ia = 1 \/ ia = -1) (Hib : ib = 1 \/ ib = -1).
Hypothesis (Ha1 : CInt.is_int a1) (Ha2 : CInt.is_int (a1 + ia * n)).
Hypothesis (Hb1 : CInt.is_int b1) (Hb2 : CInt.is_int (b1 + ib * m)).

Lemma line_minor_spec (k : Z) :
  2 * n * line_minor n m k <= 2 * k * m + n
  < 2 * n * line_minor n m k + 2 * n.
Proof.
  unfold line_minor.
  pose proof (Z.mul_div_le (2 * k * m + n) (2 * n) ltac:(lia)).
  pose proof (Z.mul_succ_div_gt (2 * k * m + n) (2 * n) ltac:(lia)).
  lia.
Qed.

Lemma line_minor_bounds (k : Z) :
  0 <= k <= n -> 0 <= line_minor n m k <= m.
Proof.
  intros Hk. pose proof (line_minor_spec k) as H. split.
  - unfold line_minor. apply Z.div_pos; nia.
  - nia.
Qed.

Lemma line_minor_0 : line_minor n m 0 = 0.
Proof. unfold line_minor. apply Z.div_small. lia. Qed.

Lemma line_minor_succ (k : Z) :
  0 <= k ->
  line_minor n m (k + 1)
  = if 0 <=? line_error n m k then line_minor n m k + 1 else line_minor n m k.
Proof.
  intros Hk. pose proof (line_minor_spec k) as H. unfold line_error.
  set (q := line_minor n m k) in *.
  destruct (Z.leb_spec 0 (2 * m * (k + 1) - n - 2 * n * q)) as [He|He];
    unfold line_minor; symmetry.
  - apply (Z.div_unique _ _ _ (2 * (k + 1) * m + n - 2 * n * (q + 1))); lia.
  - apply (Z.div_unique _ _ _ (2 * (k + 1) * m + n - 2 * n * q)); lia.
Qed.

Lemma line_error_succ (k : Z) :
  0 <= k ->
  line_error n m (k + 1)
  = (if 0 <=? line_error n m k then line_error n m k - 2 * n
     else line_error n m k) + 2 * m.
Proof.
  intros Hk. unfold line_error at 1. rewrite line_minor_succ by exact Hk.
  destruct (0 <=? line_error n m k); unfold line_error; lia.
Qed.

Lemma line_error_bounds (k : Z) :
  0 <= k -> 2 * m - 2 * n <= line_error n m k < 2 * m.
Proof.
  intros Hk. pose proof (line_minor_spec k). unfold line_error. lia.
Qed.

Lemma line_step_closed (k : Z) :
  0 <= k < n ->
  line_step ia ib (2 * n) (2 * m)
    (a1 + ia * k, b1 + ib * line_minor n m k, line_error n m k)
  = (a1 + ia * (k + 1), b1 + ib * line_minor n m (k + 1),
     line_error n m (k + 1)).
Proof.
  intros Hk. unfold line_step.
  rewrite line_error_succ, line_minor_succ by lia.
  pose proof (line_error_bounds k ltac:(lia)) as He.
  pose proof (line_minor_bounds k ltac:(lia)) as Hq.
  pose proof (line_minor_bounds (k + 1) ltac:(lia)) as Hq'.
  rewrite line_minor_succ in Hq' by lia.
  assert (Ha : CInt.add (a1 + ia * k) ia = a1 + ia * (k + 1)).
  { unfold CInt.add. rewrite wrap_id; [lia|].
    unfold CInt.is_int, CInt.int_min, CInt.int_max in *.
    destruct Hia as [E|E]; rewrite E in *; lia. }
  rewrite Ha.
  unfold CInt.is_int, CInt.int_min, CInt.int_max in *.
  destruct (0 <=? line_error n m k) eqn:E;
    [apply Z.leb_le in E | apply Z.leb_gt in E].
  - assert (Hb : CInt.add (b1 + ib * line_minor n m k) ib
                 = b1 + ib * (line_minor n m k + 1)).
    { unfold CInt.add. rewrite wrap_id; [lia|].
      unfold CInt.is_int, CInt.int_min, CInt.int_max.
      destruct Hib as [E'|E']; rewrite E' in *; lia. }
    rewrite Hb. unfold CInt.sub, CInt.add.
    rewrite (wrap_id (line_error n m k - 2 * n))
      by (unfold CInt.is_int, CInt.int_min, CInt.int_max; lia).
    rewrite wrap_id
      by (unfold CInt.is_int, CInt.int_min, CInt.int_max; lia).
    reflexivity.
  - unfold CInt.add.
    rewrite wrap_id
      by (unfold CInt.is_int, CInt.int_min, CInt.int_max; lia).
    reflexivity.
Qed.

Lemma line_points_closed (cnt : nat) (k : Z) :
  0 <= k -> k + Z.of_nat cnt <= n ->
  line_points cnt ia ib (2 * n) (2 * m)
    (a1 + ia * k, b1 + ib * line_minor n m k, line_error n m k)
  = (fun j => (a1 + ia * j, b1 + ib * line_minor n m j))
      <$> seqZ k (Z.of_nat cnt + 1).
Proof.
  revert k. induction cnt as [|cnt IH]; intros k Hk Hkn.
  - rewrite seqZ_cons by lia. rewrite seqZ_nil by lia. reflexivity.
  - simpl line_points. rewrite seqZ_cons by lia. rewrite fmap_cons.
    f_equal. rewrite line_step_closed by lia.
    replace (Z.succ k) with (k + 1) by lia.
    replace (Z.pred (Z.of_nat (S cnt) + 1)) with (Z.of_nat cnt + 1) by lia.
    apply IH; lia.
Qed.

Lemma line_points_path :
  line_points (Z.to_nat n) ia ib (2 * n) (2 * m) (a1, b1, 2 * m - n)
  = line_path ia ib a1 b1 n m.
Proof.
  pose proof (line_points_closed (Z.to_nat n) 0 ltac:(lia) ltac:(lia)) as H.
  rewrite line_minor_0 in H. unfold line_error in H.
  rewrite line_minor_0 in H.
  replace (a1 + ia * 0) with a1 in H by lia.
  replace (b1 + ib * 0) with b1 in H by lia.
  replace (2 * m * (0 + 1) - n - 2 * n * 0) with (2 * m - n) in H by lia.
  rewrite H. unfold line_path. now rewrite Z2Nat.id by lia.
Qed.

(** Without a tie, the minor steps of the two directions add up. *)
Lemma line_minor_symmetric (k : Z) :
  line_no_tie n m -> 0 <= k <= n ->
  line_minor n m (n - k) = m - line_minor n m k.
Proof.
  intros Hno Hk. specialize (Hno k Hk).
  pose proof (Z.div_mod (2 * k * m + n) (2 * n) ltac:(lia)) as Hdm.
  pose proof (Z.mod_pos_bound (2 * k * m + n) (2 * n) ltac:(lia)) as Hr.
  unfold line_minor. symmetry.
  apply (Z.div_unique _ _ _ (2 * n - (2 * k * m + n) mod (2 * n))); lia.
Qed.

Lemma line_path_reverse :
  line_no_tie n m ->
  line_path (- ia) (- ib) (a1 + ia * n) (b1 + ib * m) n m
  = reverse (line_path ia ib a1 b1 n m).
Proof.
  intros Hno. unfold line_path. apply list_eq. intros i.
  destruct (decide (Z.of_nat i < n + 1)) as [Hi|Hi].
  - rewrite reverse_lookup by (rewrite length_fmap, length_seqZ; lia).
    rewrite length_fmap, length_seqZ, !list_lookup_fmap.
    rewrite !lookup_seqZ_lt by lia. simpl. f_equal.
    replace (0 + Z.of_nat (Z.to_nat (n + 1) - S i)) with (n - Z.of_nat i)
      by lia.
    rewrite line_minor_symmetric by (assumption || lia).
    rewrite Z.add_0_l. f_equal; lia.
  - rewrite !lookup_ge_None_2; [reflexivity | |];
      rewrite ?length_reverse, length_fmap, length_seqZ; lia.
Qed.

End Bresenham.

(** *** [draw_line] on a line that is neither horizontal nor vertical *)

Lemma shl1_double (a : Z) :
  0 <= a -> 2 * a <= CInt.int_max -> CInt.shl1 a = 2 * a.
Proof.
  intros H0 H1. unfold CInt.shl1. rewrite Z.shiftl_mul_pow2 by lia.
  rewrite wrap_id; [lia|].
  unfold CInt.is_int, CInt.int_min, CInt.int_max in *. lia.
Qed.

Lemma line_turns_abs (a b : Z) :
  CInt.is_int a -> CInt.is_int b ->
  line_turns a b (Z.sgn (b - a)) = Z.to_nat (Z.abs (b - a)).
Proof.
  intros Ha Hb. unfold line_turns. f_equal.
  rewrite Z.mod_small; unfold CInt.is_int, CInt.int_min, CInt.int_max in *;
    lia.
Qed.

Lemma line_deltas (a b : Z) :
  CInt.is_int a -> CInt.is_int b -> Z.abs (b - a) < 2 ^ 30 ->
  (if a <=? b then (CInt.sub b a, 1) else (CInt.sub a b, -1))
  = (Z.abs (b - a), Z.sgn (b - a)) \/ a = b.
Proof.
  intros Ha Hb Hd. destruct (Z.eq_dec a b) as [->|Hne]; [now right|left].
  unfold CInt.is_int, CInt.int_min, CInt.int_max in *.
  destruct (Z.leb_spec a b); unfold CInt.sub;
    (rewrite wrap_id
       by (unfold CInt.is_int, CInt.int_min, CInt.int_max; lia));
    f_equal; lia.
Qed.

Lemma draw_line_general (s : surface) (x1 y1 x2 y2 c : Z) :
  CInt.is_int x1 -> CInt.is_int y1 -> CInt.is_int x2 -> CInt.is_int y2 ->
  x1 <> x2 -> y1 <> y2 ->
  Z.abs (x2 - x1) < 2 ^ 30 -> Z.abs (y2 - y1) < 2 ^ 30 ->
  draw_line s x1 y1 x2 y2 c
  = if Z.abs (y2 - y1) <=? Z.abs (x2 - x1) then
      draw_points c
        (line_path (Z.sgn (x2 - x1)) (Z.sgn (y2 - y1)) x1 y1
           (Z.abs (x2 - x1)) (Z.abs (y2 - y1))) s
    else
      draw_points c
        (transpose <$>
           line_path (Z.sgn (y2 - y1)) (Z.sgn (x2 - x1)) y1 x1
             (Z.abs (y2 - y1)) (Z.abs (x2 - x1))) s.
Proof.
  intros Hx1 Hy1 Hx2 Hy2 Hx Hy Hdx Hdy. unfold draw_line.
  destruct (line_deltas x1 x2 Hx1 Hx2 Hdx) as [Ex|Ex]; [|contradiction].
  destruct (line_deltas y1 y2 Hy1 Hy2 Hdy) as [Ey|Ey]; [|contradiction].
  rewrite Ex, Ey. cbv beta iota.
  destruct (Z.eqb_spec (Z.abs (x2 - x1)) 0) as [E|_]; [lia|].
  destruct (Z.eqb_spec (Z.abs (y2 - y1)) 0) as [E|_]; [lia|].
  assert (Hfit : 2 ^ 30 <= 2 ^ 30) by lia.
  rewrite !shl1_double by (unfold CInt.int_max; lia).
  unfold CInt.sub.
  destruct (Z.leb_spec (Z.abs (y2 - y1)) (Z.abs (x2 - x1))) as [Hle|Hgt].
  - rewrite wrap_id
      by (unfold CInt.is_int, CInt.int_min, CInt.int_max; lia).
    rewrite line_loop_x_points; [|assumption|lia|assumption|lia].
    unfold default. cbn [from_option id].
    rewrite line_turns_abs by assumption.
    rewrite line_points_path; [reflexivity | lia | lia | | lia | lia
                               | assumption | | assumption | ];
      unfold CInt.is_int, CInt.int_min, CInt.int_max in *; lia.
  - rewrite wrap_id
      by (unfold CInt.is_int, CInt.int_min, CInt.int_max; lia).
    rewrite line_loop_y_points; [|assumption|lia|assumption|lia].
    unfold default. cbn [from_option id].
    rewrite line_turns_abs by assumption.
    rewrite line_points_path; [reflexivity | lia | lia | | lia | lia
                               | assumption | | assumption | ];
      unfold CInt.is_int, CInt.int_min, CInt.int_max in *; lia.
Qed.

(** Lines of an odd number of steps, and diagonals, have no tie. *)
Lemma odd_no_tie (n m : Z) : Z.odd n = true -> line_no_tie n m.
Proof.
  intros Hodd k Hk H.
  assert (Hn : n <> 0) by (intros ->; discriminate).
  apply Z.mod_divide in H; [|lia]. destruct H as [q Hq].
  assert (E : n = 2 * (q * n - k * m)) by lia.
  rewrite E, Z.odd_mul in Hodd. discriminate.
Qed.

Lemma diagonal_no_tie (n : Z) : 0 < n -> line_no_tie n n.
Proof.
  intros Hn k Hk H. apply Z.mod_divide in H; [|lia]. destruct H as [q Hq].
  assert (E : 2 * k + 1 = 2 * q) by nia. lia.
Qed.

Lemma axis_no_tie (n : Z) : 0 < n -> line_no_tie n 0.
Proof.
  intros Hn k Hk. rewrite Z.mul_0_r, Z.add_0_l.
  rewrite Z.mod_small; lia.
Qed.

(** C6, as the code has it.  The two directions of a line light the same
    pixels when the line is horizontal or vertical, and when no step of it
    has a tie, that is when [2 * k * minor + major] is a multiple of
    [2 * major] for no [k] (as on diagonals and on lines with an odd number
    of steps on their major axis); the differences are to fit in 30 bits so
    that the doubled ones are [int]s. *)
Theorem draw_line_symmetric (s : surface) (x1 y1 x2 y2 c : Z) :
  CInt.is_int x1 -> CInt.is_int y1 -> CInt.is_int x2 -> CInt.is_int y2 ->
  x1 = x2 \/ y1 = y2 \/
  (Z.abs (x2 - x1) < 2 ^ 30 /\ Z.abs (y2 - y1) < 2 ^ 30 /\
   line_no_tie (Z.max (Z.abs (x2 - x1)) (Z.abs (y2 - y1)))
               (Z.min (Z.abs (x2 - x1)) (Z.abs (y2 - y1)))) ->
  draw_line s x1 y1 x2 y2 c = draw_line s x2 y2 x1 y1 c.
Proof.
  intros Hx1 Hy1 Hx2 Hy2 H.
  destruct (Z.eq_dec x1 x2) as [Ex|Hx];
    [apply draw_line_axis_symmetric; auto|].
  destruct (Z.eq_dec y1 y2) as [Ey|Hy];
    [apply draw_line_axis_symmetric; auto|].
  destruct H as [H|[H|(Hdx & Hdy & Hno)]]; [contradiction ..|].
  rewrite (draw_line_general s x1 y1 x2 y2) by assumption.
  rewrite (draw_line_general s x2 y2 x1 y1) by (auto; lia).
  replace (x1 - x2) with (- (x2 - x1)) by lia.
  replace (y1 - y2) with (- (y2 - y1)) by lia.
  rewrite !Z.abs_opp, !Z.sgn_opp.
  assert (Ex : x2 = x1 + Z.sgn (x2 - x1) * Z.abs (x2 - x1)) by lia.
  assert (Ey : y2 = y1 + Z.sgn (y2 - y1) * Z.abs (y2 - y1)) by lia.
  destruct (Z.leb_spec (Z.abs (y2 - y1)) (Z.abs (x2 - x1))) as [Hle|Hgt].
  - rewrite Z.max_l, Z.min_r in Hno by lia.
    pose proof (line_path_reverse (Z.abs (x2 - x1)) (Z.abs (y2 - y1))
                  (Z.sgn (x2 - x1)) (Z.sgn (y2 - y1)) x1 y1
                  ltac:(lia) Hno) as Hrev.
    rewrite <- Ex, <- Ey in Hrev. rewrite Hrev.
    now rewrite draw_points_reverse.
  - rewrite Z.max_r, Z.min_l in Hno by lia.
    pose proof (line_path_reverse (Z.abs (y2 - y1)) (Z.abs (x2 - x1))
                  (Z.sgn (y2 - y1)) (Z.sgn (x2 - x1)) y1 x1
                  ltac:(lia) Hno) as Hrev.
    rewrite <- Ex, <- Ey in Hrev. rewrite Hrev.
    now rewrite fmap_reverse, draw_points_reverse.
Qed.

Lemma draw_line_symmetric_witness :
  draw_line scenario 0 0 3 1 5 = draw_line scenario 3 1 0 0 5 /\
  draw_line scenario 1 1 4 4 5 = draw_line scenario 4 4 1 1 5 /\
  draw_line scenario 3 1 3 4 5 = draw_line scenario 3 4 3 1 5.
Proof.
  assert (Hint : forall z, -10 <= z <= 10 -> CInt.is_int z).
  { intros z Hz. unfold CInt.is_int, CInt.int_min, CInt.int_max. lia. }
  split; [|split].
  - apply (draw_line_symmetric scenario 0 0 3 1 5); [apply Hint; lia ..|].
    right. right. split; [reflexivity|]. split; [reflexivity|].
    apply (odd_no_tie 3 1). reflexivity.
  - apply (draw_line_symmetric scenario 1 1 4 4 5); [apply Hint; lia ..|].
    right. right. split; [reflexivity|]. split; [reflexivity|].
    apply (diagonal_no_tie 3). lia.
  - apply (draw_line_symmetric scenario 3 1 3 4 5); [apply Hint; lia ..|].
    now left.
Defined.

(** ** [fill_rect] *)

Lemma fill_rect_column c x ys s :
  fold_left (fun s y => draw_pixel s x y c) ys s
  = draw_points c (y ← ys; [(x, y)]) s.
Proof.
  revert s. induction ys as [|y ys IH]; intros s; [reflexivity|].
  simpl. apply IH.
Qed.

(** [fill_rect] is [draw_pixel] on the pixels of [fill_rect_calls]. *)
Lemma fill_rect_as_calls (s : surface) (x1 y1 w h c : Z) :
  fill_rect s x1 y1 w h c = draw_points c (fill_rect_calls x1 y1 w h) s.
Proof.
  unfold fill_rect, fill_rect_calls, for_from.
  generalize (seqZ x1 (CInt.sub (CInt.add x1 w) 1 - x1 + 1)) as xs.
  generalize (seqZ (CInt.add y1 1)
                (CInt.sub (CInt.add y1 h) 1 - 1 - CInt.add y1 1 + 1)) as ys.
  intros ys xs. revert s. induction xs as [|x xs IH]; intros s;
    [reflexivity|].
  cbn [fold_left mbind list_bind]. rewrite draw_points_app.
  rewrite IH. now rewrite fill_rect_column.
Qed.

(** None of these pixels is in the first row of the rectangle, nor in a
    row from the last one on. *)
Lemma fill_rect_calls_rows (x1 y1 w h x y : Z) :
  (x, y) ∈ fill_rect_calls x1 y1 w h ->
  CInt.add y1 1 <= y < CInt.sub (CInt.add y1 h) 1.
Proof.
  unfold fill_rect_calls. intros H.
  apply list_elem_of_bind in H as (x' & H & _).
  apply list_elem_of_bind in H as (y' & H & Hy).
  apply list_elem_of_singleton in H. injection H as -> ->.
  apply elem_of_seqZ in Hy. lia.
Qed.

Lemma fill_rect_misses_border_rows (x1 y1 w h x : Z) :
  CInt.is_int y1 -> 1 <= h -> CInt.is_int (y1 + h) ->
  ((x, y1) ∉ fill_rect_calls x1 y1 w h) /\
  ((x, y1 + h - 1) ∉ fill_rect_calls x1 y1 w h).
Proof.
  intros H1 H2 H3.
  unfold CInt.is_int, CInt.int_min, CInt.int_max in *.
  assert (Ea : CInt.add y1 1 = y1 + 1).
  { apply wrap_id. unfold CInt.is_int, CInt.int_min, CInt.int_max. lia. }
  assert (Eb : CInt.sub (CInt.add y1 h) 1 = y1 + h - 1).
  { unfold CInt.add, CInt.sub.
    rewrite (wrap_id (y1 + h))
      by (unfold CInt.is_int, CInt.int_min, CInt.int_max; lia).
    apply wrap_id. unfold CInt.is_int, CInt.int_min, CInt.int_max. lia. }
  split; intros H; apply fill_rect_calls_rows in H; lia.
Qed.

(** C5.  [fill_rect] does not draw the whole rectangle: its inner loop
    runs over [y1 < y < y2], so the rows [y1] and [y1 + h - 1] are never
    drawn.  For a rectangle of one pixel no [draw_pixel] call is made and
    the surface is left untouched, although the pixel lies in the clip
    rectangle and [draw_pixel] on it changes the surface; of a rectangle of
    3 by 3 pixels only the middle row is drawn. *)
Theorem fill_rect_skips_border_rows :
  fill_rect_calls 2 2 1 1 = [] /\
  fill_rect scenario 2 2 1 1 5 = scenario /\
  in_clip scenario 2 2 = true /\
  draw_pixel scenario 2 2 5 <> scenario /\
  fill_rect_calls 2 2 3 3 = [(2, 3); (3, 3); (4, 3)].
Proof.
  split; [vm_compute; reflexivity|].
  split; [rewrite fill_rect_as_calls; reflexivity|].
  split; [reflexivity|].
  split; [|vm_compute; reflexivity].
  intros H. apply (f_equal (fun s => ptr s !! 90)) in H.
  vm_compute in H. discriminate.
Qed.

(** * Exact arithmetic on integers held in doubles *)

(** ** Exact results *)

(** Shifting out zero bits loses nothing. *)
Lemma shr_1_exact (r : shr_record) (c : Z) :
  shr_m r = 2 * c -> shr_r r = false -> shr_s r = false ->
  shr_1 r = {| shr_m := c; shr_r := false; shr_s := false |}.
Proof.
  destruct r as [m b s]. simpl. intros -> -> ->.
  destruct c as [|p|p]; reflexivity.
Qed.

Lemma iter_shr_1_exact (p : positive) (r : shr_record) (c : Z) :
  shr_m r = c * 2 ^ Zpos p -> shr_r r = false -> shr_s r = false ->
  SpecFloat.iter_pos shr_1 p r
  = {| shr_m := c; shr_r := false; shr_s := false |}.
Proof.
  revert r c. induction p as [p IH|p IH|]; intros r c Hm Hr Hs.
  - simpl SpecFloat.iter_pos. rewrite pow2_xI in Hm.
    rewrite (shr_1_exact r (c * 2 ^ Zpos p * 2 ^ Zpos p)); [|lia|exact Hr|exact Hs].
    rewrite (IH {| shr_m := c * 2 ^ Zpos p * 2 ^ Zpos p;
                   shr_r := false; shr_s := false |} (c * 2 ^ Zpos p));
      [|reflexivity ..].
    apply IH; reflexivity.
  - simpl SpecFloat.iter_pos. rewrite pow2_xO in Hm.
    rewrite (IH r (c * 2 ^ Zpos p)); [|lia|exact Hr|exact Hs].
    apply IH; reflexivity.
  - simpl SpecFloat.iter_pos. apply shr_1_exact; [|exact Hr|exact Hs].
    rewrite Hm. change (2 ^ 1) with 2. lia.
Qed.

Lemma Zdigits2_shift (m k : Z) :
  0 < m -> 0 <= k -> Zdigits2 (m * 2 ^ k) = Zdigits2 m + k.
Proof.
  intros Hm Hk. destruct (Zdigits2_bounds m Hm) as [Hd0 Hd].
  assert (HP : 0 < 2 ^ k) by (apply pow2_pos; lia).
  apply Zdigits2_unique; [apply Z.mul_pos_pos; lia|].
  replace (Zdigits2 m + k - 1) with (Zdigits2 m - 1 + k) by lia.
  rewrite !pow2_split by lia. split.
  - apply Z.mul_le_mono_nonneg_r; lia.
  - apply Z.mul_lt_mono_pos_r; lia.
Qed.

(** The shift of a mantissa that ends in [n] zero bits. *)
Lemma shr_fexp_exact (m0 : positive) (e n : Z) :
  Zpos (digits2_pos m0) = 53 -> 0 <= n -> -1074 <= e ->
  shr_fexp 53 1024 (Zpos m0 * 2 ^ n) e loc_Exact
  = ({| shr_m := Zpos m0; shr_r := false; shr_s := false |}, e + n).
Proof.
  intros Hd Hn He. unfold shr_fexp.
  rewrite Zdigits2_shift by lia. simpl Zdigits2. rewrite Hd.
  rewrite fexp_normal by lia.
  replace (53 + n + e - 53 - e) with n by lia.
  destruct n as [|p|p]; [| |lia].
  - rewrite Z.pow_0_r, Z.mul_1_r, Z.add_0_r. reflexivity.
  - unfold shr. f_equal. apply iter_shr_1_exact; reflexivity.
Qed.

(** Rounding a mantissa of 53 digits followed by zero bits. *)
Lemma binary_round_aux_shift (m0 : positive) (e n : Z) :
  Zpos (digits2_pos m0) = 53 -> 0 <= n -> -1074 <= e -> e + n <= 971 ->
  binary_round_aux 53 1024 false (Zpos m0 * 2 ^ n) e loc_Exact
  = S754_finite false m0 (e + n).
Proof.
  intros Hd Hn He Hen. unfold binary_round_aux.
  rewrite shr_fexp_exact by assumption.
  cbn [shr_m loc_of_shr_record round_nearest_even].
  pose proof (shr_fexp_exact m0 (e + n) 0 Hd ltac:(lia) ltac:(lia)) as Hs.
  rewrite Z.pow_0_r, Z.mul_1_r, Z.add_0_r in Hs. rewrite Hs. cbn [shr_m].
  destruct (Z.leb_spec (e + n) (1024 - 53)); [reflexivity | lia].
Qed.

(** Two positive doubles with the same value, of which one is normal. *)
Lemma fp_val_eq (p m0 : positive) (e e0 : Z) :
  2 ^ 52 <= Zpos m0 < 2 ^ 53 -> -400 <= e -> -400 <= e0 ->
  fp_val p e = fp_val m0 e0 ->
  Zpos (digits2_pos p) + e = 53 + e0 /\
  (e <= e0 -> Zpos p = Zpos m0 * 2 ^ (e0 - e)) /\
  (e0 <= e -> Zpos m0 = Zpos p * 2 ^ (e - e0)).
Proof.
  intros Hm He He0 Hv.
  assert (Hd0 : Zpos (digits2_pos m0) = 53) by (apply digits2_unique; exact Hm).
  destruct (Z_le_gt_dec e e0) as [Hle|Hgt].
  - assert (E : Zpos p = Zpos m0 * 2 ^ (e0 - e)).
    { rewrite (fp_val_shift m0 e0 e) in Hv by lia. unfold fp_val in Hv.
      apply Z.mul_reg_r in Hv; [exact Hv|]. apply Z.pow_nonzero; lia. }
    split; [|split; [intros _; exact E | intros H]].
    + change (Zpos (digits2_pos p)) with (Zdigits2 (Zpos p)).
      rewrite E, Zdigits2_shift by lia. simpl Zdigits2. lia.
    + replace e0 with e in * by lia. rewrite Z.sub_diag in *.
      simpl in E. lia.
  - assert (E : Zpos m0 = Zpos p * 2 ^ (e - e0)).
    { rewrite (fp_val_shift p e e0) in Hv by lia. unfold fp_val in Hv.
      apply Z.mul_reg_r in Hv; [now symmetry|]. apply Z.pow_nonzero; lia. }
    split; [|split; [intros H; lia | intros _; exact E]].
    change (Zpos (digits2_pos m0)) with (Zdigits2 (Zpos m0)) in Hd0.
    rewrite E, Zdigits2_shift in Hd0 by lia. simpl Zdigits2 in Hd0. lia.
Qed.

(** Rounding a number that is a normal double gives that double. *)
Lemma binary_round_aux_same (p m0 : positive) (e e0 : Z) :
  2 ^ 52 <= Zpos m0 < 2 ^ 53 -> -400 <= e <= e0 -> e0 <= 971 ->
  fp_val p e = fp_val m0 e0 ->
  binary_round_aux 53 1024 false (Zpos p) e loc_Exact = S754_finite false m0 e0.
Proof.
  intros Hm He He0 Hv.
  destruct (fp_val_eq p m0 e e0 Hm) as (_ & E & _); try assumption; try lia.
  rewrite E by lia.
  rewrite binary_round_aux_shift; try lia.
  - f_equal. lia.
  - apply digits2_unique. exact Hm.
Qed.

Lemma binary_round_same (p m0 : positive) (e e0 : Z) :
  2 ^ 52 <= Zpos m0 < 2 ^ 53 -> -400 <= e -> -400 <= e0 <= 971 ->
  fp_val p e = fp_val m0 e0 ->
  binary_round 53 1024 false p e = S754_finite false m0 e0.
Proof.
  intros Hm He He0 Hv.
  destruct (fp_val_eq p m0 e e0 Hm) as (Hd & E1 & E2); try assumption; try lia.
  unfold binary_round. rewrite Hd. rewrite fexp_normal by lia.
  replace (53 + e0 - 53) with e0 by lia.
  destruct (shl_align_spec p e e0) as [Hez Hmz].
  destruct (shl_align p e e0) as [mz ez]. cbn [fst snd] in Hez, Hmz.
  subst ez.
  apply binary_round_aux_same; try assumption; try lia.
  rewrite <- Hv. unfold fp_val. rewrite Hmz.
  rewrite <- Z.mul_assoc. f_equal. rewrite <- pow2_split by lia.
  f_equal. lia.
Qed.

(** ** Arithmetic on integers held in doubles *)

Lemma to_int_of_int (z : Z) :
  0 <= z <= CInt.int_max -> Double.to_int (Double.of_int z) = z.
Proof.
  intros Hz. unfold CInt.int_max in Hz.
  destruct (Z.eq_dec z 0) as [->|Hne]; [reflexivity|].
  destruct (of_int_normal z) as (m & e & E & Hm & He & Hv).
  { change (2 ^ 53) with (2 ^ 31 * 4194304). lia. }
  rewrite E. unfold Double.to_int, Double.trunc.
  rewrite shiftl_fp_val by lia. rewrite Hv.
  rewrite Z.div_mul by (apply Z.pow_nonzero; lia).
  unfold CInt.int_min, CInt.int_max.
  destruct (Z.leb_spec (- 2 ^ 31) z); [|lia].
  destruct (Z.leb_spec z (2 ^ 31 - 1)); [reflexivity | lia].
Qed.

(** Products and sums of integers are exact as long as they stay below
    [2 ^ 53]. *)
Lemma mul_exact (a b : Z) :
  0 <= a < 2 ^ 53 -> 0 <= b < 2 ^ 53 -> a * b < 2 ^ 53 ->
  Double.mul (Double.of_int a) (Double.of_int b) = Double.of_int (a * b).
Proof.
  intros Ha Hb Hab.
  destruct (Z.eq_dec a 0) as [->|Ha0].
  { rewrite Z.mul_0_l. destruct (Z.eq_dec b 0) as [->|Hb0]; [reflexivity|].
    destruct (of_int_normal b) as (m & e & -> & _); [lia|].
    reflexivity. }
  destruct (Z.eq_dec b 0) as [->|Hb0].
  { rewrite Z.mul_0_r.
    destruct (of_int_normal a) as (m & e & -> & _); [lia|].
    reflexivity. }
  assert (Hale : a <= a * b) by nia.
  assert (Hble : b <= a * b) by nia.
  destruct (of_int_normal a) as (ma & ea & -> & Hma & Hea & Hva); [lia|].
  destruct (of_int_normal b) as (mb & eb & -> & Hmb & Heb & Hvb); [lia|].
  destruct (of_int_normal (a * b)) as (mc & ec & -> & Hmc & Hec & Hvc); [lia|].
  unfold Double.mul, SFmul. cbn [xorb].
  assert (Hv : fp_val (ma * mb) (ea + eb) = fp_val mc ec).
  { rewrite Hvc. apply (Z.mul_reg_r _ _ fp_unit); [apply Z.pow_nonzero; lia|].
    replace (a * b * fp_unit * fp_unit) with (a * fp_unit * (b * fp_unit))
      by ring.
    rewrite <- Hva, <- Hvb. unfold fp_val, fp_unit.
    rewrite Pos2Z.inj_mul.
    replace (ea + eb + 400) with (ea + 400 + eb) by lia.
    replace (Zpos ma * Zpos mb * 2 ^ (ea + 400 + eb) * 2 ^ 400)
      with (Zpos ma * Zpos mb * (2 ^ (ea + 400 + eb) * 2 ^ 400)) by ring.
    rewrite <- pow2_split by lia.
    replace (ea + 400 + eb + 400) with ((ea + 400) + (eb + 400)) by lia.
    rewrite pow2_split by lia. ring. }
  apply binary_round_aux_same; try assumption; try lia.
  (* the product has at least 105 digits *)
  destruct (fp_val_eq (ma * mb) mc (ea + eb) ec Hmc) as (Hd & _);
    try assumption; try lia.
  assert (105 <= Zdigits2 (Zpos (ma * mb))).
  { apply Zdigits2_ge; [lia|]. rewrite Pos2Z.inj_mul.
    change (2 ^ (105 - 1)) with (2 ^ 52 * 2 ^ 52).
    apply Z.mul_le_mono_nonneg; lia. }
  simpl Zdigits2 in *. lia.
Qed.

Lemma add_exact (a b : Z) :
  0 <= a -> 0 <= b -> a + b < 2 ^ 53 ->
  Double.add (Double.of_int a) (Double.of_int b) = Double.of_int (a + b).
Proof.
  intros Ha Hb Hab.
  destruct (Z.eq_dec a 0) as [->|Ha0].
  { rewrite Z.add_0_l. destruct (Z.eq_dec b 0) as [->|Hb0]; [reflexivity|].
    destruct (of_int_normal b) as (m & e & -> & _); [lia|].
    reflexivity. }
  destruct (Z.eq_dec b 0) as [->|Hb0].
  { rewrite Z.add_0_r.
    destruct (of_int_normal a) as (m & e & -> & _); [lia|].
    reflexivity. }
  destruct (of_int_normal a) as (ma & ea & -> & Hma & Hea & Hva); [lia|].
  destruct (of_int_normal b) as (mb & eb & -> & Hmb & Heb & Hvb); [lia|].
  destruct (of_int_normal (a + b)) as (mc & ec & -> & Hmc & Hec & Hvc); [lia|].
  unfold Double.add, SFadd.
  set (ez := Z.min ea eb).
  destruct (shl_align_spec ma ea ez) as [_ Hsa].
  destruct (shl_align_spec mb eb ez) as [_ Hsb].
  rewrite Z.min_r in Hsa, Hsb by (unfold ez; lia).
  set (sa := fst (shl_align ma ea ez)) in *.
  set (sb := fst (shl_align mb eb ez)) in *.
  cbn [cond_Zopp Z.add binary_normalize].
  apply binary_round_same; try assumption; try (unfold ez; lia).
  rewrite Hvc, Z.mul_add_distr_r, <- Hva, <- Hvb.
  rewrite (fp_val_shift ma ea ez), (fp_val_shift mb eb ez) by (unfold ez; lia).
  unfold fp_val. rewrite Pos2Z.inj_add, Hsa, Hsb. ring.
Qed.

Lemma new_location_0 (n : Z) : new_location n 0 = loc_Exact.
Proof.
  unfold new_location, new_location_even, new_location_odd.
  destruct (Z.even n); reflexivity.
Qed.

(** A quotient that is an integer is exact. *)
Lemma div_exact (q s : Z) :
  1 <= q -> 1 <= s -> q * s < 2 ^ 53 ->
  Double.div (Double.of_int (q * s)) (Double.of_int s) = Double.of_int q.
Proof.
  intros Hq Hs Hqs.
  assert (Hq53 : q <= q * s) by nia.
  assert (Hs53 : s <= q * s) by nia.
  destruct (of_int_normal (q * s)) as (mL & eL & -> & HmL & HeL & HvL); [lia|].
  destruct (of_int_normal s) as (ms & es & -> & Hms & Hes & Hvs); [lia|].
  destruct (of_int_normal q) as (mq & eQ & -> & Hmq & HeQ & Hvq); [lia|].
  (* the value of the dividend is the product of the two others *)
  assert (Hv : fp_val mL eL * fp_unit = fp_val mq eQ * fp_val ms es).
  { rewrite HvL, Hvq, Hvs. ring. }
  unfold fp_val, fp_unit in Hv.
  assert (Hn : eL - es - 53 <= eQ).
  { destruct (Z_le_gt_dec (eL - es - 53) eQ) as [|Hgt]; [assumption|].
    exfalso.
    assert (E : Zpos mL * 2 ^ (eL - eQ - es) * (2 ^ (eQ + 400) * 2 ^ (es + 400))
                = Zpos mq * Zpos ms * (2 ^ (eQ + 400) * 2 ^ (es + 400))).
    { transitivity (Zpos mL * 2 ^ (eL + 400) * 2 ^ 400); [|rewrite Hv; ring].
      rewrite <- !Z.mul_assoc. f_equal. rewrite <- !pow2_split by lia.
      f_equal. lia. }
    apply Z.mul_reg_r in E;
      [|apply Z.neq_mul_0; split; apply Z.pow_nonzero; lia].
    assert (2 ^ 54 <= 2 ^ (eL - eQ - es)) by (apply Z.pow_le_mono_r; lia).
    assert (2 ^ 52 * 2 ^ 54 <= Zpos mL * 2 ^ (eL - eQ - es))
      by (apply Z.mul_le_mono_nonneg; lia).
    assert (Zpos mq * Zpos ms < 2 ^ 53 * 2 ^ 53)
      by (apply Z.mul_lt_mono_nonneg; lia).
    change (2 ^ 52 * 2 ^ 54) with (2 ^ 53 * 2 ^ 53) in *. lia. }
  set (n := eQ - (eL - es - 53)) in *.
  assert (EQ : Zpos mL * 2 ^ 53 = Zpos mq * 2 ^ n * Zpos ms).
  { assert (E : Zpos mL * 2 ^ 53 * (2 ^ (eL + 400) * 2 ^ 400)
                = Zpos mq * 2 ^ n * Zpos ms * (2 ^ (eL + 400) * 2 ^ 400)).
    { transitivity (2 ^ 53 * (Zpos mL * 2 ^ (eL + 400) * 2 ^ 400)); [ring|].
      rewrite Hv.
      transitivity (Zpos mq * Zpos ms
                    * (2 ^ 53 * 2 ^ (eQ + 400) * 2 ^ (es + 400))); [ring|].
      replace (2 ^ 53 * 2 ^ (eQ + 400) * 2 ^ (es + 400))
        with (2 ^ n * 2 ^ (eL + 400) * 2 ^ 400); [ring|].
      rewrite <- !pow2_split by (unfold n; lia).
      f_equal. unfold n. lia. }
    apply Z.mul_reg_r in E; [exact E|].
    apply Z.neq_mul_0; split; apply Z.pow_nonzero; lia. }
  unfold Double.div, SFdiv, SFdiv_core_binary. cbn [xorb Zdigits2].
  rewrite (digits2_unique mL 53), (digits2_unique ms 53) by assumption.
  replace (53 + eL - (53 + es)) with (eL - es) by lia.
  rewrite fexp_normal by lia.
  rewrite Z.min_l by lia.
  replace (eL - es - (eL - es - 53)) with 53 by lia.
  cbv iota. rewrite Z.shiftl_mul_pow2 by lia.
  assert (Ediv : Z.div_eucl (Zpos mL * 2 ^ 53) (Zpos ms)
                 = (Zpos mq * 2 ^ n, 0)).
  { pose proof (Z.div_mul (Zpos mq * 2 ^ n) (Zpos ms) ltac:(lia)) as Hd.
    pose proof (Z.mod_mul (Zpos mq * 2 ^ n) (Zpos ms) ltac:(lia)) as Hm.
    rewrite <- EQ in Hd, Hm. unfold Z.div, Z.modulo in Hd, Hm.
    destruct (Z.div_eucl (Zpos mL * 2 ^ 53) (Zpos ms)) as [a b].
    now subst. }
  rewrite Ediv, new_location_0.
  rewrite binary_round_aux_shift; try (unfold n; lia).
  - f_equal. unfold n. lia.
  - apply digits2_unique. exact Hmq.
Qed.

(** The integer part of a double between two consecutive integers. *)
Lemma to_int_between (m : positive) (e Q : Z) :
  -400 <= e -> 0 <= Q <= CInt.int_max ->
  Q * fp_unit <= fp_val m e < (Q + 1) * fp_unit ->
  Double.to_int (S754_finite false m e) = Q.
Proof.
  intros He HQ Hv. unfold Double.to_int, Double.trunc.
  rewrite shiftl_fp_val by exact He.
  assert (HU : 0 < fp_unit) by (apply pow2_pos; lia).
  assert (E : fp_val m e / fp_unit = Q).
  { symmetry. apply (Z.div_unique _ _ _ (fp_val m e - Q * fp_unit)); lia. }
  rewrite E. unfold CInt.int_min, CInt.int_max in *.
  destruct (Z.leb_spec (- 2 ^ 31) Q); [|lia].
  destruct (Z.leb_spec Q (2 ^ 31 - 1)); [reflexivity | lia].
Qed.

(** [<int>(L / s)] for two integers is the integer quotient. *)
Lemma div_floor (L s : Z) :
  0 <= L <= CInt.int_max -> 1 <= s <= CInt.int_max ->
  Double.to_int (Double.div (Double.of_int L) (Double.of_int s)) = L / s.
Proof.
  intros HL Hs. unfold CInt.int_max in *.
  assert (H53 : 2 ^ 31 * 4194304 = 2 ^ 53) by reflexivity.
  destruct (Z.eq_dec L 0) as [->|HL0].
  { destruct (of_int_normal s) as (ms & es & -> & _); [lia|].
    rewrite Z.div_0_l by lia. reflexivity. }
  pose proof (Z.div_mod L s ltac:(lia)) as Hdm.
  pose proof (Z.mod_pos_bound L s ltac:(lia)) as Hr.
  assert (HQ : 0 <= L / s) by (apply Z.div_pos; lia).
  assert (HQs : s * (L / s) <= L) by lia.
  assert (HQL : L / s <= L) by nia.
  destruct (Z.eq_dec (L mod s) 0) as [Hr0|Hr0].
  - (* the quotient is exact *)
    assert (EL : L = L / s * s) by lia.
    rewrite EL at 1. rewrite div_exact by nia.
    apply to_int_of_int. unfold CInt.int_max. lia.
  - destruct (of_int_normal L) as (mL & eL & -> & HmL & HeL & HvL); [lia|].
    destruct (of_int_normal s) as (ms & es & -> & Hms & Hes & Hvs); [lia|].
    destruct (div_bound mL ms eL es) as (m & e & -> & He & Hup & Hlow);
      try lia.
    rewrite HvL, Hvs in Hup, Hlow.
    assert (HU : 0 < fp_unit) by (apply pow2_pos; lia).
    set (Q := L / s) in *. set (v := fp_val m e) in *.
    set (E := 2 ^ 52) in *.
    assert (HE : E = 4503599627370496) by reflexivity.
    apply to_int_between; [exact He | unfold CInt.int_max; lia |].
    fold v. split.
    + (* from below *)
      destruct (Z_le_gt_dec (Q * fp_unit) v) as [|Hgt]; [assumption|].
      exfalso.
      assert (A : v * (s * fp_unit) * (E + 1)
                  <= Q * fp_unit * (s * fp_unit) * (E + 1)).
      { apply Z.mul_le_mono_nonneg_r; [lia|].
        apply Z.mul_le_mono_nonneg_r; [nia | lia]. }
      assert (B : Q * s * (E + 1) <= L * E) by nia.
      assert (C : Q * s * (E + 1) * (fp_unit * fp_unit)
                  <= L * E * (fp_unit * fp_unit)).
      { apply Z.mul_le_mono_nonneg_r; [nia | exact B]. }
      nia.
    + (* from above *)
      destruct (Z_lt_le_dec v ((Q + 1) * fp_unit)) as [|Hge]; [assumption|].
      exfalso.
      assert (A : (Q + 1) * fp_unit * (s * fp_unit) * E
                  <= v * (s * fp_unit) * E).
      { apply Z.mul_le_mono_nonneg_r; [lia|].
        apply Z.mul_le_mono_nonneg_r; [nia | lia]. }
      assert (B : L * (E + 1) < (Q + 1) * s * E) by nia.
      assert (C : L * (E + 1) * (fp_unit * fp_unit)
                  < (Q + 1) * s * E * (fp_unit * fp_unit)).
      { apply Z.mul_lt_mono_pos_r; [nia | exact B]. }
      nia.
Qed.

(** * The pixels of the drawing primitives *)

Lemma draw_points_frame c l s : frame (draw_points c l s) = frame s.
Proof.
  revert s. induction l as [|p l IH]; intros s; [reflexivity|].
  rewrite draw_points_cons, IH. apply draw_pixel_frame.
Qed.

Lemma draw_points_snoc c l p s :
  draw_points c (l ++ [p]) s = draw_pixel (draw_points c l s) p.1 p.2 c.
Proof. now rewrite draw_points_app. Qed.

(** The pixel buffer after one [draw_pixel]. *)
Lemma draw_pixel_ptr (s : surface) (x y c k : Z) :
  ptr (draw_pixel s x y c) !! k
  = if in_clip s x y && (pixel_index s x y =? k)
    then Some (CInt.to_uchar c) else ptr s !! k.
Proof.
  unfold draw_pixel. destruct (in_clip s x y); [|reflexivity].
  cbn [andb]. change (ptr (set_ptr ?p s)) with p.
  destruct (Z.eqb_spec (pixel_index s x y) k) as [->|Hne].
  - apply lookup_insert_eq.
  - now apply lookup_insert_ne.
Qed.

(** Drawing a list of points paints them. *)
Lemma draw_points_paints c l s :
  paints s (draw_points c l s) c (fun x y => (x, y) ∈ l).
Proof.
  induction l as [|[px py] l IH] using rev_ind.
  - split; [reflexivity|]. split.
    + intros x y H. now apply elem_of_nil in H.
    + reflexivity.
  - destruct IH as (Hf & Hin & Hout).
    rewrite draw_points_snoc. cbn [fst snd].
    split; [now rewrite draw_pixel_frame|]. split.
    + intros x y H Hc. rewrite draw_pixel_ptr.
      rewrite (frame_in_clip _ _ _ _ Hf), (frame_pixel_index _ _ _ _ Hf).
      destruct (in_clip s px py && (pixel_index s px py =? pixel_index s x y))
        eqn:E; [reflexivity|].
      apply elem_of_app in H as [H|H]; [now apply Hin|].
      apply list_elem_of_singleton in H. injection H as -> ->.
      rewrite Hc, Z.eqb_refl in E. discriminate.
    + intros k Hk. rewrite draw_pixel_ptr.
      rewrite (frame_in_clip _ _ _ _ Hf), (frame_pixel_index _ _ _ _ Hf).
      destruct (in_clip s px py) eqn:Ec; cbn [andb].
      * destruct (Z.eqb_spec (pixel_index s px py) k) as [E|_].
        { exfalso. apply (Hk px py); [|exact Ec|exact E].
          apply elem_of_app. right. now apply list_elem_of_singleton. }
        apply Hout. intros x y H. apply Hk. apply elem_of_app. now left.
      * apply Hout. intros x y H. apply Hk. apply elem_of_app. now left.
Qed.

Lemma paints_ext (s s' : surface) (c : Z) (P Q : Z -> Z -> Prop) :
  (forall x y, P x y <-> Q x y) -> paints s s' c P -> paints s s' c Q.
Proof.
  intros HPQ (Hf & Hin & Hout). split; [exact Hf|]. split.
  - intros x y H. apply Hin. now apply HPQ.
  - intros k Hk. apply Hout. intros x y H. apply Hk. now apply HPQ.
Qed.

(** Painting nothing changes nothing. *)
Lemma paints_nothing (s s' : surface) (c : Z) (P : Z -> Z -> Prop) :
  (forall x y, ~ P x y) -> paints s s' c P -> s' = s.
Proof.
  intros HP (Hf & _ & Hout). apply frame_ptr_eq; [exact Hf|].
  apply map_eq. intros k. apply Hout. intros x y H. now apply HP in H.
Qed.

(** A counted loop of draws is one list of points. *)
Lemma for_from_points (c lo hi : Z) (f : Z -> list (Z * Z)) (s : surface) :
  for_from lo hi (fun v s => draw_points c (f v) s) s
  = draw_points c (v ← seqZ lo (hi - lo + 1); f v) s.
Proof.
  unfold for_from. generalize (seqZ lo (hi - lo + 1)) as l. intros l.
  revert s. induction l as [|v l IH]; intros s; [reflexivity|].
  cbn [fold_left mbind list_bind]. rewrite draw_points_app. apply IH.
Qed.

(** The corners of a rectangle whose far corner is an [int]. *)
Lemma rect_corner (a n : Z) :
  CInt.is_int a -> 1 <= n -> a + n <= CInt.int_max ->
  CInt.sub (CInt.add a n) 1 = a + n - 1 /\ CInt.add a 1 = a + 1.
Proof.
  unfold CInt.is_int, CInt.int_min, CInt.int_max. intros Ha Hn Han.
  unfold CInt.add, CInt.sub.
  rewrite (wrap_id (a + n))
    by (unfold CInt.is_int, CInt.int_min, CInt.int_max; lia).
  split; apply wrap_id; unfold CInt.is_int, CInt.int_min, CInt.int_max; lia.
Qed.

Lemma fill_rect_paints (s : surface) (x1 y1 w h c : Z) :
  CInt.is_int x1 -> CInt.is_int y1 -> 1 <= w -> 1 <= h ->
  x1 + w <= CInt.int_max -> y1 + h <= CInt.int_max ->
  paints s (fill_rect s x1 y1 w h c) c
    (fun x y => x1 <= x <= x1 + w - 1 /\ y1 < y < y1 + h - 1).
Proof.
  intros Hx1 Hy1 Hw Hh Hxw Hyh.
  destruct (rect_corner x1 w Hx1 Hw Hxw) as [Ex2 _].
  destruct (rect_corner y1 h Hy1 Hh Hyh) as [Ey2 Ey1].
  rewrite fill_rect_as_calls.
  apply (paints_ext _ _ _ (fun x y => (x, y) ∈ fill_rect_calls x1 y1 w h));
    [|apply draw_points_paints].
  intros x y. unfold fill_rect_calls. rewrite Ex2, Ey2, Ey1. split.
  - intros H. apply list_elem_of_bind in H as (x' & H & Hx).
    apply list_elem_of_bind in H as (y' & H & Hy).
    apply list_elem_of_singleton in H. injection H as -> ->.
    apply elem_of_seqZ in Hx, Hy. lia.
  - intros [Hx Hy]. apply list_elem_of_bind. exists x. split.
    + apply list_elem_of_bind. exists y. split.
      * now apply list_elem_of_singleton.
      * apply elem_of_seqZ. lia.
    + apply elem_of_seqZ. lia.
Qed.

(** X1.  [fill_rect] stores the colour at the pixels of the columns
    [x1 .. x1 + w - 1] in the rows strictly between [y1] and [y1 + h - 1]
    that lie inside the clip rectangle, and changes nothing else. *)
Theorem fill_rect_interior (s : surface) (x1 y1 w h c : Z) :
  CInt.is_int x1 -> CInt.is_int y1 -> 1 <= w -> 1 <= h ->
  x1 + w <= CInt.int_max -> y1 + h <= CInt.int_max ->
  paints s (fill_rect s x1 y1 w h c) c
    (fun x y => x1 <= x <= x1 + w - 1 /\ y1 < y < y1 + h - 1).
Proof. apply fill_rect_paints. Qed.

Lemma fill_rect_interior_witness :
  ptr (fill_rect scenario 2 2 3 3 5) !! pixel_index scenario 3 3 = Some 5 /\
  ptr (fill_rect scenario 2 2 3 3 5) !! pixel_index scenario 3 2
  = ptr scenario !! pixel_index scenario 3 2.
Proof.
  assert (Hint : forall z, -10 <= z <= 10 -> CInt.is_int z).
  { intros z Hz. unfold CInt.is_int, CInt.int_min, CInt.int_max. lia. }
  destruct (fill_rect_interior scenario 2 2 3 3 5) as (_ & Hin & Hout);
    [apply Hint; lia | apply Hint; lia | lia | lia
    | unfold CInt.int_max; lia | unfold CInt.int_max; lia |].
  split.
  - apply (Hin 3 3); [lia | reflexivity].
  - apply Hout. intros x y [Hx Hy] _.
    assert (y = 3) by lia. subst y.
    assert (Hc : x = 2 \/ x = 3 \/ x = 4) by lia.
    destruct Hc as [->|[->| ->]]; vm_compute; discriminate.
Defined.

(** [draw_rect] is [draw_pixel] on the pixels of [draw_rect_calls]. *)
Lemma draw_rect_as_calls (s : surface) (x1 y1 w h c : Z) :
  draw_rect s x1 y1 w h c = draw_points c (draw_rect_calls x1 y1 w h) s.
Proof.
  unfold draw_rect, draw_rect_calls. rewrite draw_points_app.
  rewrite <- !for_from_points. reflexivity.
Qed.

Lemma draw_rect_paints (s : surface) (x1 y1 w h c : Z) :
  CInt.is_int x1 -> CInt.is_int y1 -> 1 <= w -> 1 <= h ->
  x1 + w <= CInt.int_max -> y1 + h <= CInt.int_max ->
  paints s (draw_rect s x1 y1 w h c) c
    (fun x y =>
       x1 <= x <= x1 + w - 1 /\ y1 <= y <= y1 + h - 1 /\
       (x = x1 \/ x = x1 + w - 1 \/ y = y1 \/ y = y1 + h - 1)).
Proof.
  intros Hx1 Hy1 Hw Hh Hxw Hyh.
  destruct (rect_corner x1 w Hx1 Hw Hxw) as [Ex2 _].
  destruct (rect_corner y1 h Hy1 Hh Hyh) as [Ey2 Ey1].
  rewrite draw_rect_as_calls.
  apply (paints_ext _ _ _ (fun x y => (x, y) ∈ draw_rect_calls x1 y1 w h));
    [|apply draw_points_paints].
  intros x y. unfold draw_rect_calls. rewrite Ex2, Ey2, Ey1.
  rewrite elem_of_app, !list_elem_of_bind. split.
  - intros [(x' & H & Hx)|(y' & H & Hy)].
    + apply elem_of_seqZ in Hx.
      apply elem_of_cons in H as [H|H];
        [|apply list_elem_of_singleton in H]; injection H as -> ->; lia.
    + apply elem_of_seqZ in Hy.
      apply elem_of_cons in H as [H|H];
        [|apply list_elem_of_singleton in H]; injection H as -> ->; lia.
  - intros (Hx & Hy & Hb).
    destruct (decide (y = y1)) as [->|Hn1].
    { left. exists x. split; [left | apply elem_of_seqZ; lia]. }
    destruct (decide (y = y1 + h - 1)) as [->|Hn2].
    { left. exists x. split; [right; left | apply elem_of_seqZ; lia]. }
    right. exists y. split; [|apply elem_of_seqZ; lia].
    destruct (decide (x = x1)) as [->|Hn3]; [left|].
    assert (E : x = x1 + w - 1) by lia. rewrite E. right. left.
Qed.

(** X2.  [draw_rect] stores the colour at the pixels of the outline of the
    rectangle with corners [(x1, y1)] and [(x1 + w - 1, y1 + h - 1)] that lie
    inside the clip rectangle, and changes nothing else. *)
Theorem draw_rect_outline (s : surface) (x1 y1 w h c : Z) :
  CInt.is_int x1 -> CInt.is_int y1 -> 1 <= w -> 1 <= h ->
  x1 + w <= CInt.int_max -> y1 + h <= CInt.int_max ->
  paints s (draw_rect s x1 y1 w h c) c
    (fun x y =>
       x1 <= x <= x1 + w - 1 /\ y1 <= y <= y1 + h - 1 /\
       (x = x1 \/ x = x1 + w - 1 \/ y = y1 \/ y = y1 + h - 1)).
Proof. apply draw_rect_paints. Qed.

Lemma draw_rect_outline_witness :
  ptr (draw_rect scenario 2 2 3 3 5) !! pixel_index scenario 3 2 = Some 5 /\
  ptr (draw_rect scenario 2 2 3 3 5) !! pixel_index scenario 3 3
  = ptr scenario !! pixel_index scenario 3 3.
Proof.
  assert (Hint : forall z, -10 <= z <= 10 -> CInt.is_int z).
  { intros z Hz. unfold CInt.is_int, CInt.int_min, CInt.int_max. lia. }
  destruct (draw_rect_outline scenario 2 2 3 3 5) as (_ & Hin & Hout);
    [apply Hint; lia | apply Hint; lia | lia | lia
    | unfold CInt.int_max; lia | unfold CInt.int_max; lia |].
  split.
  - apply (Hin 3 2); [lia | reflexivity].
  - apply Hout. intros x y (Hx & Hy & Hb) _.
    assert (Hxs : x = 2 \/ x = 3 \/ x = 4) by lia.
    assert (Hys : y = 2 \/ y = 3 \/ y = 4) by lia.
    destruct Hxs as [->|[->| ->]]; destruct Hys as [->|[->| ->]];
      try (vm_compute; discriminate); lia.
Defined.

(** X3.  [draw_square] with an odd length [2 * r + 1] stores the colour at
    the pixels at distance [r] from [(x, y)], in the maximum norm, that lie
    inside the clip rectangle: the outline of the square centred there.
    Nothing else changes; for [r > 0] the centre itself is not drawn. *)
Theorem draw_square_centred (s : surface) (x y r c : Z) :
  0 <= r -> 2 * r + 1 <= CInt.int_max ->
  CInt.int_min <= x - r -> x + r < CInt.int_max ->
  CInt.int_min <= y - r -> y + r < CInt.int_max ->
  paints s (draw_square s x y (2 * r + 1) c) c
    (fun x' y' => Z.max (Z.abs (x' - x)) (Z.abs (y' - y)) = r).
Proof.
  intros Hr Hl Hx0 Hx1 Hy0 Hy1. unfold draw_square.
  assert (Er : CInt.shr1 (CInt.sub (2 * r + 1) 1) = r).
  { unfold CInt.shr1, CInt.sub.
    rewrite wrap_id
      by (unfold CInt.is_int, CInt.int_min, CInt.int_max in *; lia).
    rewrite Z.shiftr_div_pow2 by lia. change (2 ^ 1) with 2.
    replace (2 * r + 1 - 1) with (r * 2) by lia. apply Z.div_mul. lia. }
  rewrite Er.
  assert (Ex : CInt.sub x r = x - r)
    by (apply wrap_id;
        unfold CInt.is_int, CInt.int_min, CInt.int_max in *; lia).
  assert (Ey : CInt.sub y r = y - r)
    by (apply wrap_id;
        unfold CInt.is_int, CInt.int_min, CInt.int_max in *; lia).
  rewrite Ex, Ey.
  eapply paints_ext; [|apply draw_rect_paints;
    unfold CInt.is_int, CInt.int_min, CInt.int_max in *; lia].
  intros x' y'. cbv beta. lia.
Qed.

Lemma draw_square_centred_witness :
  ptr (draw_square scenario 5 5 5 22) !! pixel_index scenario 7 4 = Some 22 /\
  ptr (draw_square scenario 5 5 5 22) !! pixel_index scenario 5 5
  = ptr scenario !! pixel_index scenario 5 5.
Proof.
  destruct (draw_square_centred scenario 5 5 2 22) as (_ & Hin & Hout);
    [lia | unfold CInt.int_max; lia
    | unfold CInt.int_min; lia | unfold CInt.int_max; lia
    | unfold CInt.int_min; lia | unfold CInt.int_max; lia |].
  split.
  - apply (Hin 7 4); [lia | reflexivity].
  - apply Hout. intros x' y' H _.
    assert (Hxs : x' = 3 \/ x' = 4 \/ x' = 5 \/ x' = 6 \/ x' = 7) by lia.
    assert (Hys : y' = 3 \/ y' = 4 \/ y' = 5 \/ y' = 6 \/ y' = 7) by lia.
    destruct Hxs as [->|[->|[->|[->| ->]]]];
      destruct Hys as [->|[->|[->|[->| ->]]]];
      try (vm_compute; discriminate); lia.
Defined.

Lemma draw_line_single (s : surface) (x y c : Z) :
  draw_line s x y x y c = draw_pixel s x y c.
Proof.
  unfold draw_line. rewrite !Z.leb_refl, !sub_diag_wrap.
  cbn [Z.eqb Z.ltb Z.compare]. unfold for_from.
  replace (y - y + 1) with 1 by lia. reflexivity.
Qed.


(** ** The pixels of a line *)

Lemma line_minor_iff (n m k q : Z) :
  0 < n -> q = line_minor n m k <-> - n <= 2 * (k * m - q * n) < n.
Proof.
  intros Hn. unfold line_minor. split.
  - intros ->.
    pose proof (Z.mul_div_le (2 * k * m + n) (2 * n) ltac:(lia)).
    pose proof (Z.mul_succ_div_gt (2 * k * m + n) (2 * n) ltac:(lia)).
    lia.
  - intros H. apply (Z.div_unique _ _ _ (2 * k * m + n - 2 * n * q)); lia.
Qed.

Lemma line_path_elem (ia ib a1 b1 n m a b : Z) :
  (a, b) ∈ line_path ia ib a1 b1 n m <->
  exists k, 0 <= k <= n /\ a = a1 + ia * k /\ b = b1 + ib * line_minor n m k.
Proof.
  unfold line_path. rewrite list_elem_of_fmap. split.
  - intros (k & E & Hk). apply elem_of_seqZ in Hk. injection E as -> ->.
    exists k. repeat split; lia.
  - intros (k & Hk & -> & ->). exists k. split; [reflexivity|].
    apply elem_of_seqZ. lia.
Qed.

(** The points of a path, by their offset from the ideal line. *)
Lemma line_path_offset (ia ib a1 b1 n m a b : Z) :
  0 < n -> ia = 1 \/ ia = -1 -> ib = 1 \/ ib = -1 ->
  (a, b) ∈ line_path ia ib a1 b1 n m <->
  0 <= ia * (a - a1) <= n /\
  - n <= 2 * (ia * (a - a1) * m - ib * (b - b1) * n) < n.
Proof.
  intros Hn Hia Hib. rewrite line_path_elem. split.
  - intros (k & Hk & -> & ->).
    pose proof (proj1 (line_minor_iff n m k _ Hn) eq_refl) as H.
    destruct Hia as [-> | ->], Hib as [-> | ->]; split; try lia;
      match goal with
      | |- context [?u * (?a + ?v * k - ?a) * m] =>
          replace (u * (a + v * k - a) * m) with (k * m) by ring
      end;
      match goal with
      | |- context [?u * (?a + ?v * ?q - ?a) * n] =>
          replace (u * (a + v * q - a) * n) with (q * n) by ring
      end; exact H.
  - intros [Hk H]. exists (ia * (a - a1)). split; [exact Hk|].
    split; [destruct Hia as [-> | ->]; lia|].
    assert (E : ib * (b - b1) = line_minor n m (ia * (a - a1)))
      by (apply line_minor_iff; [exact Hn | exact H]).
    rewrite <- E. destruct Hib as [-> | ->]; lia.
Qed.

Lemma for_from_pixels_row (c lo hi y : Z) (s : surface) :
  for_from lo hi (fun x s => draw_pixel s x y c) s
  = draw_points c (x ← seqZ lo (hi - lo + 1); [(x, y)]) s.
Proof. apply (for_from_points c lo hi (fun x => [(x, y)])). Qed.

Lemma for_from_pixels_column (c lo hi x : Z) (s : surface) :
  for_from lo hi (fun y s => draw_pixel s x y c) s
  = draw_points c (y ← seqZ lo (hi - lo + 1); [(x, y)]) s.
Proof. apply (for_from_points c lo hi (fun y => [(x, y)])). Qed.

Lemma draw_line_paints (s : surface) (x1 y1 x2 y2 c : Z) :
  CInt.is_int x1 -> CInt.is_int y1 -> CInt.is_int x2 -> CInt.is_int y2 ->
  Z.abs (x2 - x1) < 2 ^ 30 -> Z.abs (y2 - y1) < 2 ^ 30 ->
  (x1, y1) <> (x2, y2) ->
  paints s (draw_line s x1 y1 x2 y2 c) c
    (fun x y =>
       if Z.abs (y2 - y1) <=? Z.abs (x2 - x1) then
         Z.min x1 x2 <= x <= Z.max x1 x2 /\
         - Z.abs (x2 - x1) <= 2 * line_offset x1 y1 x2 y2 x y
                            < Z.abs (x2 - x1)
       else
         Z.min y1 y2 <= y <= Z.max y1 y2 /\
         - Z.abs (y2 - y1) < 2 * line_offset x1 y1 x2 y2 x y
                           <= Z.abs (y2 - y1)).
Proof.
  intros Hx1 Hy1 Hx2 Hy2 Hdx Hdy Hne.
  destruct (Z.eq_dec x1 x2) as [<-|Hx].
  { (* a vertical line *)
    assert (Hy : y1 <> y2) by congruence.
    rewrite draw_line_vertical, for_from_pixels_column.
    eapply paints_ext; [|apply draw_points_paints].
    intros x y. cbv beta. unfold line_offset.
    rewrite Z.sub_diag, Z.mul_0_l, Z.mul_0_r.
    change (Z.abs 0) with 0. change (0 <=? 0) with true. cbv iota.
    destruct (Z.leb_spec (Z.abs (y2 - y1)) 0) as [H|_]; [lia|].
    rewrite list_elem_of_bind. split.
    - intros (y' & H & Hy'). apply list_elem_of_singleton in H.
      injection H as -> ->. apply elem_of_seqZ in Hy'.
      rewrite Z.sub_diag. lia.
    - intros [Hy' H]. assert (x = x1) by nia. subst x.
      exists y. split; [now apply list_elem_of_singleton|].
      apply elem_of_seqZ. lia. }
  destruct (Z.eq_dec y1 y2) as [<-|Hy].
  { (* a horizontal line *)
    rewrite draw_line_horizontal by assumption.
    rewrite for_from_pixels_row.
    eapply paints_ext; [|apply draw_points_paints].
    intros x y. cbv beta. unfold line_offset.
    rewrite Z.sub_diag, !Z.mul_0_r.
    change (Z.abs 0) with 0. change (0 <=? 0) with true. cbv iota.
    destruct (Z.leb_spec 0 (Z.abs (x2 - x1))) as [_|H]; [|lia].
    rewrite list_elem_of_bind. split.
    - intros (x' & H & Hx'). apply list_elem_of_singleton in H.
      injection H as -> ->. apply elem_of_seqZ in Hx'.
      rewrite Z.sub_diag. lia.
    - intros [Hx' H]. assert (y = y1) by nia. subst y.
      exists x. split; [now apply list_elem_of_singleton|].
      apply elem_of_seqZ. lia. }
  (* the general case *)
  rewrite draw_line_general by assumption.
  set (dx := x2 - x1) in *. set (dy := y2 - y1) in *.
  assert (Hsx : Z.sgn dx = 1 \/ Z.sgn dx = -1) by lia.
  assert (Hsy : Z.sgn dy = 1 \/ Z.sgn dy = -1) by lia.
  assert (Hs : (if 0 <=? dx * dy then 1 else -1) = Z.sgn dx * Z.sgn dy).
  { destruct (Z.leb_spec 0 (dx * dy)); nia. }
  assert (Edx : dx = Z.sgn dx * Z.abs dx) by lia.
  assert (Edy : dy = Z.sgn dy * Z.abs dy) by lia.
  destruct (Z.leb_spec (Z.abs dy) (Z.abs dx)) as [Hle|Hgt].
  - eapply paints_ext; [|apply draw_points_paints].
    intros x y. cbv beta. unfold line_offset. fold dx dy. rewrite Hs.
    rewrite line_path_offset by (assumption || lia).
    set (ix := Z.sgn dx) in *. set (iy := Z.sgn dy) in *.
    set (n := Z.abs dx) in *. set (m := Z.abs dy) in *.
    assert (E : ix * iy * ((x - x1) * dy - (y - y1) * dx)
                = ix * (x - x1) * m - iy * (y - y1) * n).
    { rewrite Edx, Edy.
      destruct Hsx as [-> | ->], Hsy as [-> | ->]; ring. }
    rewrite E.
    assert (Hr : 0 <= ix * (x - x1) <= n <-> Z.min x1 x2 <= x <= Z.max x1 x2).
    { unfold ix, n, dx. lia. }
    rewrite Hr. reflexivity.
  - eapply paints_ext; [|apply draw_points_paints].
    intros x y. cbv beta. unfold line_offset. fold dx dy. rewrite Hs.
    rewrite list_elem_of_fmap.
    set (ix := Z.sgn dx) in *. set (iy := Z.sgn dy) in *.
    set (n := Z.abs dy) in *. set (m := Z.abs dx) in *.
    assert (E : ix * iy * ((x - x1) * dy - (y - y1) * dx)
                = - (iy * (y - y1) * m - ix * (x - x1) * n)).
    { rewrite Edx, Edy.
      destruct Hsx as [-> | ->], Hsy as [-> | ->]; ring. }
    rewrite E.
    assert (Hr : 0 <= iy * (y - y1) <= n <-> Z.min y1 y2 <= y <= Z.max y1 y2).
    { unfold iy, n, dy. lia. }
    rewrite <- Hr. split.
    + intros ([b a] & Et & Hp). unfold transpose in Et. injection Et as -> ->.
      apply line_path_offset in Hp; [|lia|assumption|assumption].
      cbn [fst snd]. lia.
    + intros [Hk H]. exists (y, x). split; [reflexivity|].
      apply line_path_offset; [lia | assumption | assumption |]. lia.
Qed.



(** X6.  A line joins its two end points: [draw_line] stores the colour
    at both of them, as far as they lie inside the clip rectangle. *)
Theorem draw_line_ends_painted (s : surface) (x1 y1 x2 y2 c : Z) :
  CInt.is_int x1 -> CInt.is_int y1 -> CInt.is_int x2 -> CInt.is_int y2 ->
  Z.abs (x2 - x1) < 2 ^ 30 -> Z.abs (y2 - y1) < 2 ^ 30 ->
  (in_clip s x1 y1 = true ->
     ptr (draw_line s x1 y1 x2 y2 c) !! pixel_index s x1 y1
     = Some (CInt.to_uchar c)) /\
  (in_clip s x2 y2 = true ->
     ptr (draw_line s x1 y1 x2 y2 c) !! pixel_index s x2 y2
     = Some (CInt.to_uchar c)).
Proof.
  intros Hx1 Hy1 Hx2 Hy2 Hdx Hdy.
  destruct (decide ((x1, y1) = (x2, y2))) as [[= <- <-]|Hne].
  { rewrite draw_line_single, draw_pixel_ptr.
    split; intros ->; now rewrite Z.eqb_refl. }
  destruct (draw_line_paints s x1 y1 x2 y2 c Hx1 Hy1 Hx2 Hy2 Hdx Hdy Hne)
    as (_ & Hin & _).
  assert (Hd : x1 <> x2 \/ y1 <> y2).
  { destruct (Z.eq_dec x1 x2) as [->|]; [|now left].
    right. intros ->. now apply Hne. }
  split; intros Hc; apply Hin; try exact Hc; unfold line_offset.
  - replace ((x1 - x1) * (y2 - y1) - (y1 - y1) * (x2 - x1)) with 0 by ring.
    rewrite !Z.mul_0_r.
    destruct (Z.leb_spec (Z.abs (y2 - y1)) (Z.abs (x2 - x1))); lia.
  - replace ((x2 - x1) * (y2 - y1) - (y2 - y1) * (x2 - x1)) with 0 by ring.
    rewrite !Z.mul_0_r.
    destruct (Z.leb_spec (Z.abs (y2 - y1)) (Z.abs (x2 - x1))); lia.
Qed.

Lemma draw_line_ends_painted_witness :
  ptr (draw_line scenario 2 2 6 4 5) !! pixel_index scenario 2 2 = Some 5 /\
  ptr (draw_line scenario 2 2 6 4 5) !! pixel_index scenario 6 4 = Some 5.
Proof.
  assert (Hint : forall z, -10 <= z <= 10 -> CInt.is_int z).
  { intros z Hz. unfold CInt.is_int, CInt.int_min, CInt.int_max. lia. }
  destruct (draw_line_ends_painted scenario 2 2 6 4 5) as [H1 H2];
    [apply Hint; lia | apply Hint; lia | apply Hint; lia | apply Hint; lia
    | vm_compute; reflexivity | vm_compute; reflexivity |].
  split; [apply H1 | apply H2]; reflexivity.
Defined.

(** * What drawing leaves in place *)

Section BetweenRules.
Context (R : surface -> surface -> Prop).
Hypothesis (R_refl : forall s, R s s).
Hypothesis (R_trans : forall s1 s2 s3, R s1 s2 -> R s2 s3 -> R s1 s3).

Lemma between_bind {A B} (m : Surf A) (f : A -> Surf B) :
  between R m -> (forall a, between R (f a)) -> between R (m ≫= f).
Proof.
  intros Hm Hf s. unfold mbind, Surf_bind.
  specialize (Hm s). destruct (m s) as [[a|e] s1]; cbn [snd] in *.
  - eapply R_trans; [exact Hm | apply Hf].
  - exact Hm.
Qed.

Lemma between_ret {A} (a : A) : between R (mret a : Surf A).
Proof. intros s. apply R_refl. Qed.

Lemma between_lift {A} (r : res A) : between R (lift r).
Proof. intros s. apply R_refl. Qed.

Lemma between_raise {A} (e : exn) : between R (raise e : Surf A).
Proof. intros s. apply R_refl. Qed.

Lemma between_field {A} (f : surface -> A) : between R (field f).
Proof. intros s. apply R_refl. Qed.

Lemma between_skip : between R skip.
Proof. intros s. apply R_refl. Qed.

Lemma between_update (f : surface -> surface) :
  (forall s, R s (f s)) -> between R (update f).
Proof. intros H s. apply H. Qed.

Lemma between_when (b : bool) (m : Surf unit) :
  between R m -> between R (when b m).
Proof. intros H. destruct b; [exact H | apply between_skip]. Qed.

Lemma between_for_each {A} (l : list Z) (body : Z -> A -> Surf A) (a : A) :
  (forall i a, between R (body i a)) -> between R (for_each_surf l body a).
Proof.
  intros Hb. revert a. induction l as [|i l IH]; intros a; simpl.
  - apply between_ret.
  - apply between_bind; [apply Hb | apply IH].
Qed.

(** The primitives are made of [draw_pixel] calls in one colour. *)
Context (c : Z).
Hypothesis (R_pixel : forall s x y, R s (draw_pixel s x y c)).

Lemma for_from_between (lo hi : Z) (body : Z -> surface -> surface) s :
  (forall v s, R s (body v s)) -> R s (for_from lo hi body s).
Proof.
  intros Hb. unfold for_from.
  generalize (seqZ lo (hi - lo + 1)). intros l. revert s.
  induction l as [|v l IH]; intros s; simpl; [apply R_refl|].
  eapply R_trans; [apply Hb | apply IH].
Qed.

Lemma draw_rect_between s x1 y1 w h : R s (draw_rect s x1 y1 w h c).
Proof.
  unfold draw_rect.
  eapply R_trans; apply for_from_between; intros;
    (eapply R_trans; apply R_pixel).
Qed.

Lemma fill_rect_between s x1 y1 w h : R s (fill_rect s x1 y1 w h c).
Proof.
  unfold fill_rect. apply for_from_between. intros.
  apply for_from_between. intros. apply R_pixel.
Qed.

Lemma draw_square_between s x y l : R s (draw_square s x y l c).
Proof. apply draw_rect_between. Qed.

Lemma line_loop_x_between fuel x2 ix iy dx dy s x y e s' :
  line_loop_x fuel x2 ix iy dx dy c s x y e = Some s' -> R s s'.
Proof.
  revert s x y e. induction fuel as [|fuel IH]; intros s x y e; simpl.
  - destruct (x =? x2); [|discriminate].
    intros [= <-]. apply R_pixel.
  - destruct (x =? x2).
    + intros [= <-]. apply R_pixel.
    + destruct (line_step ix iy dx dy (x, y, e)) as [[x' y'] e'].
      intros H. eapply R_trans; [apply R_pixel | eapply IH; exact H].
Qed.

Lemma line_loop_y_between fuel y2 ix iy dx dy s x y e s' :
  line_loop_y fuel y2 ix iy dx dy c s x y e = Some s' -> R s s'.
Proof.
  revert s x y e. induction fuel as [|fuel IH]; intros s x y e; simpl.
  - destruct (y =? y2); [|discriminate].
    intros [= <-]. apply R_pixel.
  - destruct (y =? y2).
    + intros [= <-]. apply R_pixel.
    + destruct (line_step iy ix dy dx (y, x, e)) as [[y' x'] e'].
      intros H. eapply R_trans; [apply R_pixel | eapply IH; exact H].
Qed.

Lemma draw_line_between s x1 y1 x2 y2 : R s (draw_line s x1 y1 x2 y2 c).
Proof.
  unfold draw_line.
  destruct (if x1 <=? x2 then _ else _) as [dx ix].
  destruct (if y1 <=? y2 then _ else _) as [dy iy].
  destruct (dx =? 0).
  { destruct (if iy <? 0 then _ else _) as [ya yb].
    apply for_from_between. intros. apply R_pixel. }
  destruct (dy =? 0).
  { destruct (if ix <? 0 then _ else _) as [xa xb].
    apply for_from_between. intros. apply R_pixel. }
  destruct (dy <=? dx).
  - destruct (line_loop_x _ _ _ _ _ _ _ _ _ _ _) as [s'|] eqn:E; simpl;
      [eapply line_loop_x_between; eauto | apply R_refl].
  - destruct (line_loop_y _ _ _ _ _ _ _ _ _ _ _) as [s'|] eqn:E; simpl;
      [eapply line_loop_y_between; eauto | apply R_refl].
Qed.

End BetweenRules.

(** ** Drawing in given colours, inside the clip rectangle *)

Lemma drawn_with_refl (C : Z -> Prop) (s : surface) : drawn_with C s s.
Proof. split; [reflexivity|]. intros k. now left. Qed.

Lemma drawn_with_trans (C : Z -> Prop) (s1 s2 s3 : surface) :
  drawn_with C s1 s2 -> drawn_with C s2 s3 -> drawn_with C s1 s3.
Proof.
  intros [Hf1 H1] [Hf2 H2]. split; [congruence|]. intros k.
  destruct (H2 k) as [E|(x & y & c & Hc & Hin & Hk & E)].
  - rewrite E. apply H1.
  - right. exists x, y, c. split; [exact Hc|].
    rewrite <- (frame_in_clip _ _ _ _ Hf1), <- (frame_pixel_index _ _ _ _ Hf1).
    auto.
Qed.

Lemma drawn_with_pixel (C : Z -> Prop) (c : Z) (s : surface) (x y : Z) :
  C c -> drawn_with C s (draw_pixel s x y c).
Proof.
  intros Hc. split; [apply draw_pixel_frame|]. intros k.
  rewrite draw_pixel_ptr.
  destruct (in_clip s x y) eqn:Ein; cbn [andb]; [|now left].
  destruct (Z.eqb_spec (pixel_index s x y) k) as [E|_]; [|now left].
  right. exists x, y, c. auto.
Qed.

Lemma drawn_with_mono (C C' : Z -> Prop) (s s' : surface) :
  (forall c, C c -> C' c) -> drawn_with C s s' -> drawn_with C' s s'.
Proof.
  intros HC [Hf H]. split; [exact Hf|]. intros k.
  destruct (H k) as [E|(x & y & c & Hc & Hr)]; [now left|].
  right. exists x, y, c. split; [now apply HC | exact Hr].
Qed.

Ltac between_drawn :=
  repeat first
    [ apply between_bind; [apply drawn_with_trans | | intros ?]
    | apply between_lift; apply drawn_with_refl
    | apply between_field; apply drawn_with_refl
    | apply between_ret; apply drawn_with_refl
    | apply between_skip; apply drawn_with_refl
    | apply between_raise; apply drawn_with_refl
    | apply between_when; [apply drawn_with_refl |] ].

(** A pixel inside the clip rectangle is a byte of the image. *)
Lemma pixel_in_image (s : surface) (x y : Z) :
  clip_in_image s -> in_clip s x y = true -> in_image s (pixel_index s x y).
Proof.
  intros (Hx0 & Hx1 & Hy0 & Hy1 & Hsize) Hin.
  apply in_clip_spec in Hin as [Hx Hy].
  unfold in_image, pixel_index.
  set (W := line_length s) in *. set (hc := height_complement s) in *.
  unfold CInt.int_max in Hsize.
  assert (H0 : 0 <= hc - y <= hc) by lia.
  assert (H1 : (hc - y) * W <= hc * W) by (apply Z.mul_le_mono_nonneg_r; lia).
  assert (H2 : 0 <= (hc - y) * W) by (apply Z.mul_nonneg_nonneg; lia).
  assert (H3 : W * (hc + 1) = hc * W + W) by ring.
  unfold CInt.add, CInt.mul, CInt.sub.
  rewrite (wrap_id (hc - y))
    by (unfold CInt.is_int, CInt.int_min, CInt.int_max; nia).
  rewrite (wrap_id ((hc - y) * W))
    by (unfold CInt.is_int, CInt.int_min, CInt.int_max; lia).
  rewrite wrap_id
    by (unfold CInt.is_int, CInt.int_min, CInt.int_max; lia).
  lia.
Qed.

Section DrawnFacts.
Context (x_t y_t : ctype).

Lemma plot_body_between (C : Z -> Prop) (data_x : list x_t)
    (data_y : list y_t) (lc sc : Z) (marker : bool) (i : Z) (last : Z * Z) :
  C lc -> (marker = true -> C sc) ->
  between (drawn_with C) (plot_body x_t y_t data_x data_y lc sc marker i last).
Proof.
  intros Hlc Hsc. destruct last as [last_x last_y]. unfold plot_body.
  destruct marker; [|change (when false ?m) with skip]; between_drawn;
    apply between_update; intros s.
  - apply draw_line_between;
      [apply drawn_with_refl | apply drawn_with_trans |].
    intros. now apply drawn_with_pixel.
  - apply draw_square_between;
      [apply drawn_with_refl | apply drawn_with_trans |].
    intros. apply drawn_with_pixel. now apply Hsc.
  - apply draw_line_between;
      [apply drawn_with_refl | apply drawn_with_trans |].
    intros. now apply drawn_with_pixel.
Qed.

Lemma plot_between (C : Z -> Prop) (data_x : list x_t) (data_y : list y_t)
    (color_idx : Z) (marker : bool) :
  C (line_color color_idx) -> (marker = true -> C (symbol_color color_idx)) ->
  between (drawn_with C) (plot x_t y_t data_x data_y color_idx marker).
Proof.
  unfold symbol_color, line_color. intros Hlc Hsc.
  unfold plot. destruct (negb _); [apply between_raise, drawn_with_refl|].
  cbv zeta.
  destruct marker; cbn [andb]; [|change (when false ?m) with skip];
    between_drawn.
  - apply between_update. intros s. apply draw_square_between;
      [apply drawn_with_refl | apply drawn_with_trans |].
    intros. apply drawn_with_pixel. now apply Hsc.
  - apply between_for_each;
      [apply drawn_with_refl | apply drawn_with_trans |].
    intros. now apply plot_body_between.
  - apply between_for_each;
      [apply drawn_with_refl | apply drawn_with_trans |].
    intros. now apply plot_body_between.
Qed.

(** X7.  Whatever its outcome, [plot] changes nothing but bytes of pixels
    inside the clip rectangle, in which it stores the line colour
    [(color_idx + 1) * 10 + 1] or, with markers, the symbol colour after
    it. *)
Theorem plot_draws_clipped (data_x : list x_t) (data_y : list y_t)
    (color_idx : Z) (marker : bool) (s : surface) :
  drawn_with
    (fun c => c = line_color color_idx \/
              (marker = true /\ c = symbol_color color_idx))
    s (plot x_t y_t data_x data_y color_idx marker s).2.
Proof.
  apply (plot_between
           (fun c => c = line_color color_idx \/
                     (marker = true /\ c = symbol_color color_idx))).
  - now left.
  - intros Hm. right. now split.
Qed.

Lemma bars_between (C : Z -> Prop) (data_x : list x_t) (data_y : list y_t)
    (color_idx width : Z) :
  C (line_color color_idx) ->
  between (drawn_with C) (bars x_t y_t data_x data_y color_idx width).
Proof.
  unfold line_color. intros Hlc.
  unfold bars. destruct (negb _); [apply between_raise, drawn_with_refl|].
  cbv zeta.
  apply between_bind;
    [apply drawn_with_trans | apply between_field, drawn_with_refl |].
  intros y0. apply between_for_each;
    [apply drawn_with_refl | apply drawn_with_trans |].
  intros i []. unfold bars_body. between_drawn.
  destruct (_ =? _); apply between_update; intros s.
  - apply draw_line_between;
      [apply drawn_with_refl | apply drawn_with_trans |].
    intros. now apply drawn_with_pixel.
  - apply fill_rect_between;
      [apply drawn_with_refl | apply drawn_with_trans |].
    intros. now apply drawn_with_pixel.
Qed.

(** X8.  Whatever its outcome, [bars] changes nothing but bytes of pixels
    inside the clip rectangle, in which it stores the colour
    [(color_idx + 1) * 10 + 1]. *)
Theorem bars_draws_clipped (data_x : list x_t) (data_y : list y_t)
    (color_idx width : Z) (s : surface) :
  drawn_with (fun c => c = line_color color_idx)
    s (bars x_t y_t data_x data_y color_idx width s).2.
Proof. now apply (bars_between (fun c => c = line_color color_idx)). Qed.

(** A surface drawn on inside its clip rectangle is the same outside the
    image. *)
Lemma drawn_with_outside (C : Z -> Prop) (s s' : surface) (k : Z) :
  clip_in_image s -> drawn_with C s s' -> ~ in_image s k ->
  ptr s' !! k = ptr s !! k.
Proof.
  intros Hfit [_ H] Hk.
  destruct (H k) as [E|(x & y & c & _ & Hin & <- & _)]; [exact E|].
  exfalso. apply Hk. now apply pixel_in_image.
Qed.

(** X9.  When the clip rectangle lies inside the image, [plot] and [bars]
    write no byte outside the image, whatever the data and the outcome. *)
Theorem drawing_stays_in_image (data_x : list x_t) (data_y : list y_t)
    (color_idx width : Z) (marker : bool) (s : surface) (k : Z) :
  clip_in_image s -> ~ in_image s k ->
  ptr (plot x_t y_t data_x data_y color_idx marker s).2 !! k = ptr s !! k /\
  ptr (bars x_t y_t data_x data_y color_idx width s).2 !! k = ptr s !! k.
Proof.
  intros Hfit Hk. split.
  - apply (drawn_with_outside (fun _ => True)); [exact Hfit | | exact Hk].
    now apply plot_between.
  - apply (drawn_with_outside (fun _ => True)); [exact Hfit | | exact Hk].
    now apply bars_between.
Qed.

End DrawnFacts.

Lemma scenario_clip_in_image : clip_in_image scenario.
Proof. unfold clip_in_image, CInt.int_max. cbn. lia. Qed.

Lemma drawing_stays_in_image_witness :
  ptr (plot c_int c_int [0; 5] [0; 5] 0 true scenario).2 !! 121
  = ptr scenario !! 121 /\
  ptr (bars c_int c_int [0; 5] [0; 5] 0 3 scenario).2 !! 121
  = ptr scenario !! 121.
Proof.
  apply (drawing_stays_in_image c_int c_int [0; 5] [0; 5] 0 3 true scenario 121).
  - exact scenario_clip_in_image.
  - unfold in_image. cbn. lia.
Defined.

(** ** [surface_clear] *)

Lemma fold_insert_lookup (l : list Z) (p : gmap Z Z) (v k : Z) :
  fold_left (fun p k => <[k := v]> p) l p !! k
  = if decide (k ∈ l) then Some v else p !! k.
Proof.
  revert p. induction l as [|i l IH]; intros p; [reflexivity|].
  cbn [fold_left]. rewrite IH.
  destruct (decide (k ∈ l)) as [Hl|Hl].
  - rewrite decide_True by (now right). reflexivity.
  - destruct (decide (k = i)) as [->|Hne].
    + rewrite decide_True by left. apply lookup_insert_eq.
    + rewrite decide_False.
      * now apply lookup_insert_ne.
      * intros H. apply elem_of_cons in H as [H|H]; contradiction.
Qed.

Lemma memset_lookup (p : gmap Z Z) (v n k : Z) :
  0 <= n < 2 ^ 64 ->
  memset p v n !! k = if decide (0 <= k < n) then Some v else p !! k.
Proof.
  intros Hn. unfold memset. rewrite Z.mod_small by exact Hn.
  rewrite fold_insert_lookup.
  destruct (decide (k ∈ seqZ 0 n)) as [H|H];
    rewrite elem_of_seqZ in H.
  - now rewrite decide_True by lia.
  - now rewrite decide_False by lia.
Qed.

(** The size that [surface_clear] passes to [memset]. *)
Lemma image_size (s : surface) :
  height_complement s < CInt.int_max ->
  CInt.int_min <= height_complement s ->
  0 <= line_length s * (height_complement s + 1) <= CInt.int_max ->
  CInt.mul (line_length s) (CInt.add (height_complement s) 1)
  = line_length s * (height_complement s + 1).
Proof.
  intros H1 H2 H3. unfold CInt.mul, CInt.add.
  rewrite (wrap_id (height_complement s + 1))
    by (unfold CInt.is_int, CInt.int_min, CInt.int_max in *; lia).
  apply wrap_id. unfold CInt.is_int, CInt.int_min, CInt.int_max in *. lia.
Qed.

(** X10.  [surface_clear] sets every byte of the image to 0 and leaves
    everything else as it was: the bytes outside the image and the
    frame. *)
Theorem surface_clear_zeroes (s : surface) :
  CInt.int_min <= height_complement s < CInt.int_max ->
  0 <= line_length s * (height_complement s + 1) <= CInt.int_max ->
  (surface_clear s).1 = Ok tt /\
  frame (surface_clear s).2 = frame s /\
  (forall k, in_image s k -> ptr (surface_clear s).2 !! k = Some 0) /\
  (forall k, ~ in_image s k -> ptr (surface_clear s).2 !! k = ptr s !! k).
Proof.
  intros Hhc Hsize. split; [reflexivity|]. split; [reflexivity|].
  unfold surface_clear, update. cbn [snd].
  change (ptr (set_ptr ?p s)) with p.
  rewrite image_size by lia.
  assert (Hn : 0 <= line_length s * (height_complement s + 1) < 2 ^ 64).
  { unfold CInt.int_max in Hsize.
    change (2 ^ 64) with (2 ^ 31 * 8589934592). lia. }
  split; intros k Hk; rewrite memset_lookup by exact Hn.
  - now rewrite decide_True.
  - now rewrite decide_False.
Qed.

Lemma surface_clear_zeroes_witness :
  ptr (surface_clear (draw_pixel scenario 2 3 21)).2 !! 79 = Some 0.
Proof.
  destruct (surface_clear_zeroes (draw_pixel scenario 2 3 21))
    as (_ & _ & Hin & _).
  - unfold CInt.int_min, CInt.int_max. cbn. lia.
  - unfold CInt.int_max. cbn. lia.
  - apply Hin. unfold in_image. cbn. lia.
Defined.

Lemma frame_sizes (s s' : surface) :
  frame s' = frame s ->
  line_length s' = line_length s /\ height_complement s' = height_complement s.
Proof.
  intros H. destruct s, s'. unfold frame, set_ptr in H. cbn in *.
  injection H as -> -> -> -> -> -> -> -> -> -> -> -> -> -> -> ->.
  split; reflexivity.
Qed.

(** Clearing a surface on which something was drawn inside the image gives
    what clearing it before would have given. *)
Lemma clear_after_drawing (C : Z -> Prop) (s s' : surface) :
  clip_in_image s ->
  CInt.int_min <= height_complement s < CInt.int_max ->
  0 <= line_length s * (height_complement s + 1) ->
  drawn_with C s s' ->
  (surface_clear s').2 = (surface_clear s).2.
Proof.
  intros Hfit Hhc Hsize Hd.
  assert (Hf : frame s' = frame s) by apply Hd.
  destruct (frame_sizes s s' Hf) as [EW Eh].
  apply frame_ptr_eq; [exact Hf|].
  unfold surface_clear, update. cbn [snd].
  change (ptr (set_ptr ?p ?t)) with p.
  rewrite EW, Eh. rewrite image_size by (destruct Hfit as (_&_&_&_&?); lia).
  assert (Hn : 0 <= line_length s * (height_complement s + 1) < 2 ^ 64).
  { destruct Hfit as (_ & _ & _ & _ & Hmax). unfold CInt.int_max in Hmax.
    change (2 ^ 64) with (2 ^ 31 * 8589934592). lia. }
  apply map_eq. intros k. rewrite !memset_lookup by exact Hn.
  destruct (decide (0 <= k < line_length s * (height_complement s + 1)))
    as [Hk|Hk]; [reflexivity|].
  now apply (drawn_with_outside C).
Qed.

Section ClearFacts.
Context (x_t y_t : ctype).

(** X11.  When the clip rectangle lies inside the image, [surface_clear]
    erases all that [plot] and [bars] have drawn: the surface is the one
    that clearing gives without them. *)
Theorem clear_erases_drawing (data_x : list x_t) (data_y : list y_t)
    (color_idx width : Z) (marker : bool) (s : surface) :
  clip_in_image s ->
  CInt.int_min <= height_complement s < CInt.int_max ->
  0 <= line_length s * (height_complement s + 1) ->
  (surface_clear (plot x_t y_t data_x data_y color_idx marker s).2).2
  = (surface_clear s).2 /\
  (surface_clear (bars x_t y_t data_x data_y color_idx width s).2).2
  = (surface_clear s).2.
Proof.
  intros Hfit Hhc Hsize. split.
  - apply (clear_after_drawing (fun _ => True)); try assumption.
    now apply plot_between.
  - apply (clear_after_drawing (fun _ => True)); try assumption.
    now apply bars_between.
Qed.

End ClearFacts.

Lemma clear_erases_drawing_witness :
  (surface_clear (plot c_int c_int [0; 5] [0; 5] 0 true scenario).2).2
  = (surface_clear scenario).2 /\
  (surface_clear (bars c_int c_int [0; 5] [0; 5] 0 3 scenario).2).2
  = (surface_clear scenario).2.
Proof.
  apply (clear_erases_drawing c_int c_int [0; 5] [0; 5] 0 3 true scenario).
  - exact scenario_clip_in_image.
  - unfold CInt.int_min, CInt.int_max. cbn. lia.
  - cbn. lia.
Defined.

(** * [plot] and [bars]: ends and edge cases *)

Section PlotEdges.
Context (x_t y_t : ctype).



(** X13.  One sample gives no line: [plot] on two arrays of one element
    draws the marker of the sample, if markers are asked for and the
    sample is not left or right of the plot, and nothing else. *)
Theorem plot_single_sample (x : x_t) (y : y_t) (color_idx : Z)
    (marker : bool) (s : surface) :
  plot x_t y_t [x] [y] color_idx marker s
  = (Ok tt,
     if marker
        && ((offset_x s <=? pixel_x s (c_to_double x_t x))
            && (pixel_x s (c_to_double x_t x) <=? max_x s))
     then draw_square s (pixel_x s (c_to_double x_t x))
            (pixel_y s (c_to_double y_t y)) 5 (symbol_color color_idx)
     else s).
Proof.
  unfold symbol_color, line_color, plot. cbn [length Nat.eqb negb].
  unfold mbind, Surf_bind, lift, field.
  change (get1 [x] 0) with (Ok x). change (get1 [y] 0) with (Ok y).
  cbv beta iota zeta.
  change (CInt.wrap (Z.of_nat 1)) with 1.
  change (for_range_surf 1 1 ?b ?a) with (mret a : Surf (Z * Z)).
  generalize (pixel_x s (c_to_double x_t x)) as px.
  generalize (pixel_y s (c_to_double y_t y)) as py.
  generalize (CInt.add (CInt.add (CInt.mul (CInt.add color_idx 1) 10) 1) 1)
    as sc.
  intros sc py px. unfold when, update, skip, mret, Surf_ret.
  destruct marker; cbn [andb]; [|reflexivity].
  destruct ((offset_x s <=? px) && (px <=? max_x s)); reflexivity.
Qed.

End PlotEdges.


(** A loop of which no turn fails or touches the surface. *)
Lemma for_each_surf_fixed {A} (I : A -> Prop) (l : list Z)
    (body : Z -> A -> Surf A) (a : A) (s : surface) :
  I a ->
  (forall i a, i ∈ l -> I a -> exists a', body i a s = (Ok a', s) /\ I a') ->
  exists a', for_each_surf l body a s = (Ok a', s) /\ I a'.
Proof.
  revert a. induction l as [|i l IH]; intros a Ha Hb.
  - exists a. now split.
  - destruct (Hb i a) as (a1 & E1 & H1); [left | exact Ha |].
    cbn [for_each_surf]. unfold mbind, Surf_bind. rewrite E1.
    apply IH; [exact H1|]. intros j b Hj. apply Hb. now right.
Qed.

Lemma get1_elem {A} (a : list A) (i : Z) (v : A) : get1 a i = Ok v -> v ∈ a.
Proof.
  intros H. apply get1_Ok in H as [_ H]. apply list_elem_of_lookup. eauto.
Qed.

Section Culling.
Context (x_t y_t : ctype).

Lemma plot_culls_side (side : Z -> bool) (data_x : list x_t)
    (data_y : list y_t) (color_idx : Z) (marker : bool) (s : surface) :
  (forall a b, side a = true -> side b = true ->
     segment_visible s a b = false) ->
  (forall a, side a = true -> (offset_x s <=? a) && (a <=? max_x s) = false) ->
  length data_x = length data_y -> data_x <> [] ->
  (forall x, x ∈ data_x -> side (pixel_x s (c_to_double x_t x)) = true) ->
  plot x_t y_t data_x data_y color_idx marker s = (Ok tt, s).
Proof.
  intros Hseg Hrange Hlen Hne Hall.
  assert (Hpos : 0 < Z.of_nat (length data_x))
    by (destruct data_x; [congruence | simpl; lia]).
  destruct (get1_ok data_x 0) as [x0 Ex0]; [lia|].
  destruct (get1_ok data_y 0) as [y0 Ey0]; [lia|].
  assert (Hloop : forall lc sc m (last : Z * Z),
    side last.1 = true ->
    exists a',
      for_range_surf 1 (CInt.wrap (Z.of_nat (length data_y)))
        (plot_body x_t y_t data_x data_y lc sc m) last s = (Ok a', s)).
  { intros lc sc m last Hlast.
    destruct (for_each_surf_fixed (fun a : Z * Z => side a.1 = true)
                (seqZ 1 (CInt.wrap (Z.of_nat (length data_y)) - 1))
                (plot_body x_t y_t data_x data_y lc sc m) last s Hlast)
      as (a' & E & _); [|exists a'; exact E].
    intros i [last_x last_y] Hi Ha. cbn [fst] in Ha.
    apply elem_of_seqZ in Hi.
    pose proof (wrap_nonneg_le (Z.of_nat (length data_y))).
    destruct (get1_ok data_x i) as [xi Exi]; [lia|].
    destruct (get1_ok data_y i) as [yi Eyi]; [lia|].
    pose proof (Hall xi (get1_elem _ _ _ Exi)) as Hxi.
    exists (pixel_x s (c_to_double x_t xi), pixel_y s (c_to_double y_t yi)).
    split; [|exact Hxi].
    unfold plot_body, mbind, Surf_bind, lift, field. rewrite Exi, Eyi.
    cbv beta iota. rewrite (Hseg _ _ Ha Hxi). reflexivity. }
  pose proof (Hall x0 (get1_elem _ _ _ Ex0)) as Hx0.
  unfold plot. rewrite (proj2 (Nat.eqb_eq _ _) Hlen). cbn [negb].
  unfold mbind, Surf_bind, lift, field. rewrite Ex0, Ey0.
  cbv beta iota zeta. rewrite (Hrange _ Hx0), andb_false_r.
  change (when false ?m s) with (Ok tt, s). cbv beta iota.
  destruct marker.
  - destruct (Hloop (CInt.add (CInt.mul (CInt.add color_idx 1) 10) 1)
                (CInt.add (CInt.add (CInt.mul (CInt.add color_idx 1) 10) 1) 1)
                true
                (pixel_x s (c_to_double x_t x0),
                 pixel_y s (c_to_double y_t y0)) Hx0) as (a' & ->).
    reflexivity.
  - destruct (Hloop (CInt.add (CInt.mul (CInt.add color_idx 1) 10) 1)
                (CInt.add (CInt.add (CInt.mul (CInt.add color_idx 1) 10) 1) 1)
                false
                (pixel_x s (c_to_double x_t x0),
                 pixel_y s (c_to_double y_t y0)) Hx0) as (a' & ->).
    reflexivity.
Qed.

(** X14.  Samples that are all left of the plot, or all right of it, are
    not drawn: [plot] ends normally and leaves the surface as it is. *)
Theorem plot_culls (data_x : list x_t) (data_y : list y_t)
    (color_idx : Z) (marker : bool) (s : surface) :
  length data_x = length data_y -> data_x <> [] ->
  (forall x, x ∈ data_x -> pixel_x s (c_to_double x_t x) < offset_x s) \/
  (forall x, x ∈ data_x -> max_x s < pixel_x s (c_to_double x_t x)) ->
  plot x_t y_t data_x data_y color_idx marker s = (Ok tt, s).
Proof.
  intros Hlen Hne [Hout|Hout].
  - apply (plot_culls_side (fun v => v <? offset_x s)); try assumption.
    + intros a b Ha Hb. unfold segment_visible. now rewrite Ha, Hb.
    + intros a Ha. apply Z.ltb_lt in Ha.
      destruct (Z.leb_spec (offset_x s) a); [lia | reflexivity].
    + intros x Hx. apply Z.ltb_lt. now apply Hout.
  - apply (plot_culls_side (fun v => max_x s <? v)); try assumption.
    + intros a b Ha Hb. unfold segment_visible. rewrite Ha, Hb.
      cbn [andb]. now rewrite orb_true_r.
    + intros a Ha. apply Z.ltb_lt in Ha.
      destruct (Z.leb_spec a (max_x s)); [lia | apply andb_false_r].
    + intros x Hx. apply Z.ltb_lt. now apply Hout.
Qed.

End Culling.

Lemma plot_culls_witness :
  plot c_int c_int [11; 15] [0; 5] 0 true scenario = (Ok tt, scenario).
Proof.
  apply (plot_culls c_int c_int [11; 15] [0; 5] 0 true scenario);
    [reflexivity | discriminate |].
  right. intros x Hx.
  apply elem_of_cons in Hx as [->|Hx];
    [|apply list_elem_of_singleton in Hx; subst x]; vm_compute; reflexivity.
Defined.




Section OneBar.
Context (x_t y_t : ctype).


End OneBar.


(** ** [stack] and [separate]: the reads, and integer periods *)

Lemma Forall2_elem_impl {A B} (P Q : A -> B -> Prop) (l : list A)
    (vs : list B) :
  Forall2 P l vs ->
  (forall a b, a ∈ l -> P a b -> Q a b) ->
  Forall2 Q l vs.
Proof.
  induction 1 as [|a b l vs Hab _ IH]; intros HPQ; constructor.
  - apply HPQ; [left | exact Hab].
  - apply IH. intros a' b' Ha'. apply HPQ. now right.
Qed.

(** A loop of which no turn changes the state. *)
Lemma for_each_idle {S} (l : list Z) (body : Z -> S -> res S) (s : S) :
  (forall i s, i ∈ l -> body i s = Ok s) -> for_each l body s = Ok s.
Proof.
  induction l as [|i l IH]; intros H; simpl; [reflexivity|].
  rewrite H by left. simpl. apply IH. intros j t Hj. apply H. now right.
Qed.

(** [j + k * s], computed in doubles, for a column [j] below the period
    [s] and a turn [k] below [L / s]. *)
Lemma period_index (L s j k : Z) :
  0 <= L <= CInt.int_max -> 1 <= s ->
  0 <= j < Z.min L s -> 0 <= k < L / s ->
  Double.to_int
    (Double.add (Double.of_int j)
       (Double.mul (Double.of_int k) (Double.of_int s))) = j + k * s /\
  Double.to_int
    (Double.add (Double.mul (Double.of_int k) (Double.of_int s))
       (Double.of_int j)) = j + k * s /\
  0 <= j + k * s < L.
Proof.
  intros HL Hs Hj Hk. unfold CInt.int_max in *.
  assert (H53 : 2 ^ 31 * 4194304 = 2 ^ 53) by reflexivity.
  pose proof (Z.mul_div_le L s ltac:(lia)) as Hq.
  assert (Hks : k * s + s <= L) by nia.
  rewrite mul_exact by nia.
  rewrite !add_exact by nia.
  rewrite (Z.add_comm (k * s) j).
  rewrite to_int_of_int by (unfold CInt.int_max; nia).
  repeat split; nia.
Qed.

Lemma to_int_period (s : Z) :
  1 <= s <= CInt.int_max -> Double.to_int (Double.of_int s) = s.
Proof. intros H. apply to_int_of_int. lia. Qed.

Lemma shape1_nonneg {A} (a : array2 A) : 0 <= shape1 a.
Proof. unfold shape1. destruct a; lia. Qed.

Lemma wrap_shape1 {A} (a : array2 A) :
  shape1 a <= CInt.int_max -> CInt.wrap (shape1 a) = shape1 a.
Proof.
  intros H. apply wrap_id. pose proof (shape1_nonneg a).
  unfold CInt.is_int, CInt.int_min. lia.
Qed.

(** X16.  [stack] never reads outside a row: for every double [S] (a
    fraction, a negative number, an infinity or a NaN as well) and every
    row length [L] that a C [int] holds, each column [<int>(j + k * S)]
    with [j] below [min(L, <int>S)] and [k] below [<int>(L / S)] is a
    column of the input. *)
Theorem stack_reads_inside_row (inp_len : Z) (stacking : double) (j k : Z) :
  is_double stacking ->
  inp_len <= CInt.int_max ->
  0 <= j < stack_outp_len inp_len stacking ->
  0 <= k < stack_height inp_len stacking ->
  0 <= stack_index stacking j k < inp_len.
Proof. intros Hd HL. now apply stack_reads. Qed.

Lemma stack_reads_inside_row_witness :
  0 <= stack_index (S754_finite false 7505999378950827 (-52)) 0 2 < 5.
Proof.
  apply (stack_reads_inside_row 5 (S754_finite false 7505999378950827 (-52)));
    [reflexivity | unfold CInt.int_max; lia
    | vm_compute; intuition discriminate
    | vm_compute; intuition discriminate].
Defined.

(** X17.  With an integer period [s], [stack] folds each row of [L]
    samples into [min(L, s)] columns: column [j] of row [i] is the sum, in
    the element type, of the [L / s] samples [inp[i, j]],
    [inp[i, j + s]], [inp[i, j + 2 s]], ... *)
Theorem stack_integer_period (y_t : ctype) (inp outp outp' : array2 y_t)
    (s i j : Z) :
  1 <= s <= CInt.int_max ->
  shape1 inp <= CInt.int_max ->
  stack y_t inp outp (Double.of_int s) = Ok outp' ->
  0 <= i < shape0 inp ->
  0 <= j < Z.min (shape1 inp) s ->
  exists vs,
    Forall2 (fun k v => get2 inp i (j + k * s) = Ok v)
      (seqZ 0 (shape1 inp / s)) vs /\
    get2 outp' i j = Ok (fold_left (c_add y_t) vs (c_zero y_t)).
Proof.
  intros Hs HL E Hi Hj.
  pose proof (shape1_nonneg inp) as H0.
  apply stack_post in E.
  unfold stack_stores, stack_outp_len, stack_height in E.
  destruct (E i j) as [H1 _]. clear E.
  rewrite !wrap_shape1 in H1 by exact HL.
  rewrite to_int_period in H1 by exact Hs.
  rewrite (div_floor (shape1 inp) s) in H1 by lia.
  destruct H1 as (v & Ev & Ed); [split; assumption|].
  apply stack_datum_post in Ed as (vs & Hvs & ->).
  exists vs. split; [|exact Ev].
  apply (Forall2_elem_impl _ _ _ _ Hvs).
  intros k v Hk Hg. apply elem_of_seqZ in Hk.
  unfold stack_index in Hg.
  destruct (period_index (shape1 inp) s j k) as (Ei & _); [lia ..|].
  now rewrite Ei in Hg.
Qed.

Lemma stack_integer_period_witness :
  exists vs,
    Forall2 (fun k v => get2 [[200; 100; 100; 100; 9]] 0 (1 + k * 2) = Ok v)
      (seqZ 0 (shape1 [[200; 100; 100; 100; 9]] / 2)) vs /\
    get2 [[44; 200]] 0 1 = Ok (fold_left (c_add c_uchar) vs (c_zero c_uchar)).
Proof.
  apply (stack_integer_period c_uchar [[200; 100; 100; 100; 9]] [[7; 7]]
           [[44; 200]] 2 0 1);
    [unfold CInt.int_max; lia | vm_compute; discriminate
    | vm_compute; reflexivity | vm_compute; intuition discriminate
    | vm_compute; intuition discriminate].
Defined.

(** X18.  [stack] stores nothing when [min(L, <int>S)] is not positive,
    that is for an input without columns and for a factor below 1: the
    call returns and the output is as it was. *)
Theorem stack_nothing_to_store (y_t : ctype) (inp outp : array2 y_t)
    (stacking : double) :
  Z.min (CInt.wrap (shape1 inp)) (Double.to_int stacking) <= 0 ->
  stack y_t inp outp stacking = Ok outp.
Proof.
  intros H. unfold stack, stack_outp_len, for_range at 1.
  apply for_each_idle. intros i cur _. apply for_range_empty. lia.
Qed.

Lemma stack_nothing_to_store_witness :
  stack c_int [[1; 2; 3]] [[7; 7; 7]] (S754_finite false 1 (-1))
  = Ok [[7; 7; 7]].
Proof.
  apply (stack_nothing_to_store c_int [[1; 2; 3]] [[7; 7; 7]]
           (S754_finite false 1 (-1))).
  vm_compute. discriminate.
Defined.

(** X19.  [separate] never reads outside its input: for every double [D]
    and every length [L] that a C [int] holds, each index
    [<int>(i * D + j)] of a part [i] below [<int>(L / D)] and a column [j]
    below [min(L, <int>D)] is an index of the input. *)
Theorem separate_reads_inside_input (inp_len : Z) (distance : double)
    (i j : Z) :
  is_double distance ->
  inp_len <= CInt.int_max ->
  0 <= i < separate_n_parts inp_len distance ->
  0 <= j < separate_outp_len inp_len distance ->
  0 <= separate_index distance i j < inp_len.
Proof. intros Hd HL. now apply separate_reads. Qed.

Lemma separate_reads_inside_input_witness :
  0 <= separate_index (S754_finite false 7505999378950827 (-52)) 2 0 < 5.
Proof.
  apply (separate_reads_inside_input 5
           (S754_finite false 7505999378950827 (-52)));
    [reflexivity | unfold CInt.int_max; lia
    | vm_compute; intuition discriminate
    | vm_compute; intuition discriminate].
Defined.

(** X20.  With an integer distance [d] and an open slice, [separate] cuts
    the input into [L / d] rows of [min(L, d)] samples and keeps of each
    bin of [binning] samples the last one: column [c] of row [i] holds
    [inp[i * d + min(c * binning + binning - 1, min(L, d) - 1)]], which is
    [inp[i * d + c]] when [binning] is 1. *)
Theorem separate_integer_distance (inp : list float)
    (outp outp' : array2 float) (d binning i c : Z) :
  Z.of_nat (length inp) <= CInt.int_max ->
  1 <= d <= CInt.int_max ->
  1 <= binning ->
  separate inp outp (Double.of_int d) binning open_slice = Ok outp' ->
  0 <= i < Z.of_nat (length inp) / d ->
  0 <= c -> c * binning < Z.min (Z.of_nat (length inp)) d ->
  exists v,
    get2 outp' i c = Ok v /\
    get1 inp
      (i * d + Z.min (c * binning + binning - 1)
                 (Z.min (Z.of_nat (length inp)) d - 1)) = Ok v /\
    (binning = 1 -> get1 inp (i * d + c) = Ok v).
Proof.
  intros HL Hd Hb E Hi Hc Hcb.
  set (L := Z.of_nat (length inp)) in *.
  assert (Hwrap : CInt.wrap L = L).
  { apply wrap_id. unfold CInt.is_int, CInt.int_min, L. lia. }
  unfold separate in E. fold L in E. rewrite Hwrap in E.
  rewrite to_int_period in E by exact Hd.
  rewrite div_floor in E by lia.
  simpl in E.
  apply (separate_loops_post inp outp outp' (Double.of_int d) binning
           (L / d) (Z.min L d)) in E; [|lia ..].
  destruct (E i c) as (H1 & _).
  destruct H1 as (v & Ev & Er); [lia ..|].
  unfold separate_last, separate_index in Er.
  destruct (period_index L d (Z.min (c * binning + binning - 1)
                                (Z.min L d - 1)) i) as (_ & Ei & _);
    [lia ..|].
  rewrite Ei in Er.
  rewrite Z.add_comm in Er.
  exists v. split; [exact Ev|]. split; [exact Er|].
  intros ->. rewrite <- Er. f_equal. lia.
Qed.

Lemma separate_integer_distance_witness :
  exists v,
    get2 [[Double.of_int 2; Double.of_int 3];
          [Double.of_int 5; Double.of_int 6]] 1 1 = Ok v /\
    get1 (Double.of_int <$> [1; 2; 3; 4; 5; 6; 7])
      (1 * 3 + Z.min (1 * 2 + 2 - 1)
                 (Z.min (Z.of_nat
                           (length (Double.of_int <$> [1; 2; 3; 4; 5; 6; 7])))
                    3 - 1)) = Ok v /\
    (2 = 1 -> get1 (Double.of_int <$> [1; 2; 3; 4; 5; 6; 7]) (1 * 3 + 1)
              = Ok v).
Proof.
  apply (separate_integer_distance
           (Double.of_int <$> [1; 2; 3; 4; 5; 6; 7])
           [[S754_zero false; S754_zero false];
            [S754_zero false; S754_zero false]]
           [[Double.of_int 2; Double.of_int 3];
            [Double.of_int 5; Double.of_int 6]]
           3 2 1 1);
    [vm_compute; discriminate | unfold CInt.int_max; lia | lia
    | vm_compute; reflexivity | vm_compute; intuition discriminate
    | lia | vm_compute; reflexivity].
Defined.

(** X21.  On an empty range of columns, that is a slice whose stop is not
    above its start, [separate] reads and stores nothing, whatever the
    distance and the binning are (no division is made, so that a binning
    of 0 does no harm): the call returns and the output is as it was. *)
Theorem separate_empty_range (inp : list float) (outp : array2 float)
    (distance : double) (binning b e : Z) :
  CInt.is_int b -> CInt.is_int e -> e <= b ->
  separate inp outp distance binning
    {| slice_start := Some b; slice_stop := Some e |} = Ok outp.
Proof.
  intros Hb He Hle. unfold separate. cbn [slice_start slice_stop].
  unfold to_c_int. unfold CInt.is_int in Hb, He.
  destruct (Z.leb_spec CInt.int_min b); [|lia].
  destruct (Z.leb_spec b CInt.int_max); [|lia].
  destruct (Z.leb_spec CInt.int_min e); [|lia].
  destruct (Z.leb_spec e CInt.int_max); [|lia].
  cbn [andb mbind res_bind]. unfold for_range at 1.
  apply for_each_idle. intros i cur _. apply for_range_empty. exact Hle.
Qed.

Lemma separate_empty_range_witness :
  separate (Double.of_int <$> [1; 2; 3]) [[S754_zero false]]
    (Double.of_int 1) 0 {| slice_start := Some 2; slice_stop := Some 2 |}
  = Ok [[S754_zero false]].
Proof.
  apply (separate_empty_range (Double.of_int <$> [1; 2; 3])
           [[S754_zero false]] (Double.of_int 1) 0 2 2);
    [unfold CInt.is_int, CInt.int_min, CInt.int_max; lia
    | unfold CInt.is_int, CInt.int_min, CInt.int_max; lia | lia].
Defined.

(** ** [add_pixel]: the counts and the image *)

Lemma wrap_add_l (a b : Z) : CInt.wrap (CInt.wrap a + b) = CInt.wrap (a + b).
Proof.
  unfold CInt.wrap. f_equal.
  replace ((a + 2 ^ 31) mod 2 ^ 32 - 2 ^ 31 + b + 2 ^ 31)
    with ((a + 2 ^ 31) mod 2 ^ 32 + b) by lia.
  rewrite Zplus_mod_idemp_l. f_equal. lia.
Qed.

Lemma hit_count_nonneg pos x y : 0 <= hit_count pos x y.
Proof. unfold hit_count. lia. Qed.

Lemma hit_count_snoc pos row x y :
  hit_count (pos ++ [row]) x y
  = hit_count pos x y + (if is_hit x y row then 1 else 0).
Proof.
  unfold hit_count. rewrite List.filter_app, length_app. simpl.
  destruct (is_hit x y row); simpl; lia.
Qed.

Lemma hit_count_elem pos x y :
  0 < hit_count pos x y ->
  exists x' y' row, x' :: y' :: row ∈ pos /\ x = x' /\ y = y'.
Proof.
  unfold hit_count. induction pos as [|r pos IH]; simpl; [lia|].
  destruct (is_hit x y r) eqn:E.
  - intros _. destruct r as [|x' [|y' r]]; simpl in E; try discriminate.
    apply andb_true_iff in E as [E1 E2].
    apply Z.eqb_eq in E1, E2. exists x', y', r. split; [left|]. now split.
  - intros H. destruct (IH H) as (x' & y' & row & Hr & Hxy).
    exists x', y', row. split; [now right | exact Hxy].
Qed.

(** The row that [pos[i, 0]] and [pos[i, 1]] are read from. *)
Lemma hit_row (pos : array2 Z) (i x0 y0 : Z) :
  get2 pos i 0 = Ok x0 -> get2 pos i 1 = Ok y0 ->
  exists row, 0 <= i /\ pos !! Z.to_nat i = Some row /\
    forall x y, is_hit x y row = (x0 =? x) && (y0 =? y).
Proof.
  unfold get2. intros Ex Ey.
  destruct (get1 pos i) as [row|e] eqn:Er; simpl in *; [|discriminate].
  apply get1_Ok in Er as [Hi Er].
  exists row. split; [exact Hi|]. split; [exact Er|].
  apply get1_Ok in Ex as [_ Ex]. apply get1_Ok in Ey as [_ Ey].
  destruct row as [|x' [|y' row]]; simpl in *; try discriminate.
  now injection Ex as ->; injection Ey as ->.
Qed.

Lemma take_snoc {A} (l : list A) (i : Z) (a : A) :
  0 <= i -> l !! Z.to_nat i = Some a ->
  take (Z.to_nat (i + 1)) l = take (Z.to_nat i) l ++ [a].
Proof.
  intros Hi E. replace (Z.to_nat (i + 1)) with (S (Z.to_nat i)) by lia.
  now apply take_S_r.
Qed.

(** One turn of the loop of [add_pixel] that has succeeded. *)
Lemma add_pixel_turn (pos : array2 Z) (size_x size_y i : Z) (t t' : hits) :
  (x ← get2 pos i 0;
   y ← get2 pos i 1;
   m ← get2 (mtx t) y x;
   mtx' ← set2 (mtx t) y x (CInt.add m 1);
   m' ← get2 mtx' y x;
   Ok {| mtx := mtx';
         img := <[CInt.add (CInt.mul (CInt.sub (CInt.sub size_y 1) y) size_x) x
                  := scaled m']> (img t);
         max_value := Z.max (scaled m') (max_value t) |}) = Ok t' ->
  exists x0 y0 row m,
    get2 pos i 0 = Ok x0 /\ get2 pos i 1 = Ok y0 /\
    0 <= i /\ pos !! Z.to_nat i = Some row /\
    (forall x y, is_hit x y row = (x0 =? x) && (y0 =? y)) /\
    get2 (mtx t) y0 x0 = Ok m /\
    get2 (mtx t') y0 x0 = Ok (CInt.wrap (m + 1)) /\
    (forall y x, (y, x) <> (y0, x0) ->
       get2 (mtx t') y x = get2 (mtx t) y x) /\
    img t' = <[CInt.add (CInt.mul (CInt.sub (CInt.sub size_y 1) y0) size_x) x0
               := scaled (CInt.wrap (m + 1))]> (img t).
Proof.
  intros E.
  destruct (get2 pos i 0) as [x0|] eqn:Ex; cbn [mbind res_bind] in E;
    [|discriminate].
  destruct (get2 pos i 1) as [y0|] eqn:Ey; cbn [mbind res_bind] in E;
    [|discriminate].
  destruct (get2 (mtx t) y0 x0) as [m|] eqn:Em; cbn [mbind res_bind] in E;
    [|discriminate].
  destruct (set2 (mtx t) y0 x0 (CInt.add m 1)) as [mtx'|] eqn:Es;
    cbn [mbind res_bind] in E; [|discriminate].
  apply set2_Ok in Es as [Eg Hother].
  rewrite Eg in E. cbn [mbind res_bind] in E. injection E as <-.
  destruct (hit_row pos i x0 y0 Ex Ey) as (row & Hi & Er & Hhit).
  exists x0, y0, row, m. cbn [mtx img]. unfold CInt.add in Eg.
  repeat split; try assumption.
Qed.

(** X22.  [add_pixel] counts: when the call has returned, every cell of
    the matrix holds its former count plus the number of positions that
    name it, as a C [int] (the sum wraps around); the cells that no
    position names are as they were. *)
Theorem add_pixel_counts (mtx0 pos : array2 Z) (size_x size_y : Z)
    (img0 : gmap Z Z) (prev : Z) (h : hits) (x y m : Z) :
  add_pixel mtx0 pos size_x size_y img0 prev = Ok h ->
  get2 mtx0 y x = Ok m ->
  CInt.is_int m ->
  get2 (mtx h) y x = Ok (CInt.wrap (m + hit_count pos x y)).
Proof.
  intros E Em Hm. unfold add_pixel in E.
  set (I := fun (i : Z) (t : hits) =>
       forall x y,
         get2 (mtx t) y x
         = match get2 mtx0 y x with
           | Ok m =>
               let n := hit_count (take (Z.to_nat i) pos) x y in
               Ok (if n =? 0 then m else CInt.wrap (m + n))
           | Raise e => Raise e
           end).
  assert (Hend : I (shape0 pos) h).
  { revert E. apply (for_range_post I).
    - unfold shape0. lia.
    - intros x' y'. cbn [mtx]. now destruct (get2 mtx0 y' x').
    - intros i t t' Hi Hinv E.
      apply add_pixel_turn in E
        as (x0 & y0 & row & m1 & _ & _ & _ & Er & Hhit & Em1 & Em1' & Hother
          & _).
      intros x' y'. rewrite (take_snoc pos i row) by (lia || exact Er).
      rewrite hit_count_snoc, Hhit.
      pose proof (hit_count_nonneg (take (Z.to_nat i) pos) x' y') as Hn.
      destruct (decide ((y', x') = (y0, x0))) as [[= -> ->]|Hne].
      + rewrite !Z.eqb_refl. cbn [andb]. rewrite Em1'.
        rewrite Hinv in Em1.
        destruct (get2 mtx0 y0 x0) as [m0|e]; [|discriminate].
        cbv zeta in *. injection Em1 as <-.
        destruct (Z.eqb_spec
                    (hit_count (take (Z.to_nat i) pos) x0 y0 + 1) 0);
          [lia|].
        f_equal.
        destruct (Z.eqb_spec (hit_count (take (Z.to_nat i) pos) x0 y0) 0)
          as [->|_].
        * now rewrite Z.add_0_l.
        * rewrite wrap_add_l. f_equal. lia.
      + rewrite Hother by exact Hne. rewrite Hinv.
        assert (Hf : (x0 =? x') && (y0 =? y') = false).
        { destruct (Z.eqb_spec x0 x'), (Z.eqb_spec y0 y'); try reflexivity.
          subst. now contradiction Hne. }
        rewrite Hf, Z.add_0_r. reflexivity. }
  rewrite Hend, Em. cbv zeta.
  replace (Z.to_nat (shape0 pos)) with (length pos)
    by (unfold shape0; lia).
  rewrite firstn_all.
  destruct (Z.eqb_spec (hit_count pos x y) 0) as [->|_]; [|reflexivity].
  now rewrite Z.add_0_r, wrap_id.
Qed.

Lemma add_pixel_counts_witness :
  exists h,
    add_pixel [[0; 0]; [0; 0]] [[0; 1]; [0; 1]; [1; 1]] 2 2 ∅ 0 = Ok h /\
    get2 (mtx h) 1 0
    = Ok (CInt.wrap (0 + hit_count [[0; 1]; [0; 1]; [1; 1]] 0 1)) /\
    hit_count [[0; 1]; [0; 1]; [1; 1]] 0 1 = 2.
Proof.
  destruct (add_pixel [[0; 0]; [0; 0]] [[0; 1]; [0; 1]; [1; 1]] 2 2 ∅ 0)
    as [h|e] eqn:E; [|vm_compute in E; discriminate].
  exists h. split; [reflexivity|]. split; [|reflexivity].
  apply (add_pixel_counts [[0; 0]; [0; 0]] [[0; 1]; [0; 1]; [1; 1]] 2 2 ∅ 0
           h 0 1 0 E); [reflexivity|].
  unfold CInt.is_int, CInt.int_min, CInt.int_max. lia.
Defined.

Lemma image_index_fits (size_x size_y x y : Z) :
  0 < size_x -> 0 < size_y -> size_x * size_y <= CInt.int_max ->
  0 <= x < size_x -> 0 <= y < size_y ->
  CInt.add (CInt.mul (CInt.sub (CInt.sub size_y 1) y) size_x) x
  = image_index size_x size_y x y.
Proof.
  intros Hsx Hsy Hfit Hx Hy. unfold image_index, CInt.add, CInt.mul, CInt.sub.
  unfold CInt.int_max in Hfit.
  assert (Hint : forall z, 0 <= z < size_x * size_y -> CInt.wrap z = z).
  { intros z Hz. apply wrap_id.
    unfold CInt.is_int, CInt.int_min, CInt.int_max. lia. }
  rewrite (Hint (size_y - 1)) by nia.
  rewrite (Hint (size_y - 1 - y)) by nia.
  rewrite (Hint ((size_y - 1 - y) * size_x)) by nia.
  apply Hint. nia.
Qed.

Lemma image_index_inj (size_x size_y x y x' y' : Z) :
  0 <= x < size_x -> 0 <= x' < size_x ->
  image_index size_x size_y x y = image_index size_x size_y x' y' ->
  (y, x) = (y', x').
Proof.
  unfold image_index. intros Hx Hx' E.
  assert (y = y') by nia. subst y'. f_equal. lia.
Qed.

(** X23.  [add_pixel] keeps the image in step with the matrix.  When every
    position lies in an image of [size_x] by [size_y] pixels, the byte that
    shows a cell hit by the call, at row [size_y - 1 - y] and column [x] of
    the image, is the scaled value of the final count of that cell, and
    every other byte of the image is as it was. *)
Theorem add_pixel_image (mtx0 pos : array2 Z) (size_x size_y : Z)
    (img0 : gmap Z Z) (prev : Z) (h : hits) :
  add_pixel mtx0 pos size_x size_y img0 prev = Ok h ->
  0 < size_x -> 0 < size_y -> size_x * size_y <= CInt.int_max ->
  (forall i x y, get2 pos i 0 = Ok x -> get2 pos i 1 = Ok y ->
     0 <= x < size_x /\ 0 <= y < size_y) ->
  (forall x y, 0 < hit_count pos x y ->
     exists m, get2 (mtx h) y x = Ok m /\
       img h !! image_index size_x size_y x y = Some (scaled m)) /\
  (forall k,
     (forall x y, 0 < hit_count pos x y ->
        k <> image_index size_x size_y x y) ->
     img h !! k = img0 !! k).
Proof.
  intros E Hsx Hsy Hfit Hpos. unfold add_pixel in E.
  set (J := fun (i : Z) (t : hits) =>
    let seen := take (Z.to_nat i) pos in
    (forall x y, 0 < hit_count seen x y ->
       (0 <= x < size_x /\ 0 <= y < size_y) /\
       exists m, get2 (mtx t) y x = Ok m /\
         img t !! image_index size_x size_y x y = Some (scaled m)) /\
    (forall k,
       (forall x y, 0 < hit_count seen x y ->
          k <> image_index size_x size_y x y) ->
       img t !! k = img0 !! k)).
  assert (Hend : J (shape0 pos) h).
  { revert E. apply (for_range_post J).
    - unfold shape0. lia.
    - split; [|reflexivity]. intros x y H. simpl in H.
      unfold hit_count in H. simpl in H. lia.
    - intros i t t' Hi [Hin Hout] E.
      apply add_pixel_turn in E
        as (x0 & y0 & row & m & Ex & Ey & _ & Er & Hhit & _ & Em' & Hother
            & Eimg).
      destruct (Hpos i x0 y0 Ex Ey) as [Hx0 Hy0].
      rewrite image_index_fits in Eimg by assumption.
      assert (Hcount : forall x y,
        hit_count (take (Z.to_nat (i + 1)) pos) x y
        = hit_count (take (Z.to_nat i) pos) x y
          + (if (x0 =? x) && (y0 =? y) then 1 else 0)).
      { intros x y. rewrite (take_snoc pos i row) by (lia || exact Er).
        now rewrite hit_count_snoc, Hhit. }
      assert (Hhere : 0 < hit_count (take (Z.to_nat (i + 1)) pos) x0 y0).
      { rewrite Hcount, !Z.eqb_refl. cbn [andb].
        pose proof (hit_count_nonneg (take (Z.to_nat i) pos) x0 y0). lia. }
      split; cbv zeta.
      + intros x y Hxy.
        destruct (decide ((y, x) = (y0, x0))) as [[= -> ->]|Hne].
        * split; [now split|]. exists (CInt.wrap (m + 1)).
          split; [exact Em'|]. rewrite Eimg. apply lookup_insert_eq.
        * assert (Hf : (x0 =? x) && (y0 =? y) = false).
          { destruct (Z.eqb_spec x0 x), (Z.eqb_spec y0 y); try reflexivity.
            subst. now contradiction Hne. }
          rewrite Hcount, Hf, Z.add_0_r in Hxy.
          destruct (Hin x y Hxy) as (Hb & m2 & Em2 & Ei2).
          split; [exact Hb|]. exists m2.
          rewrite Hother by exact Hne. split; [exact Em2|].
          rewrite Eimg, lookup_insert_ne; [exact Ei2|].
          intros Eidx. apply Hne. symmetry.
          apply (image_index_inj size_x size_y x0 y0 x y);
            [lia | lia | exact Eidx].
      + intros k Hk. rewrite Eimg, lookup_insert_ne.
        * apply Hout. intros x y Hxy. apply Hk. rewrite Hcount.
          destruct ((x0 =? x) && (y0 =? y)); lia.
        * intros Ek. now apply (Hk x0 y0 Hhere). }
  destruct Hend as [Hin Hout]. cbv zeta in Hin, Hout.
  replace (Z.to_nat (shape0 pos)) with (length pos) in Hin, Hout
    by (unfold shape0; lia).
  rewrite firstn_all in Hin, Hout.
  split; [|exact Hout].
  intros x y Hxy. now destruct (Hin x y Hxy) as [_ H].
Qed.

Lemma add_pixel_image_witness :
  exists h,
    add_pixel [[0; 0]; [0; 0]] [[0; 1]; [0; 1]; [1; 1]] 2 2 ∅ 0 = Ok h /\
    (exists m, get2 (mtx h) 1 0 = Ok m /\
       img h !! image_index 2 2 0 1 = Some (scaled m)) /\
    img h !! 3 = (∅ : gmap Z Z) !! 3.
Proof.
  destruct (add_pixel [[0; 0]; [0; 0]] [[0; 1]; [0; 1]; [1; 1]] 2 2 ∅ 0)
    as [h|e] eqn:E; [|vm_compute in E; discriminate].
  exists h. split; [reflexivity|].
  destruct (add_pixel_image [[0; 0]; [0; 0]] [[0; 1]; [0; 1]; [1; 1]] 2 2 ∅ 0
              h E) as [Hin Hout].
  - lia.
  - lia.
  - unfold CInt.int_max. lia.
  - intros i x y Ex Ey.
    assert (Hi : 0 <= i < 3).
    { unfold get2 in Ex.
      destruct (get1 [[0; 1]; [0; 1]; [1; 1]] i) as [row|] eqn:Er;
        [|discriminate].
      apply get1_bounds in Er. simpl in Er. lia. }
    assert (Hc : i = 0 \/ i = 1 \/ i = 2) by lia.
    destruct Hc as [->|[->| ->]]; vm_compute in Ex, Ey;
      injection Ex as <-; injection Ey as <-; lia.
  - split; [apply Hin; reflexivity|].
    apply Hout. intros x y Hxy.
    apply hit_count_elem in Hxy as (x' & y' & row & Hr & -> & ->).
    rewrite !elem_of_cons in Hr. unfold image_index.
    destruct Hr as [Hr|[Hr|[Hr|Hr]]];
      [injection Hr as -> -> _; lia ..|].
    now apply elem_of_nil in Hr.
Defined.
